(** * The 2048 game engine (class [Game]): a shallow embedding and its properties

    The engine is the JavaScript class [Game]: a square board of integer
    tiles, a score, a bounded undo history and a three-valued game state.
    Each method is embedded as a function on an explicit [Game] record;
    a method that returns a value and mutates [this] becomes a function to
    a pair (returned value, new state).

    Conventions of the embedding.
    - Tile values, scores and counters are JavaScript numbers holding
      integers; they are embedded as [Z].  The model computes exactly;
      the code does while the integers stay within 2^53, and rounds its
      additions beyond (section Numbers).
    - A JavaScript array is a [list] in array order: [push] appends at the
      end, [pop] removes the last element, [shift] removes the first.
    - [Math.random()] is an explicit argument: a rational in [0,1) per call.
    - The grid is read at [r][c] for [r], [c] below [this.size]; the code
      assumes the grid is [size] x [size].  A cell that does not exist
      reads as [undefined] ([None]); where the code would raise a
      TypeError (a missing row) the model goes on with [undefined].
      On such a grid a merge of two missing cells gives NaN in the
      code, which the model does not have.  Properties that depend on
      the shape of the board are stated for well-formed grids
      ([wf_grid]).
    - The engine never mutates a grid it shares: [addRandomTile] writes
      into a grid freshly built by [init] or [move], and [undo] installs
      the grid of the snapshot it has just removed from the history.  A
      value-passing model is therefore exact for the engine state. *)

From Stdlib Require Import ZArith QArith Qround Qabs Qminmax Lqa.
From stdpp Require Import base list strings.

Local Open Scope Z_scope.
Local Open Scope nat_scope.

(** ** Data model *)

(** A grid is an array of rows; a row is an array of tile values. *)
Abbreviation Grid := (list (list Z)).

(** [gameState]: the strings 'playing', 'won' and 'lost'. *)
Inductive GameState := Playing | Won | Lost.

#[global] Instance GameState_eq_dec : EqDecision GameState.
Proof. solve_decision. Defined.

(** An entry of [this.history], as built by [pushHistory]. *)
Record Snapshot := mkSnapshot {
  h_grid : Grid;
  h_score : Z;
  h_gameState : GameState;
  h_wonBefore : bool
}.

(** The fields of a [Game] object.  [maxHistory] is set to 20 by the
    constructor and assigned nowhere else; it is the constant below. *)
Record Game := mkGame {
  size : nat;
  grid : Grid;
  score : Z;
  bestScore : Z;
  history : list Snapshot;
  gameState : GameState;
  wonBefore : bool;
  moveId : Z
}.

Definition maxHistory : nat := 20.

(** [constructor(size = 4)]. *)
Definition newGame (n : nat) : Game :=
  mkGame n [] 0 0 [] Playing false 0.

(** ** Cells *)

(** [grid[r][c]]; [None] stands for [undefined]. *)
Definition cell (g : Grid) (r c : nat) : option Z :=
  match g !! r with
  | Some row => row !! c
  | None => None
  end.

(** [grid[r][c]] where the cell exists (an absent cell reads as 0 here;
    the code reads only cells of a [size] x [size] grid). *)
Definition getCell (g : Grid) (r c : nat) : Z := default 0%Z (cell g r c).

(** [grid[r][c] = v]. *)
Definition setCell (g : Grid) (r c : nat) (v : Z) : Grid :=
  match g !! r with
  | Some row => <[r := <[c := v]> row]> g
  | None => g
  end.

(** [cloneGrid]: [grid.map(row => [...row])]. *)
Definition cloneGrid (g : Grid) : Grid := map (fun row : list Z => row) g.

(** A grid is well formed for size [n] when it has [n] rows of [n] cells. *)
Definition wf_grid (n : nat) (g : Grid) : Prop :=
  length g = n ∧ Forall (fun row => length row = n) g.

(** ** slideRow *)

Record SlideResult := mkSlideResult {
  sr_row : list Z;
  sr_merged : list Z;
  sr_scoreGain : Z;
  sr_mergePositions : list nat
}.

(** The [for] loop of [slideRow].  [rest] is [filtered] from index [i] on:
    [filtered[i]] is its head and [i + 1 < filtered.length] holds when its
    tail is not empty.  A merge consumes two elements ([i++] in the body
    and in the loop header), any other step one. *)
Fixpoint slideLoop (rest : list Z) (result merged : list Z)
    (scoreGain : Z) (mergePositions : list nat) : SlideResult :=
  match rest with
  | [] => mkSlideResult result merged scoreGain mergePositions
  | a :: rest1 =>
      match rest1 with
      | b :: rest2 =>
          if (a =? b)%Z then
            let mergedVal := (a * 2)%Z in
            let result' := result ++ [mergedVal] in
            slideLoop rest2 result' (merged ++ [mergedVal])
              (scoreGain + mergedVal)%Z
              (mergePositions ++ [length result' - 1])
          else slideLoop rest1 (result ++ [a]) merged scoreGain mergePositions
      | [] => slideLoop rest1 (result ++ [a]) merged scoreGain mergePositions
      end
  end.

(** [while (result.length < row.length) result.push(0)]. *)
Definition padZeros (len : nat) (result : list Z) : list Z :=
  result ++ replicate (len - length result) 0%Z.

Definition slideRow (row : list Z) : SlideResult :=
  let filtered := filter (fun v : Z => v ≠ 0%Z) row in
  let out := slideLoop filtered [] [] 0%Z [] in
  mkSlideResult (padZeros (length row) (sr_row out))
    (sr_merged out) (sr_scoreGain out) (sr_mergePositions out).


(** ** Rotation *)

(** [Array.from({ length: n }, () => Array(n).fill(0))]. *)
Definition zeroGrid (n : nat) : Grid := replicate n (replicate n 0%Z).

(** [rotateGrid]: for every [r] and [c] below [n = grid.length], in
    row-major order, [rotated[c][n - 1 - r] = grid[r][c]]. *)
Definition rotateGrid (g : Grid) : Grid :=
  let n := length g in
  foldl (fun rotated r =>
           foldl (fun rotated c => setCell rotated c (n - 1 - r) (getCell g r c))
                 rotated (seq 0 n))
        (zeroGrid n) (seq 0 n).

(** [const rotations = { left: 0, up: 3, right: 2, down: 1 }] read at
    [direction].  [None] stands for a value that is not a number: the
    property is missing ([undefined]) or inherited from [Object.prototype]
    (a function or an object); all of these convert to NaN in a numeric
    comparison or subtraction. *)
Definition rotations (direction : string) : option nat :=
  if bool_decide (direction = "left") then Some 0
  else if bool_decide (direction = "up") then Some 3
  else if bool_decide (direction = "right") then Some 2
  else if bool_decide (direction = "down") then Some 1
  else None.

(** Number of iterations of [for (let i = 0; i < bound; i++)]: [bound]
    for a number, none when [bound] is NaN ([0 < NaN] is false). *)
Definition loopCount (bound : option nat) : nat := default 0 bound.

(** [(4 - rot) % 4]; NaN when [rot] is not a number. *)
Definition unrotations (rot : option nat) : option nat :=
  (fun k => (4 - k) mod 4) <$> rot.

(** ** History *)

Definition snapshot (s : Game) : Snapshot :=
  mkSnapshot (cloneGrid (grid s)) (score s) (gameState s) (wonBefore s).

Definition set_history (s : Game) (h : list Snapshot) : Game :=
  mkGame (size s) (grid s) (score s) (bestScore s) h
         (gameState s) (wonBefore s) (moveId s).

Definition set_grid (s : Game) (g : Grid) : Game :=
  mkGame (size s) g (score s) (bestScore s) (history s)
         (gameState s) (wonBefore s) (moveId s).

Definition set_gameState (s : Game) (st : GameState) : Game :=
  mkGame (size s) (grid s) (score s) (bestScore s) (history s)
         st (wonBefore s) (moveId s).

(** [Array.prototype.shift]: drop the first element. *)
Definition shift {A} (l : list A) : list A := tail l.

(** [Array.prototype.pop]: the array without its last element, and that
    element ([None] for [undefined], when the array is empty). *)
Fixpoint pop {A} (l : list A) : list A * option A :=
  match l with
  | [] => ([], None)
  | [x] => ([], Some x)
  | x :: l' => let '(rest, last) := pop l' in (x :: rest, last)
  end.

Definition pushHistory (s : Game) : Game :=
  let h := history s ++ [snapshot s] in
  set_history s (if bool_decide (maxHistory < length h) then shift h else h).

(** [undo]: the returned boolean and the state after the call. *)
Definition undo (s : Game) : bool * Game :=
  if bool_decide (length (history s) = 0) then (false, s)
  else
    match pop (history s) with
    | (h, Some prev) =>
        (true, mkGame (size s) (h_grid prev) (h_score prev) (bestScore s) h
                      (h_gameState prev) (h_wonBefore prev) (moveId s))
    | (_, None) => (false, s)
    end.

(** ** Random tiles *)

(** The two calls of [Math.random()] made by one [addRandomTile]. *)
Record Draws := mkDraws { cellDraw : Q; valueDraw : Q }.

Record NewTile := mkNewTile { nt_r : nat; nt_c : nat; nt_value : Z }.

(** The list [empty] of [addRandomTile], in row-major order. *)
Definition emptyCells (n : nat) (g : Grid) : list (nat * nat) :=
  flat_map (fun r =>
    flat_map (fun c =>
      if bool_decide (cell g r c = Some 0%Z) then [(r, c)] else [])
    (seq 0 n))
  (seq 0 n).

(** [addRandomTile]: the grid after the call and the returned tile
    ([None] for [null]).  [Math.floor(Math.random() * empty.length)] is
    [Qfloor] of the product.  For a draw in [0,1), all that
    [Math.random()] returns, the index is in range and the last branch
    below is not taken. *)
Definition addRandomTile (n : nat) (g : Grid) (rnd : Draws) : Grid * option NewTile :=
  let empty := emptyCells n g in
  if bool_decide (length empty = 0) then (g, None)
  else
    let idx := Z.to_nat (Qfloor (cellDraw rnd * inject_Z (Z.of_nat (length empty)))) in
    match empty !! idx with
    | Some (r, c) =>
        let value := if Qlt_le_dec (valueDraw rnd) (9 # 10) then 2%Z else 4%Z in
        (setCell g r c value, Some (mkNewTile r c value))
    | None => (g, None)
    end.

(** ** Win and lose checks *)

(** [canMove]: an empty cell, or two equal cells next to each other in a
    row or in a column, among the cells below [size]. *)
Definition canMove (n : nat) (g : Grid) : bool :=
  existsb (fun r => existsb (fun c => bool_decide (cell g r c = Some 0%Z)) (seq 0 n)) (seq 0 n)
  || existsb (fun r => existsb (fun c =>
         let val := cell g r c in
         (bool_decide (c + 1 < n) && bool_decide (cell g r (c + 1) = val))
         || (bool_decide (r + 1 < n) && bool_decide (cell g (r + 1) c = val)))
       (seq 0 n)) (seq 0 n).

(** [allMerged.includes(2048) || this.grid.some(row => row.includes(2048))]. *)
Definition hasWon (allMerged : list Z) (g : Grid) : bool :=
  bool_decide (2048%Z ∈ allMerged)
  || existsb (fun row : list Z => bool_decide (2048%Z ∈ row)) g.

(** [if (hasWon && !this.wonBefore) this.gameState = 'won']. *)
Definition checkWin (allMerged : list Z) (s : Game) : Game :=
  if hasWon allMerged (grid s) && negb (wonBefore s)
  then set_gameState s Won else s.

(** [if (!this.canMove()) this.gameState = 'lost']. *)
Definition checkLose (s : Game) : Game :=
  if negb (canMove (size s) (grid s)) then set_gameState s Lost else s.

(** ** move *)

(** An entry of [tileMovements] (coordinates in the rotated frame). *)
Record TileMove := mkTileMove {
  fromR : nat; fromC : nat; toR : nat; toC : nat;
  tm_value : Z; tm_merged : bool; tm_mergedValue : option Z
}.

(** An entry of [movements] (coordinates in the frame of the board);
    [mv_mergedValue] is [None] where the property is [undefined]. *)
Record Movement := mkMovement {
  mv_from : nat * nat; mv_to : nat * nat;
  mv_value : Z; mv_merged : bool; mv_mergedValue : option Z
}.

(** The object returned by a committed [move]. *)
Record MoveResult := mkMoveResult {
  moved : bool;
  movements : list Movement;
  mergedTiles : list Z;
  newTile : option NewTile;
  scoreGain : Z;
  r_gameState : GameState
}.

(** [row.some((v, i) => v !== original[i])]. *)
Fixpoint someDiffers (row original : list Z) : bool :=
  match row with
  | [] => false
  | v :: row' =>
      match original with
      | [] => true
      | o :: original' => negb (v =? o)%Z || someDiffers row' original'
      end
  end.

(** [srcPositions]: the columns and values of the non-zero cells of
    [originalRow], for columns below [size]. *)
Definition srcPositionsOf (n : nat) (originalRow : list Z) : list (nat * Z) :=
  flat_map (fun c =>
    match originalRow !! c with
    | Some v => if bool_decide (v ≠ 0%Z) then [(c, v)] else []
    | None => []
    end) (seq 0 n).

(** The [while] loop that pairs source tiles with destination columns.
    [src] is [srcPositions] from [srcIdx] on.  Every iteration increments
    [destIdx] and the loop stops at [destIdx = size], so [size] units of
    [fuel] from [destIdx = 0] never run out. *)
Fixpoint trackLoop (fuel n r : nat) (row : list Z) (mergePositions : list nat)
    (src : list (nat * Z)) (destIdx : nat) : list TileMove :=
  match fuel with
  | 0 => []
  | S fuel' =>
      match src with
      | [] => []
      | (c1, v1) :: src1 =>
          if negb (bool_decide (destIdx < n)) then []
          else if bool_decide (row !! destIdx = Some 0%Z)
          then trackLoop fuel' n r row mergePositions src (destIdx + 1)
          else
            match bool_decide (destIdx ∈ mergePositions), src1 with
            | true, (c2, v2) :: src2 =>
                mkTileMove r c1 r destIdx v1 true (row !! destIdx)
                :: mkTileMove r c2 r destIdx v2 true (row !! destIdx)
                :: trackLoop fuel' n r row mergePositions src2 (destIdx + 1)
            | _, _ =>
                mkTileMove r c1 r destIdx v1 false None
                :: trackLoop fuel' n r row mergePositions src1 (destIdx + 1)
            end
      end
  end.

(** The variables of the loop over the rows of [workGrid]. *)
Record SlideAcc := mkSlideAcc {
  a_workGrid : Grid;
  a_moved : bool;
  a_totalScoreGain : Z;
  a_allMerged : list Z;
  a_tileMovements : list TileMove
}.

(** One iteration, for row [r], of [for (let r = 0; r < this.size; r++)]. *)
Definition slideStep (n : nat) (acc : SlideAcc) (r : nat) : SlideAcc :=
  let originalRow := default [] (a_workGrid acc !! r) in
  let sr := slideRow originalRow in
  let row := sr_row sr in
  mkSlideAcc
    (<[r := row]> (a_workGrid acc))
    (if someDiffers row originalRow then true else a_moved acc)
    (a_totalScoreGain acc + sr_scoreGain sr)%Z
    (a_allMerged acc ++ sr_merged sr)
    (a_tileMovements acc
       ++ trackLoop n n r row (sr_mergePositions sr) (srcPositionsOf n originalRow) 0).

Definition slideRows (n : nat) (workGrid : Grid) : SlideAcc :=
  foldl (slideStep n) (mkSlideAcc workGrid false 0%Z [] []) (seq 0 n).

(** [workGrid] after the forward rotations. *)
Definition normalized (g : Grid) (direction : string) : Grid :=
  Nat.iter (loopCount (rotations direction)) rotateGrid (cloneGrid g).

(** The loop over the rows, run on the normalized grid. *)
Definition slidePhase (n : nat) (g : Grid) (direction : string) : SlideAcc :=
  slideRows n (normalized g direction).

(** [workGrid] after the inverse rotations: the grid that a committed
    move installs, before the new tile is added. *)
Definition slidGrid (n : nat) (g : Grid) (direction : string) : Grid :=
  Nat.iter (loopCount (unrotations (rotations direction))) rotateGrid
    (a_workGrid (slidePhase n g direction)).

(** [unrotateCoord(r, c, times)]. *)
Definition unrotateCoord (n : nat) (r c times : nat) : nat * nat :=
  Nat.iter times (fun '(cr, cc) => (cc, n - 1 - cr)) (r, c).

Definition unrotateMove (n times : nat) (m : TileMove) : Movement :=
  mkMovement (unrotateCoord n (fromR m) (fromC m) times)
             (unrotateCoord n (toR m) (toC m) times)
             (tm_value m) (tm_merged m) (tm_mergedValue m).

(** The assignments to [grid], [score], [moveId] and [bestScore] of a
    committed move. *)
Definition commit (s : Game) (workGrid : Grid) (totalScoreGain : Z) : Game :=
  let score' := (score s + totalScoreGain)%Z in
  mkGame (size s) workGrid score'
         (if bool_decide (bestScore s < score')%Z then score' else bestScore s)
         (history s) (gameState s) (wonBefore s) (moveId s + 1)%Z.

(** [move(direction)]: the returned object ([None] for [null]) and the
    state after the call. *)
Definition move (s : Game) (direction : string) (rnd : Draws)
  : option MoveResult * Game :=
  if bool_decide (gameState s = Lost) then (None, s)
  else if bool_decide (gameState s = Won) && negb (wonBefore s) then (None, s)
  else
    let s1 := pushHistory s in
    let acc := slidePhase (size s1) (grid s1) direction in
    if negb (a_moved acc) then (None, set_history s1 (fst (pop (history s1))))
    else
      let unrot := loopCount (unrotations (rotations direction)) in
      let movements := map (unrotateMove (size s1) unrot) (a_tileMovements acc) in
      let s2 := commit s1 (slidGrid (size s1) (grid s1) direction)
                       (a_totalScoreGain acc) in
      let '(g3, newTile) := addRandomTile (size s2) (grid s2) rnd in
      let s3 := set_grid s2 g3 in
      let s4 := checkWin (a_allMerged acc) s3 in
      let s5 := checkLose s4 in
      (Some (mkMoveResult true movements (a_allMerged acc) newTile
                          (a_totalScoreGain acc) (gameState s5)), s5).

(** The state that a committed [move] leaves: the assignments after the
    check of [moved], in order. *)
Definition committedState (s : Game) (direction : string) (rnd : Draws) : Game :=
  let acc := slidePhase (size s) (grid s) direction in
  let g := slidGrid (size s) (grid s) direction in
  checkLose (checkWin (a_allMerged acc)
    (set_grid (commit (pushHistory s) g (a_totalScoreGain acc))
              (fst (addRandomTile (size s) g rnd)))).

(** ** init, continueGame *)

(** [init()], with the draws of its two [addRandomTile] calls. *)
Definition init (s : Game) (rnd1 rnd2 : Draws) : Game :=
  let g0 := zeroGrid (size s) in
  let g1 := fst (addRandomTile (size s) g0 rnd1) in
  let g2 := fst (addRandomTile (size s) g1 rnd2) in
  mkGame (size s) g2 0 (bestScore s) [] Playing false 0.

Definition continueGame (s : Game) : Game :=
  if bool_decide (gameState s = Won)
  then mkGame (size s) (grid s) (score s) (bestScore s) (history s)
              Playing true (moveId s)
  else s.

(** ** serialize, deserialize *)

(** The object stored by the caller.  A field is [None] when the property
    is absent (or [null]); [serialize] writes every field. *)
Record SerializedGame := mkSerializedGame {
  d_grid : option Grid;
  d_score : option Z;
  d_bestScore : option Z;
  d_history : option (list Snapshot);
  d_gameState : option GameState;
  d_wonBefore : option bool;
  d_moveId : option Z
}.

Definition serialize (s : Game) : SerializedGame :=
  mkSerializedGame
    (Some (cloneGrid (grid s))) (Some (score s)) (Some (bestScore s))
    (Some (map (fun h => mkSnapshot (cloneGrid (h_grid h)) (h_score h)
                                    (h_gameState h) (h_wonBefore h))
               (history s)))
    (Some (gameState s)) (Some (wonBefore s)) (Some (moveId s)).

(** [deserialize(data)]; [data] is [None] for [null] or [undefined].  For
    values of these types [x || d] is [x] when [x] is present and [d]
    otherwise (a present 0 or [false] equals its default, and an array is
    truthy even when empty). *)
Definition deserialize (s : Game) (data : option SerializedGame) : bool * Game :=
  match data with
  | None => (false, s)
  | Some d =>
      match d_grid d with
      | None => (false, s)
      | Some g =>
          (true, mkGame (size s) g
                   (default 0%Z (d_score d))
                   (default 0%Z (d_bestScore d))
                   (default [] (d_history d))
                   (default Playing (d_gameState d))
                   (default false (d_wonBefore d))
                   (default 0%Z (d_moveId d)))
      end
  end.

(** ** Further methods of Game *)

(** [rotateGridCCW]: for every [r] and [c] below [n = grid.length], in
    row-major order, [rotated[n - 1 - c][r] = grid[r][c]]. *)
Definition rotateGridCCW (g : Grid) : Grid :=
  let n := length g in
  foldl (fun rotated r =>
           foldl (fun rotated c => setCell rotated (n - 1 - c) r (getCell g r c))
                 rotated (seq 0 n))
        (zeroGrid n) (seq 0 n).


(** ** InputHandler *)

(** The fields of [InputHandler] that its listeners read and write.
    Screen coordinates are embedded as rationals and their differences
    are exact; times are integers of milliseconds. *)
Record InputHandler := mkInputHandler {
  locked : bool;
  _touchStartX : Q;
  _touchStartY : Q;
  _touchStartTime : Z;
  minSwipeDistance : Q
}.

(** [constructor(onMove)]. *)
Definition newInputHandler : InputHandler := mkInputHandler false 0 0 0 30.

(** The [switch] of the keydown listener; [None] stands for [null]. *)
Definition keyDirection (key : string) : option string :=
  if bool_decide (key = "ArrowUp") || bool_decide (key = "w") || bool_decide (key = "W")
  then Some "up"
  else if bool_decide (key = "ArrowDown") || bool_decide (key = "s") || bool_decide (key = "S")
  then Some "down"
  else if bool_decide (key = "ArrowLeft") || bool_decide (key = "a") || bool_decide (key = "A")
  then Some "left"
  else if bool_decide (key = "ArrowRight") || bool_decide (key = "d") || bool_decide (key = "D")
  then Some "right"
  else None.

(** The keydown listener: the argument of its call of [onMove], [None]
    when it makes no call. *)
Definition keydown (h : InputHandler) (key : string) : option string :=
  if locked h then None else keyDirection key.

Record Touch := mkTouch { clientX : Q; clientY : Q }.

(** The touchstart listener, at time [now] ([Date.now()]). *)
Definition touchstart (h : InputHandler) (touches : list Touch) (now : Z) : InputHandler :=
  if locked h then h
  else match touches with
       | [t] => mkInputHandler (locked h) (clientX t) (clientY t) now (minSwipeDistance h)
       | _ => h
       end.

(** The touchend listener, at time [now]: the argument of its call of
    [onMove], [None] when it makes no call. *)
Definition touchend (h : InputHandler) (changedTouches : list Touch) (now : Z)
  : option string :=
  if locked h then None
  else match changedTouches with
       | [t] =>
           let dx := (clientX t - _touchStartX h)%Q in
           let dy := (clientY t - _touchStartY h)%Q in
           let elapsed := (now - _touchStartTime h)%Z in
           if (1000 <? elapsed)%Z then None
           else
             let absDx := Qabs dx in
             let absDy := Qabs dy in
             if Qlt_le_dec (Qmax absDx absDy) (minSwipeDistance h) then None
             else Some (if Qlt_le_dec absDy absDx
                        then (if Qlt_le_dec 0 dx then "right" else "left")
                        else (if Qlt_le_dec 0 dy then "down" else "up"))
       | _ => None
       end.

(** ** Numbers

    Tile values and scores are JavaScript numbers, that is doubles.  An
    integer of size at most 2^53 is a number, and a sum or a double of
    such integers that stays within 2^53 is computed exactly: there the
    model, which computes in [Z], and the code agree.  Beyond 2^53 an
    addition gives the number nearest to the exact sum. *)





(** ** Sequences of calls *)

Inductive Op :=
  | OpMove (direction : string) (rnd : Draws)
  | OpUndo
  | OpContinue.

Definition step (s : Game) (o : Op) : Game :=
  match o with
  | OpMove direction rnd => snd (move s direction rnd)
  | OpUndo => snd (undo s)
  | OpContinue => continueGame s
  end.

Definition run (s : Game) (ops : list Op) : Game := foldl step s ops.

(** A sequence of moves that are all committed: the states before each
    move, in order, and the state after the last one; [None] as soon as
    a move returns [null]. *)
Fixpoint playMoves (s : Game) (ms : list (string * Draws))
  : option (list Game * Game) :=
  match ms with
  | [] => Some ([], s)
  | (direction, rnd) :: ms' =>
      match move s direction rnd with
      | (Some _, s') =>
          match playMoves s' ms' with
          | Some (pres, s'') => Some (s :: pres, s'')
          | None => None
          end
      | (None, _) => None
      end
  end.

(** ** Specification-side notions *)

Definition sumZ (l : list Z) : Z := foldr Z.add 0%Z l.

(** Sum of all the tiles of a grid. *)
Definition gridSum (g : Grid) : Z := sumZ (map sumZ g).

(** [f 0 + ... + f (n - 1)]. *)
Fixpoint sumTo (n : nat) (f : nat → Z) : Z :=
  match n with
  | 0 => 0%Z
  | S k => (sumTo k f + f k)%Z
  end.

(** The last [n] elements of a list, in order. *)
Definition lastN {A} (n : nat) (l : list A) : list A := drop (length l - n) l.

(** The input tiles that make one output cell: a single tile, or two
    equal tiles that merge. *)
Definition mergeGroup (grp : list Z) : Prop :=
  (∃ a, grp = [a]) ∨ (∃ a, grp = [a; a]).

(** The groups the scan of [slideRow] cuts a compacted row into. *)
Fixpoint groupsOf (rest : list Z) : list (list Z) :=
  match rest with
  | [] => []
  | a :: rest1 =>
      match rest1 with
      | b :: rest2 =>
          if (a =? b)%Z then [a; b] :: groupsOf rest2 else [a] :: groupsOf rest1
      | [] => [[a]]
      end
  end.

Definition isPair (grp : list Z) : bool :=
  match grp with [_; _] => true | _ => false end.

(** A call of [move] is rejected at once in these states. *)
Definition rejected (s : Game) : Prop :=
  gameState s = Lost ∨ (gameState s = Won ∧ wonBefore s = false).

(** Sliding the normalized grid changes none of its rows. *)
Definition slideChangesNoRow (s : Game) (direction : string) : Prop :=
  ∀ r row, r < size s → normalized (grid s) direction !! r = Some row →
           sr_row (slideRow row) = row.

(** No cell below [n] is empty. *)
Definition noEmptyCell (n : nat) (g : Grid) : Prop :=
  ∀ r c, r < n → c < n → cell g r c ≠ Some 0%Z.

(** No two cells next to each other, in a row or in a column, are equal. *)
Definition noEqualNeighbours (n : nat) (g : Grid) : Prop :=
  ∀ r c, r < n → c < n →
    (c + 1 < n → cell g r (c + 1) ≠ cell g r c)
    ∧ (r + 1 < n → cell g (r + 1) c ≠ cell g r c).

(** The input of [deserialize] has no grid. *)
Definition lacksGrid (data : option SerializedGame) : Prop :=
  match data with
  | None => True
  | Some d => d_grid d = None
  end.

Definition isUndo (o : Op) : bool :=
  match o with OpUndo => true | _ => false end.

(** ** Further specification-side notions *)

(** No two tiles next to each other in a row are equal. *)
Fixpoint noAdjacentEqual (l : list Z) : Prop :=
  match l with
  | a :: (b :: _) as rest => a ≠ b ∧ noAdjacentEqual rest
  | _ => True
  end.

(** A row with all its tiles at the left: non-zero values, then zeros. *)
Definition compacted (row : list Z) : Prop :=
  ∃ tiles k, row = tiles ++ replicate k 0%Z ∧ Forall (fun v : Z => v ≠ 0%Z) tiles.

(** A full board on which no two neighbours are equal, still Playing (as
    [deserialize] can install it). *)
Definition blockedBoard : Game :=
  mkGame 4 [[2; 4; 2; 4]; [4; 2; 4; 2]; [2; 4; 2; 4]; [4; 2; 4; 2]]%Z
         100 100 [] Playing false 50.

(** A value that [Math.random()] can return: a number in [0,1). *)
Definition validDraw (u : Q) : Prop := (0 <= u)%Q ∧ (u < 1)%Q.

Definition validDraws (rnd : Draws) : Prop :=
  validDraw (cellDraw rnd) ∧ validDraw (valueDraw rnd).

(** The current score and every score kept for undo are at most the best
    score. *)
Definition scoresBelowBest (s : Game) : Prop :=
  (score s ≤ bestScore s)%Z
  ∧ Forall (fun h => (h_score h ≤ bestScore s)%Z) (history s).

(** The output positions, from [base] on, of the groups that are pairs. *)
Fixpoint pairPositions (base : nat) (groups : list (list Z)) : list nat :=
  match groups with
  | [] => []
  | grp :: groups' =>
      (if isPair grp then [base] else []) ++ pairPositions (S base) groups'
  end.

(** What a movement record must say about the row it was taken from and
    the row the slide made of it. *)
Definition movementOfRow (n r : nat) (row slid : list Z) (m : TileMove) : Prop :=
  fromR m = r ∧ toR m = r ∧ fromC m < n ∧ toC m < n
  ∧ row !! fromC m = Some (tm_value m) ∧ tm_value m ≠ 0%Z
  ∧ slid !! toC m = Some (if tm_merged m then (2 * tm_value m)%Z else tm_value m)
  ∧ tm_mergedValue m = (if tm_merged m then Some (2 * tm_value m)%Z else None).

(** What a movement record of [move] must say about the grid before the
    move and the grid [slid] that the slide made of it. *)
Definition movementOfMove (n : nat) (g slid : Grid) (m : Movement) : Prop :=
  fst (mv_from m) < n ∧ snd (mv_from m) < n
  ∧ fst (mv_to m) < n ∧ snd (mv_to m) < n
  ∧ mv_value m ≠ 0%Z
  ∧ cell g (fst (mv_from m)) (snd (mv_from m)) = Some (mv_value m)
  ∧ cell slid (fst (mv_to m)) (snd (mv_to m))
    = Some (if mv_merged m then (2 * mv_value m)%Z else mv_value m)
  ∧ mv_mergedValue m = (if mv_merged m then Some (2 * mv_value m)%Z else None).

(** The movement records that the row loop pushes for row [r]. *)
Definition rowMovements (n r : nat) (row : list Z) : list TileMove :=
  trackLoop n n r (sr_row (slideRow row)) (sr_mergePositions (slideRow row))
            (srcPositionsOf n row) 0.




(** ** Directions on the board *)

(** Cell [(r', c')] lies behind cell [(r, c)] for a move in [direction]:
    in the same row or column, farther from the edge that the tiles
    move to.  No cell lies behind another for a string that is not one
    of the four directions. *)
Definition behind (direction : string) (r c r' c' : nat) : Prop :=
  if bool_decide (direction = "left") then r' = r ∧ c < c'
  else if bool_decide (direction = "right") then r' = r ∧ c' < c
  else if bool_decide (direction = "up") then c' = c ∧ r < r'
  else if bool_decide (direction = "down") then c' = c ∧ r' < r
  else False.

(** No tile has an empty cell ahead of it in [direction]: behind an
    empty cell there are empty cells only. *)
Definition packedToward (n : nat) (g : Grid) (direction : string) : Prop :=
  ∀ r c r' c', r < n → c < n → r' < n → c' < n →
    behind direction r c r' c' →
    getCell g r c = 0%Z → getCell g r' c' = 0%Z.

(** The board holds a tile. *)
Definition hasTile (n : nat) (g : Grid) : Prop :=
  ∃ r c, r < n ∧ c < n ∧ getCell g r c ≠ 0%Z.

(** Cell [(r', c')] is the neighbour of [(r, c)] along the axis of
    [direction]: the next cell of its row for left and right, of its
    column for up and down. *)
Definition neighbourAlong (direction : string) (r c r' c' : nat) : Prop :=
  if bool_decide (direction = "left") || bool_decide (direction = "right")
  then r' = r ∧ c' = S c
  else if bool_decide (direction = "up") || bool_decide (direction = "down")
  then c' = c ∧ r' = S r
  else False.

(** No two equal tiles are next to each other along the axis of
    [direction]. *)
Definition noMergeAlong (n : nat) (g : Grid) (direction : string) : Prop :=
  ∀ r c r' c', r < n → c < n → r' < n → c' < n →
    neighbourAlong direction r c r' c' →
    getCell g r c ≠ 0%Z → getCell g r' c' ≠ getCell g r c.

(** The four directions of the rotation table of [move]. *)
Definition directions : list string := ["up"; "down"; "left"; "right"].

(** ** Swipes *)

(** The direction opposite to [direction]. *)
Definition opposite (direction : string) : string :=
  if bool_decide (direction = "left") then "right"
  else if bool_decide (direction = "right") then "left"
  else if bool_decide (direction = "up") then "down"
  else if bool_decide (direction = "down") then "up"
  else direction.



(** ** Shapes and sizes *)

(** The grid and every grid kept for undo have [size] rows of [size]
    cells. *)
Definition wfGame (s : Game) : Prop :=
  wf_grid (size s) (grid s)
  ∧ Forall (fun h => wf_grid (size s) (h_grid h)) (history s).



(** ** Example states *)

(** Draws that put a 2 into the first empty cell, and a 4 into the
    middle one. *)
Definition firstCell2 : Draws := mkDraws (0 # 1) (0 # 1).
Definition middleCell4 : Draws := mkDraws (1 # 2) (19 # 20).

(** A new game: [new Game().init()]. *)
Definition startGame : Game := init (newGame 4) firstCell2 middleCell4.

(** Twenty-five moves from [startGame], all of them committed. *)
Definition longPlay : list (string * Draws) :=
  map (fun direction => (direction, firstCell2))
    ["down"; "down"; "right"; "up"; "left";
     "down"; "right"; "up"; "left"; "down"; "right"; "up"; "left";
     "down"; "right"; "up"; "left"; "down"; "right"; "up"; "left";
     "down"; "right"; "up"; "left"].

Definition afterLongPlay : Game :=
  match playMoves startGame longPlay with
  | Some (_, s) => s
  | None => startGame
  end.

(** One merge away from 2048. *)
Definition nearWin : Game :=
  mkGame 4 [[1024; 1024; 0; 0]; [0; 0; 0; 0]; [0; 0; 0; 0]; [0; 0; 0; 0]]%Z
         18432 18432 [] Playing false 900.

(** A board holding 4096 and no 2048, as [deserialize] can install it. *)
Definition beyondWin : Game :=
  mkGame 4 [[4096; 2; 2; 0]; [0; 0; 0; 0]; [0; 0; 0; 0]; [0; 0; 0; 0]]%Z
         40000 40000 [] Playing false 2000.

(** A stored game whose history has 21 entries. *)
Definition oversizedSave : SerializedGame :=
  mkSerializedGame
    (Some [[2; 2; 0; 0]; [0; 0; 0; 0]; [0; 0; 0; 0]; [0; 0; 0; 0]]%Z)
    (Some 0%Z) (Some 0%Z)
    (Some (replicate 21
             (mkSnapshot [[2; 0; 0; 0]; [0; 0; 0; 2]; [0; 0; 0; 0]; [0; 0; 0; 0]]%Z
                         0 Playing false)))
    (Some Playing) (Some false) (Some 21%Z).

(** One merge away from 2048 on a board that the merge and the new tile
    leave full and blocked. *)
Definition winAndBlocked : Game :=
  mkGame 4 [[1024; 1024; 4; 8]; [4; 8; 16; 32]; [8; 16; 32; 64]; [16; 32; 64; 128]]%Z
         20000 20000 [] Playing false 1000.

(** * Properties *)

(** ** Arrays *)

Lemma pop_snoc {A} (l : list A) (x : A) : pop (l ++ [x]) = (l, Some x).
Proof.
  induction l as [|y l IH]; [done|].
  simpl. rewrite IH. by destruct (l ++ [x]) eqn:E; [destruct l|].
Qed.

Lemma snoc_cases {A} (l : list A) : l = [] ∨ ∃ h x, l = h ++ [x].
Proof. destruct l as [|x h _] using rev_ind; [by left|right; eauto]. Qed.

Lemma cloneGrid_id (g : Grid) : cloneGrid g = g.
Proof. unfold cloneGrid. induction g; simpl; congruence. Qed.

(** ** undo *)

Lemma undo_empty (s : Game) : history s = [] → undo s = (false, s).
Proof. intros H. unfold undo. by rewrite H. Qed.

Lemma undo_snoc (s : Game) (h : list Snapshot) (prev : Snapshot) :
  history s = h ++ [prev] →
  undo s = (true, mkGame (size s) (h_grid prev) (h_score prev) (bestScore s) h
                         (h_gameState prev) (h_wonBefore prev) (moveId s)).
Proof.
  intros H. unfold undo. rewrite H, pop_snoc.
  rewrite bool_decide_eq_false_2; [done|].
  rewrite length_app. simpl. lia.
Qed.

(** C7.  Every state is in one of two cases.  Its history is empty:
    [undo] returns [false] and leaves the state as it is.  Or its history
    is [h ++ [prev]], [prev] being the most recent snapshot: [undo]
    returns [true], the history becomes [h] (one entry shorter), grid,
    score, gameState and wonBefore become those of [prev], and moveId
    (with size and bestScore) keeps its value; the grid is the snapshot's
    grid as it was stored, no tile is added. *)
Theorem undo_pops_latest_snapshot (s : Game) :
  (history s = [] ∧ undo s = (false, s))
  ∨ (∃ h prev,
       history s = h ++ [prev]
       ∧ undo s
         = (true, mkGame (size s) (h_grid prev) (h_score prev) (bestScore s) h
                         (h_gameState prev) (h_wonBefore prev) (moveId s))
       ∧ length (history (snd (undo s))) + 1 = length (history s)).
Proof.
  destruct (snoc_cases (history s)) as [Hh|(h & prev & Hh)].
  - left. split; [done|]. by apply undo_empty.
  - right. exists h, prev. split; [done|].
    rewrite (undo_snoc s h prev Hh). split; [done|].
    simpl. rewrite Hh, length_app. simpl. lia.
Qed.

(** ** deserialize *)

(** C9.  [deserialize] returns [false] with the state untouched exactly
    when the input has no grid.  With a grid [g] it returns [true],
    installs [g], and each other field is the supplied value, or its
    default when absent: score 0, gameState Playing, wonBefore false,
    moveId 0, empty history (and bestScore 0). *)
Theorem deserialize_needs_grid (s : Game) (data : option SerializedGame) :
  (fst (deserialize s data) = false ∧ snd (deserialize s data) = s
     ↔ lacksGrid data)
  ∧ (fst (deserialize s data) = true ↔ ¬ lacksGrid data)
  ∧ ∀ d g, data = Some d → d_grid d = Some g →
      let s' := snd (deserialize s data) in
      fst (deserialize s data) = true
      ∧ grid s' = g
      ∧ score s' = match d_score d with Some v => v | None => 0%Z end
      ∧ gameState s' = match d_gameState d with Some v => v | None => Playing end
      ∧ wonBefore s' = match d_wonBefore d with Some v => v | None => false end
      ∧ moveId s' = match d_moveId d with Some v => v | None => 0%Z end
      ∧ history s' = match d_history d with Some v => v | None => [] end
      ∧ bestScore s' = match d_bestScore d with Some v => v | None => 0%Z end
      ∧ size s' = size s.
Proof.
  split; [|split].
  - destruct data as [d|]; simpl; [|done].
    destruct (d_grid d); simpl; [|done].
    split; [by intros [? _]|done].
  - destruct data as [d|]; simpl; [|by split; [|intros []]].
    destruct (d_grid d); simpl; [done|by split; [|intros []]].
  - intros d g -> Hg. simpl. rewrite Hg. simpl.
    repeat split; by destruct d as [? [] [] [] [] [] []].
Qed.

(** What [serialize] writes, [deserialize] reads back: every field of
    the engine but [size], which [deserialize] leaves alone. *)
Lemma deserialize_serialize (s0 s : Game) :
  deserialize s0 (Some (serialize s))
  = (true, mkGame (size s0) (grid s) (score s) (bestScore s) (history s)
                  (gameState s) (wonBefore s) (moveId s)).
Proof.
  unfold deserialize, serialize. simpl. rewrite cloneGrid_id.
  do 3 f_equal.
  induction (history s) as [|[g sc gs wb] h IH]; simpl; [done|].
  by rewrite cloneGrid_id, IH.
Qed.

(** ** Directions *)

(** C10.  A direction other than left, up, right and down is not
    rejected: both rotation loops run zero times, and the call returns
    the same result and leaves the same state as [move("left")]. *)
Theorem move_unknown_direction_slides_left (s : Game) (direction : string) (rnd : Draws) :
  direction ≠ "left" → direction ≠ "up" →
  direction ≠ "right" → direction ≠ "down" →
  loopCount (rotations direction) = 0
  ∧ loopCount (unrotations (rotations direction)) = 0
  ∧ move s direction rnd = move s "left" rnd.
Proof.
  intros Hl Hu Hr Hd.
  assert (Hrot : rotations direction = None).
  { unfold rotations. by rewrite !bool_decide_eq_false_2. }
  assert (Hleft : rotations "left" = Some 0) by done.
  split; [by rewrite Hrot|]. split; [by rewrite Hrot|].
  unfold move, slidGrid, slidePhase, normalized.
  by rewrite Hrot, Hleft.
Qed.

Lemma move_unknown_direction_witness :
  move (mkGame 4 [[2; 2; 0; 0]; [0; 0; 0; 0]; [0; 0; 0; 0]; [0; 0; 0; 0]]%Z
              0 0 [] Playing false 0) "diagonal" (mkDraws (0 # 1) (0 # 1))
  = move (mkGame 4 [[2; 2; 0; 0]; [0; 0; 0; 0]; [0; 0; 0; 0]; [0; 0; 0; 0]]%Z
                 0 0 [] Playing false 0) "left" (mkDraws (0 # 1) (0 # 1)).
Proof.
  apply (move_unknown_direction_slides_left _ "diagonal"); by vm_compute.
Defined.

(** ** slideRow *)

(** Induction following the scan: it advances by one or by two tiles. *)
Lemma scan_ind (P : list Z → Prop) :
  P [] → (∀ a, P [a]) →
  (∀ a b l, P l → P (b :: l) → P (a :: b :: l)) →
  ∀ l, P l.
Proof.
  intros Hnil Hone Hstep l.
  cut (P l ∧ ∀ a, P (a :: l)); [tauto|].
  induction l as [|b l [IH1 IH2]]; [by split|].
  split; [apply IH2|]. intros a. by apply Hstep.
Qed.

Lemma sumZ_app (l k : list Z) : sumZ (l ++ k) = (sumZ l + sumZ k)%Z.
Proof. induction l as [|x l IH]; simpl; [done|]. rewrite IH. lia. Qed.

Lemma sumZ_replicate_0 (n : nat) : sumZ (replicate n 0%Z) = 0%Z.
Proof. induction n; simpl; [done|]. by rewrite IHn. Qed.

Lemma sumZ_concat (ls : list (list Z)) : sumZ (concat ls) = sumZ (map sumZ ls).
Proof.
  induction ls as [|l ls IH]; simpl; [done|]. rewrite sumZ_app. by rewrite IH.
Qed.

Lemma sumZ_filter_nonzero (row : list Z) :
  sumZ (filter (fun v : Z => v ≠ 0%Z) row) = sumZ row.
Proof.
  induction row as [|x row IH]; [done|].
  rewrite filter_cons. case_decide; simpl; rewrite IH; lia.
Qed.

Lemma groupsOf_step (a b : Z) (l : list Z) :
  groupsOf (a :: b :: l)
  = if (a =? b)%Z then [a; b] :: groupsOf l else [a] :: groupsOf (b :: l).
Proof. reflexivity. Qed.

Lemma slideLoop_step (a b : Z) (l result merged : list Z) (scoreGain : Z)
    (mergePositions : list nat) :
  slideLoop (a :: b :: l) result merged scoreGain mergePositions
  = if (a =? b)%Z
    then slideLoop l (result ++ [(a * 2)%Z]) (merged ++ [(a * 2)%Z])
           (scoreGain + a * 2)%Z
           (mergePositions ++ [length (result ++ [(a * 2)%Z]) - 1])
    else slideLoop (b :: l) (result ++ [a]) merged scoreGain mergePositions.
Proof. reflexivity. Qed.

Lemma groupsOf_concat (rest : list Z) : concat (groupsOf rest) = rest.
Proof.
  induction rest as [|a|a b l IH1 IH2] using scan_ind; [done..|].
  rewrite groupsOf_step.
  destruct (a =? b)%Z; cbn [concat app]; by rewrite ?IH1, ?IH2.
Qed.

Lemma groupsOf_mergeGroup (rest : list Z) : Forall mergeGroup (groupsOf rest).
Proof.
  induction rest as [|a|a b l IH1 IH2] using scan_ind.
  - constructor.
  - repeat constructor. by exists a.
  - rewrite groupsOf_step.
    destruct (Z.eqb_spec a b) as [->|]; constructor; try done.
    + right. by exists b.
    + left. by exists a.
Qed.

Lemma groupsOf_length (rest : list Z) : length (groupsOf rest) ≤ length rest.
Proof.
  induction rest as [|a|a b l IH1 IH2] using scan_ind; [done..|].
  rewrite groupsOf_step.
  destruct (a =? b)%Z; cbn [length] in *; lia.
Qed.

(** What the scan computes, for any values of its accumulators. *)
Lemma slideLoop_groups (rest : list Z) :
  ∀ result merged scoreGain mergePositions,
    let out := slideLoop rest result merged scoreGain mergePositions in
    sr_row out = result ++ map sumZ (groupsOf rest)
    ∧ sr_merged out = merged ++ map sumZ (filter (fun grp => isPair grp = true) (groupsOf rest))
    ∧ sr_scoreGain out
      = (scoreGain + sumZ (map sumZ (filter (fun grp => isPair grp = true) (groupsOf rest))))%Z.
Proof.
  induction rest as [|a|a b l IH1 IH2] using scan_ind;
    intros result merged scoreGain mergePositions.
  - simpl. rewrite !app_nil_r. repeat split; lia.
  - simpl. rewrite !app_nil_r. repeat split; [|lia].
    f_equal. f_equal. lia.
  - rewrite groupsOf_step, slideLoop_step.
    destruct (Z.eqb_spec a b) as [->|Hne].
    + destruct (IH1 (result ++ [(b * 2)%Z]) (merged ++ [(b * 2)%Z])
                  (scoreGain + b * 2)%Z
                  (mergePositions ++ [length (result ++ [(b * 2)%Z]) - 1]))
        as (Hr & Hm & Hs).
      cbv zeta. rewrite Hr, Hm, Hs.
      rewrite filter_cons. simpl.
      rewrite <- !app_assoc. simpl.
      replace (b + (b + 0))%Z with (b * 2)%Z by lia.
      repeat split; lia.
    + destruct (IH2 (result ++ [a]) merged scoreGain mergePositions)
        as (Hr & Hm & Hs).
      cbv zeta. rewrite Hr, Hm, Hs.
      rewrite filter_cons. simpl.
      rewrite <- !app_assoc. simpl.
      replace (a + 0)%Z with a by lia.
      done.
Qed.

Lemma slideRow_row (row : list Z) :
  let groups := groupsOf (filter (fun v : Z => v ≠ 0%Z) row) in
  sr_row (slideRow row)
  = map sumZ groups ++ replicate (length row - length groups) 0%Z.
Proof.
  unfold slideRow. simpl. unfold padZeros.
  destruct (slideLoop_groups (filter (fun v : Z => v ≠ 0%Z) row) [] [] 0%Z [])
    as (Hr & _). rewrite Hr. simpl. by rewrite length_map.
Qed.

Lemma slideRow_length (row : list Z) : length (sr_row (slideRow row)) = length row.
Proof.
  rewrite slideRow_row. cbv zeta.
  rewrite length_app, length_map, length_replicate.
  pose proof (groupsOf_length (filter (fun v : Z => v ≠ 0%Z) row)).
  pose proof (length_filter (fun v : Z => v ≠ 0%Z) row). lia.
Qed.

Lemma slideRow_sum (row : list Z) : sumZ (sr_row (slideRow row)) = sumZ row.
Proof.
  rewrite slideRow_row. cbv zeta.
  rewrite sumZ_app, sumZ_replicate_0, <- sumZ_concat, groupsOf_concat.
  rewrite sumZ_filter_nonzero. lia.
Qed.

Lemma slideRow_gain (row : list Z) :
  sr_scoreGain (slideRow row) = sumZ (sr_merged (slideRow row)).
Proof.
  unfold slideRow. simpl.
  destruct (slideLoop_groups (filter (fun v : Z => v ≠ 0%Z) row) [] [] 0%Z [])
    as (_ & Hm & Hs). rewrite Hm, Hs. simpl. lia.
Qed.

(** C5.  The row that [slideRow] returns is cut from the compacted input
    (the non-zero tiles, in order) group by group: every output cell is
    the sum of one group, a group is one tile or two equal tiles, the
    groups are consecutive and cover the input once, and the rest of the
    row is zeros.  So no output cell comes from more than two tiles and a
    merged cell is never merged again.  [2,2,2,2] gives [4,4,0,0] and not
    [8,0,0,0]. *)
Theorem slideRow_merges_once (row : list Z) :
  (∃ groups : list (list Z),
      concat groups = filter (fun v : Z => v ≠ 0%Z) row
      ∧ Forall mergeGroup groups
      ∧ sr_row (slideRow row)
        = map sumZ groups ++ replicate (length row - length groups) 0%Z)
  ∧ sr_row (slideRow [2; 2; 2; 2]%Z) = [4; 4; 0; 0]%Z
  ∧ sr_row (slideRow [2; 2; 2; 2]%Z) ≠ [8; 0; 0; 0]%Z.
Proof.
  split; [|by split].
  exists (groupsOf (filter (fun v : Z => v ≠ 0%Z) row)).
  split; [apply groupsOf_concat|]. split; [apply groupsOf_mergeGroup|].
  apply slideRow_row.
Qed.

(** ** move: the three ways a call ends *)

Lemma rejected_dec (s : Game) : {rejected s} + {¬ rejected s}.
Proof.
  unfold rejected.
  destruct (gameState s), (wonBefore s); (left; tauto) || (right; intros [?|[? ?]]; done).
Qed.

Lemma move_rejected (s : Game) (direction : string) (rnd : Draws) :
  rejected s → move s direction rnd = (None, s).
Proof.
  intros [H|[H1 H2]]; unfold move.
  - by rewrite bool_decide_eq_true_2.
  - rewrite H1, H2. done.
Qed.

Lemma move_accepted (s : Game) (direction : string) (rnd : Draws) :
  ¬ rejected s →
  let acc := slidePhase (size s) (grid s) direction in
  move s direction rnd =
    if a_moved acc
    then (Some (mkMoveResult true
                  (map (unrotateMove (size s)
                          (loopCount (unrotations (rotations direction))))
                       (a_tileMovements acc))
                  (a_allMerged acc)
                  (snd (addRandomTile (size s) (slidGrid (size s) (grid s) direction) rnd))
                  (a_totalScoreGain acc)
                  (gameState (committedState s direction rnd))),
          committedState s direction rnd)
    else (None, set_history (pushHistory s) (fst (pop (history (pushHistory s))))).
Proof.
  intros Hacc. unfold move, committedState.
  assert (bool_decide (gameState s = Lost) = false) as ->.
  { apply bool_decide_eq_false_2. intros H. apply Hacc. by left. }
  assert (bool_decide (gameState s = Won) && negb (wonBefore s) = false) as ->.
  { destruct (gameState s) eqn:E1, (wonBefore s) eqn:E2; try done.
    exfalso. apply Hacc. by right. }
  cbn [size grid pushHistory set_history commit].
  destruct (a_moved (slidePhase (size s) (grid s) direction)); simpl; [|done].
  by destruct (addRandomTile _ _ rnd).
Qed.

Lemma move_committed_inv (s s' : Game) (direction : string) (rnd : Draws) (res : MoveResult) :
  move s direction rnd = (Some res, s') →
  ¬ rejected s
  ∧ a_moved (slidePhase (size s) (grid s) direction) = true
  ∧ s' = committedState s direction rnd
  ∧ mergedTiles res = a_allMerged (slidePhase (size s) (grid s) direction)
  ∧ scoreGain res = a_totalScoreGain (slidePhase (size s) (grid s) direction)
  ∧ r_gameState res = gameState s'.
Proof.
  intros Hmove.
  destruct (rejected_dec s) as [Hrej|Hacc].
  { by rewrite move_rejected in Hmove. }
  rewrite (move_accepted s direction rnd Hacc) in Hmove. cbv zeta in Hmove.
  destruct (a_moved (slidePhase (size s) (grid s) direction)); [|done].
  by injection Hmove as <- <-.
Qed.

Lemma history_pushHistory_below (s : Game) :
  length (history s) < maxHistory →
  history (pushHistory s) = history s ++ [snapshot s].
Proof.
  intros H. unfold pushHistory. simpl.
  rewrite bool_decide_eq_false_2; [done|]. rewrite length_app. simpl. lia.
Qed.

Lemma history_pushHistory_full (s : Game) :
  maxHistory ≤ length (history s) →
  history (pushHistory s) = tail (history s) ++ [snapshot s].
Proof.
  intros H. unfold pushHistory. simpl.
  rewrite bool_decide_eq_true_2 by (rewrite length_app; simpl; lia).
  destruct (history s); [simpl in H; unfold maxHistory in H; lia|done].
Qed.

(** A call whose slide changes nothing, below the capacity of the
    history: the state is as before the call. *)
Lemma move_noop_below_capacity (s : Game) (direction : string) (rnd : Draws) :
  ¬ rejected s →
  a_moved (slidePhase (size s) (grid s) direction) = false →
  length (history s) < maxHistory →
  move s direction rnd = (None, s).
Proof.
  intros Hacc Hmoved Hlen.
  rewrite (move_accepted s direction rnd Hacc). cbv zeta. rewrite Hmoved.
  rewrite history_pushHistory_below, pop_snoc by done. simpl.
  by destruct s.
Qed.

(** The same call at capacity: the push has discarded the oldest
    snapshot, and the [pop] that follows removes the entry just pushed. *)
Lemma move_noop_at_capacity (s : Game) (direction : string) (rnd : Draws) :
  ¬ rejected s →
  a_moved (slidePhase (size s) (grid s) direction) = false →
  maxHistory ≤ length (history s) →
  move s direction rnd = (None, set_history s (tail (history s))).
Proof.
  intros Hacc Hmoved Hlen.
  rewrite (move_accepted s direction rnd Hacc). cbv zeta. rewrite Hmoved.
  rewrite history_pushHistory_full, pop_snoc by done. simpl.
  by destruct s.
Qed.

Lemma move_noop_at_capacity_fields (s : Game) (direction : string) (rnd : Draws) :
  ¬ rejected s →
  a_moved (slidePhase (size s) (grid s) direction) = false →
  maxHistory ≤ length (history s) →
  fst (move s direction rnd) = None
  ∧ grid (snd (move s direction rnd)) = grid s
  ∧ score (snd (move s direction rnd)) = score s
  ∧ gameState (snd (move s direction rnd)) = gameState s
  ∧ wonBefore (snd (move s direction rnd)) = wonBefore s
  ∧ history (snd (move s direction rnd)) = tail (history s).
Proof.
  intros Hacc Hmoved Hlen.
  by rewrite (move_noop_at_capacity s direction rnd Hacc Hmoved Hlen).
Qed.

(** ** When the slide changes no row *)

Lemma someDiffers_false_iff (row original : list Z) :
  length row = length original →
  someDiffers row original = false ↔ row = original.
Proof.
  revert original.
  induction row as [|v row IH]; intros [|o original] Hlen; try done.
  simpl in *. rewrite orb_false_iff, negb_false_iff, Z.eqb_eq, IH by lia.
  split; [by intros [-> ->]|by intros [= -> ->]].
Qed.

(** The loop over the rows, after rows [0 .. m-1]: the rows from [m] on
    are still those of [workGrid], and [moved] is unset exactly when no
    row so far differs from its slide. *)
Lemma slideRows_prefix (n : nat) (workGrid : Grid) (m : nat) :
  let acc := foldl (slideStep n) (mkSlideAcc workGrid false 0%Z [] []) (seq 0 m) in
  (∀ i, m ≤ i → a_workGrid acc !! i = workGrid !! i)
  ∧ (a_moved acc = false
     ↔ ∀ r row, r < m → workGrid !! r = Some row → sr_row (slideRow row) = row).
Proof.
  cbv zeta. induction m as [|m [IHrows IHmoved]].
  - split; [done|]. split; [intros _ r row Hr; lia|done].
  - rewrite seq_S, foldl_app. cbn [foldl Nat.add].
    set (acc := foldl (slideStep n) (mkSlideAcc workGrid false 0%Z [] []) (seq 0 m)) in *.
    unfold slideStep. cbn [a_workGrid a_moved].
    rewrite (IHrows m) by done.
    split.
    + intros i Hi. rewrite list_lookup_insert_ne by lia. apply IHrows. lia.
    + destruct (workGrid !! m) as [rowm|] eqn:Hm.
      * change (default [] (Some rowm)) with rowm.
        pose proof (someDiffers_false_iff (sr_row (slideRow rowm)) rowm
                      (slideRow_length rowm)) as Hdiff.
        destruct (someDiffers (sr_row (slideRow rowm)) rowm).
        -- split; [done|]. intros H. apply Hdiff. by apply (H m); [lia|].
        -- rewrite IHmoved. split.
           ++ intros H r row Hr Hrow.
              destruct (decide (r = m)) as [->|Hne].
              ** rewrite Hm in Hrow. injection Hrow as <-. by apply Hdiff.
              ** apply (H r); [lia|done].
           ++ intros H r row Hr. apply H. lia.
      * change (default [] None) with (@nil Z).
        change (someDiffers (sr_row (slideRow [])) []) with false.
        cbv iota. rewrite IHmoved. split.
        -- intros H r row Hr Hrow.
           destruct (decide (r = m)) as [->|Hne]; [congruence|].
           apply (H r); [lia|done].
        -- intros H r row Hr. apply H. lia.
Qed.

Lemma slidePhase_not_moved (s : Game) (direction : string) :
  a_moved (slidePhase (size s) (grid s) direction) = false
  ↔ slideChangesNoRow s direction.
Proof.
  unfold slidePhase, slideRows, slideChangesNoRow.
  apply (slideRows_prefix (size s) (normalized (grid s) direction) (size s)).
Qed.

(** A call that is rejected, or whose slide changes no row while the
    history is below its capacity, returns no result and leaves the
    engine as it was. *)
Lemma move_without_effect (s : Game) (direction : string) (rnd : Draws) :
  rejected s ∨ (slideChangesNoRow s direction ∧ length (history s) < maxHistory) →
  move s direction rnd = (None, s).
Proof.
  intros [Hrej|[Hnoop Hlen]]; [by apply move_rejected|].
  destruct (rejected_dec s) as [Hrej|Hacc]; [by apply move_rejected|].
  apply move_noop_below_capacity; [done| |done].
  by apply slidePhase_not_moved.
Qed.

(** At capacity the same call loses the oldest snapshot. *)
Lemma move_noop_drops_oldest (s : Game) (direction : string) (rnd : Draws) :
  ¬ rejected s → slideChangesNoRow s direction →
  maxHistory ≤ length (history s) →
  move s direction rnd = (None, set_history s (tail (history s))).
Proof.
  intros Hacc Hnoop Hlen. apply move_noop_at_capacity; [done| |done].
  by apply slidePhase_not_moved.
Qed.

Lemma afterLongPlay_facts :
  gameState afterLongPlay = Playing
  ∧ length (history afterLongPlay) = 20
  ∧ a_moved (slidePhase (size afterLongPlay) (grid afterLongPlay) "left") = false
  ∧ grid afterLongPlay
    = [[2; 4; 8; 2]; [2; 32; 2; 0]; [4; 0; 0; 0]; [0; 0; 0; 0]]%Z.
Proof. vm_compute. done. Qed.

(** C1.  The state reached by the twenty-five moves of [longPlay] is
    Playing on the grid shown, with a full history (20 entries); it is
    not rejected, and sliding it left changes no row.  [move("left")] returns no result and leaves grid,
    score, gameState and wonBefore as they were, but the history is not
    what it was: its oldest entry is gone and 19 entries remain. *)
Theorem move_noop_at_full_history_drops_oldest :
  grid afterLongPlay = [[2; 4; 8; 2]; [2; 32; 2; 0]; [4; 0; 0; 0]; [0; 0; 0; 0]]%Z
  ∧ gameState afterLongPlay = Playing
  ∧ length (history afterLongPlay) = 20
  ∧ ¬ rejected afterLongPlay
  ∧ slideChangesNoRow afterLongPlay "left"
  ∧ fst (move afterLongPlay "left" firstCell2) = None
  ∧ grid (snd (move afterLongPlay "left" firstCell2)) = grid afterLongPlay
  ∧ score (snd (move afterLongPlay "left" firstCell2)) = score afterLongPlay
  ∧ gameState (snd (move afterLongPlay "left" firstCell2)) = gameState afterLongPlay
  ∧ wonBefore (snd (move afterLongPlay "left" firstCell2)) = wonBefore afterLongPlay
  ∧ history (snd (move afterLongPlay "left" firstCell2)) = tail (history afterLongPlay)
  ∧ length (history (snd (move afterLongPlay "left" firstCell2))) = 19
  ∧ history (snd (move afterLongPlay "left" firstCell2)) ≠ history afterLongPlay.
Proof.
  destruct afterLongPlay_facts as (Hstate & Hlen & Hmoved & Hgrid).
  split; [exact Hgrid|]. split; [exact Hstate|].
  assert (Hacc : ¬ rejected afterLongPlay).
  { unfold rejected. rewrite Hstate. by intros [?|[? _]]. }
  assert (Hcap : maxHistory ≤ length (history afterLongPlay)).
  { rewrite Hlen. unfold maxHistory. lia. }
  destruct (move_noop_at_capacity_fields afterLongPlay "left" firstCell2
              Hacc Hmoved Hcap) as (H1 & H2 & H3 & H4 & H5 & H6).
  split; [exact Hlen|]. split; [exact Hacc|].
  split; [by apply slidePhase_not_moved|].
  split; [exact H1|]. split; [exact H2|]. split; [exact H3|].
  split; [exact H4|]. split; [exact H5|]. split; [exact H6|].
  rewrite H6. revert Hlen. generalize (history afterLongPlay).
  clear. intros h Hlen.
  split; [by destruct h; simpl in *; lia|].
  intros Heq. apply (f_equal length) in Heq.
  destruct h; simpl in *; lia.
Qed.

(** ** wonBefore *)

Lemma wonBefore_checkWin (allMerged : list Z) (s : Game) :
  wonBefore (checkWin allMerged s) = wonBefore s.
Proof. unfold checkWin. by destruct (_ && _). Qed.

Lemma wonBefore_checkLose (s : Game) : wonBefore (checkLose s) = wonBefore s.
Proof. unfold checkLose. by destruct (negb _). Qed.

Lemma wonBefore_committedState (s : Game) (direction : string) (rnd : Draws) :
  wonBefore (committedState s direction rnd) = wonBefore s.
Proof.
  unfold committedState. by rewrite wonBefore_checkLose, wonBefore_checkWin.
Qed.

Lemma wonBefore_move (s : Game) (direction : string) (rnd : Draws) :
  wonBefore (snd (move s direction rnd)) = wonBefore s.
Proof.
  destruct (rejected_dec s) as [Hrej|Hacc].
  { by rewrite move_rejected. }
  rewrite (move_accepted s direction rnd Hacc). cbv zeta.
  destruct (a_moved _); [apply wonBefore_committedState|done].
Qed.

Lemma wonBefore_continueGame (s : Game) :
  wonBefore s = true → wonBefore (continueGame s) = true.
Proof. intros H. unfold continueGame. by case_bool_decide. Qed.

(** C2, as claimed, fails: from [nearWin] the move to the left wins,
    [continueGame] sets wonBefore, and [undo] then restores the snapshot
    taken before the winning move, in which wonBefore is false. *)
Lemma wonBefore_reset_by_undo :
  wonBefore (run nearWin [OpMove "left" firstCell2; OpContinue]) = true
  ∧ wonBefore (run nearWin [OpMove "left" firstCell2; OpContinue; OpUndo]) = false.
Proof. vm_compute. done. Qed.

(** C2, amended.  In every sequence of [move] and [continueGame] calls
    (no [init], no [undo]), wonBefore stays true once it is true.  [undo]
    sets wonBefore to the value stored in the snapshot it removes. *)
Theorem wonBefore_monotone_without_undo (s : Game) (ops : list Op) :
  Forall (fun o => isUndo o = false) ops →
  wonBefore s = true →
  wonBefore (run s ops) = true
  ∧ ∀ h prev, history (run s ops) = h ++ [prev] →
      wonBefore (step (run s ops) OpUndo) = h_wonBefore prev.
Proof.
  intros Hops Hwon. split.
  - revert s Hwon. unfold run.
    induction Hops as [|o ops Ho _ IH]; intros s Hwon; [done|].
    simpl. apply IH.
    destruct o as [direction rnd| |]; simpl; [|done|].
    + by rewrite wonBefore_move.
    + by apply wonBefore_continueGame.
  - intros h prev Hh. simpl. by rewrite (undo_snoc _ h prev Hh).
Qed.

Lemma wonBefore_monotone_without_undo_witness :
  wonBefore (run (continueGame (snd (move nearWin "left" firstCell2)))
                 [OpMove "down" firstCell2; OpContinue; OpMove "right" firstCell2])
  = true.
Proof.
  refine (proj1 (wonBefore_monotone_without_undo
                   (continueGame (snd (move nearWin "left" firstCell2)))
                   [OpMove "down" firstCell2; OpContinue; OpMove "right" firstCell2]
                   _ _)).
  - repeat constructor.
  - vm_compute. reflexivity.
Defined.

(** ** The win and lose checks *)

Lemma existsb_seq_false (n : nat) (f : nat → bool) :
  existsb f (seq 0 n) = false ↔ ∀ i, i < n → f i = false.
Proof.
  split.
  - intros H i Hi. destruct (f i) eqn:E; [|done].
    assert (existsb f (seq 0 n) = true); [|congruence].
    apply existsb_exists. exists i. split; [|done]. apply in_seq. lia.
  - intros H. destruct (existsb f (seq 0 n)) eqn:E; [|done].
    apply existsb_exists in E as (i & Hi & E). apply in_seq in Hi.
    rewrite H in E by lia. done.
Qed.

(** [canMove] fails exactly on the boards with no empty cell and no two
    equal neighbours. *)
Lemma canMove_false_iff (n : nat) (g : Grid) :
  canMove n g = false ↔ noEmptyCell n g ∧ noEqualNeighbours n g.
Proof.
  unfold canMove, noEmptyCell, noEqualNeighbours.
  rewrite orb_false_iff, !existsb_seq_false. split.
  - intros [He Hn]. split.
    + intros r c Hr Hc. specialize (He r Hr).
      rewrite existsb_seq_false in He. specialize (He c Hc).
      by apply bool_decide_eq_false_1 in He.
    + intros r c Hr Hc. specialize (Hn r Hr).
      rewrite existsb_seq_false in Hn. specialize (Hn c Hc).
      cbv zeta in Hn. apply orb_false_iff in Hn as [H1 H2].
      split; intros Hlt.
      * rewrite (bool_decide_eq_true_2 _ Hlt) in H1. simpl in H1.
        by apply bool_decide_eq_false_1 in H1.
      * rewrite (bool_decide_eq_true_2 _ Hlt) in H2. simpl in H2.
        by apply bool_decide_eq_false_1 in H2.
  - intros [He Hn]. split.
    + intros r Hr. apply existsb_seq_false. intros c Hc.
      apply bool_decide_eq_false_2. by apply He.
    + intros r Hr. apply existsb_seq_false. intros c Hc. cbv zeta.
      destruct (Hn r c Hr Hc) as [H1 H2].
      apply orb_false_iff. split.
      * case_bool_decide as Hlt; [|done]. simpl.
        apply bool_decide_eq_false_2. by apply H1.
      * case_bool_decide as Hlt; [|done]. simpl.
        apply bool_decide_eq_false_2. by apply H2.
Qed.

Lemma hasWon_true_iff (allMerged : list Z) (g : Grid) :
  hasWon allMerged g = true
  ↔ 2048%Z ∈ allMerged ∨ ∃ r c, cell g r c = Some 2048%Z.
Proof.
  unfold hasWon. rewrite orb_true_iff, bool_decide_eq_true, existsb_exists.
  split; (intros [H|H]; [by left|right]).
  - destruct H as (row & Hin & H). apply bool_decide_eq_true in H.
    apply list_elem_of_In, list_elem_of_lookup in Hin as [r Hr].
    apply list_elem_of_lookup in H as [c Hc].
    exists r, c. unfold cell. by rewrite Hr.
  - destruct H as (r & c & H). unfold cell in H.
    destruct (g !! r) as [row|] eqn:Hr; [|done].
    exists row. split.
    + apply list_elem_of_In, list_elem_of_lookup. by exists r.
    + apply bool_decide_eq_true, list_elem_of_lookup. by exists c.
Qed.

(** Case analysis on every condition of a conditional in the goal. *)
Ltac case_conditions :=
  repeat match goal with
         | |- context [if ?b then _ else _] => destruct b eqn:?; cbn in *
         end.

Lemma committedState_gameState (s : Game) (direction : string) (rnd : Draws) :
  let s' := committedState s direction rnd in
  let allMerged := a_allMerged (slidePhase (size s) (grid s) direction) in
  gameState s' =
    if negb (canMove (size s') (grid s')) then Lost
    else if hasWon allMerged (grid s') && negb (wonBefore s) then Won
    else gameState s.
Proof.
  cbv zeta. unfold committedState, checkLose, checkWin.
  cbn [size grid wonBefore gameState set_grid commit pushHistory set_history
       set_gameState].
  case_conditions; congruence.
Qed.

Lemma move_committed_fst (s : Game) (direction : string) (rnd : Draws) (res : MoveResult) :
  fst (move s direction rnd) = Some res →
  ¬ rejected s
  ∧ a_moved (slidePhase (size s) (grid s) direction) = true
  ∧ snd (move s direction rnd) = committedState s direction rnd
  ∧ mergedTiles res = a_allMerged (slidePhase (size s) (grid s) direction)
  ∧ scoreGain res = a_totalScoreGain (slidePhase (size s) (grid s) direction)
  ∧ r_gameState res = gameState (snd (move s direction rnd)).
Proof.
  destruct (move s direction rnd) as [o s'] eqn:E. simpl. intros ->.
  by apply move_committed_inv in E.
Qed.

(** C3, as claimed, fails: on [beyondWin] (a 4096 tile, no 2048,
    wonBefore false) the move to the left is committed and the resulting
    grid holds a value above 2048, yet gameState stays Playing. *)
Lemma win_check_ignores_4096 :
  wonBefore beyondWin = false
  ∧ (∃ res, fst (move beyondWin "left" firstCell2) = Some res)
  ∧ cell (grid (snd (move beyondWin "left" firstCell2))) 0 0 = Some 4096%Z
  ∧ (2048 ≤ 4096)%Z
  ∧ gameState (snd (move beyondWin "left" firstCell2)) = Playing
  ∧ gameState (snd (move beyondWin "left" firstCell2)) ≠ Won.
Proof.
  split; [done|]. split; [by eexists; vm_compute|].
  split; [by vm_compute|]. split; [lia|].
  assert (H : gameState (snd (move beyondWin "left" firstCell2)) = Playing)
    by (by vm_compute).
  split; [exact H|]. by rewrite H.
Qed.

(** C3, amended.  After a committed move from a state with wonBefore
    false: if a merge produced exactly 2048 or a cell of the resulting
    grid is exactly 2048, the win check sets gameState to Won, and the
    lose check that follows leaves it Won when a move is possible and
    makes it Lost otherwise; if there is no such 2048, whatever larger
    values the grid holds, gameState is not set to Won (it stays Playing,
    or becomes Lost when no move is possible).  The returned gameState is
    that of the engine. *)
Theorem win_check_on_exact_2048 (s : Game) (direction : string) (rnd : Draws)
    (res : MoveResult) :
  fst (move s direction rnd) = Some res →
  wonBefore s = false →
  ((2048%Z ∈ mergedTiles res
    ∨ ∃ r c, cell (grid (snd (move s direction rnd))) r c = Some 2048%Z) →
   gameState (snd (move s direction rnd))
   = if canMove (size (snd (move s direction rnd)))
                (grid (snd (move s direction rnd)))
     then Won else Lost)
  ∧ (¬ (2048%Z ∈ mergedTiles res
        ∨ ∃ r c, cell (grid (snd (move s direction rnd))) r c = Some 2048%Z) →
     gameState (snd (move s direction rnd))
     = if canMove (size (snd (move s direction rnd)))
                  (grid (snd (move s direction rnd)))
       then Playing else Lost)
  ∧ r_gameState res = gameState (snd (move s direction rnd)).
Proof.
  intros Hres Hwb.
  destruct (move_committed_fst s direction rnd res Hres)
    as (Hacc & _ & Hs' & Hmerged & _ & Hgs).
  assert (Hplaying : gameState s = Playing).
  { destruct (gameState s) eqn:E; [done|exfalso..]; apply Hacc.
    - by right.
    - by left. }
  split; [|split; [|exact Hgs]]; intros Hwin;
    rewrite Hs' in *; rewrite Hmerged, <- hasWon_true_iff in Hwin;
    rewrite (committedState_gameState s direction rnd); cbv zeta.
  - rewrite Hwin, Hwb. by destruct (canMove _ _).
  - apply not_true_is_false in Hwin. rewrite Hwin, Hplaying.
    by destruct (canMove _ _).
Qed.

Lemma win_check_on_exact_2048_witness :
  gameState (snd (move nearWin "left" firstCell2)) = Won.
Proof.
  refine (eq_trans
            (proj1 (win_check_on_exact_2048 nearWin "left" firstCell2 _ _ _) _) _).
  - vm_compute. reflexivity.
  - reflexivity.
  - left. vm_compute. apply list_elem_of_here.
  - vm_compute. reflexivity.
Defined.

(** C4.  After a committed move, whenever the grid left by the move (new
    tile included) has no empty cell and no two equal neighbours, the
    engine's gameState and the returned gameState are Lost.  Nothing is
    assumed about the win check: this holds also when the move has just
    made 2048. *)
Theorem lose_check_overrides_win (s : Game) (direction : string) (rnd : Draws)
    (res : MoveResult) :
  fst (move s direction rnd) = Some res →
  noEmptyCell (size (snd (move s direction rnd))) (grid (snd (move s direction rnd))) →
  noEqualNeighbours (size (snd (move s direction rnd))) (grid (snd (move s direction rnd))) →
  gameState (snd (move s direction rnd)) = Lost ∧ r_gameState res = Lost.
Proof.
  intros Hres Hfull Hblocked.
  destruct (move_committed_fst s direction rnd res Hres)
    as (_ & _ & Hs' & _ & _ & Hgs).
  assert (Hcan : canMove (size (snd (move s direction rnd)))
                         (grid (snd (move s direction rnd))) = false).
  { apply canMove_false_iff. by split. }
  rewrite Hgs. rewrite Hs' in *.
  rewrite (committedState_gameState s direction rnd). cbv zeta.
  by rewrite Hcan.
Qed.

(** On [winAndBlocked] the move to the left makes 2048 (the win check
    passes) and leaves a full, blocked board: the state is Lost. *)
Lemma lose_check_overrides_win_witness :
  ∃ res, fst (move winAndBlocked "left" firstCell2) = Some res
         ∧ 2048%Z ∈ mergedTiles res
         ∧ wonBefore winAndBlocked = false
         ∧ gameState (snd (move winAndBlocked "left" firstCell2)) = Lost
         ∧ r_gameState res = Lost.
Proof.
  eexists. split; [vm_compute; reflexivity|].
  split; [apply list_elem_of_here|]. split; [reflexivity|].
  refine (lose_check_overrides_win winAndBlocked "left" firstCell2 _ _ _ _).
  - vm_compute. reflexivity.
  - apply (proj1 (canMove_false_iff _ _)). vm_compute. reflexivity.
  - apply (proj1 (canMove_false_iff _ _)). vm_compute. reflexivity.
Defined.

(** ** Grids of size n *)

Lemma setCell_wf (n : nat) (g : Grid) (r c : nat) (v : Z) :
  wf_grid n g → wf_grid n (setCell g r c v).
Proof.
  intros [Hlen Hrows]. unfold setCell.
  destruct (g !! r) as [row|] eqn:Hrow; [|done].
  split; [by rewrite length_insert|].
  apply Forall_insert; [done|].
  rewrite length_insert. rewrite Forall_lookup in Hrows. by apply (Hrows r).
Qed.

Lemma cell_setCell (n : nat) (g : Grid) (r c : nat) (v : Z) (i j : nat) :
  wf_grid n g → r < n → c < n →
  cell (setCell g r c v) i j
  = if decide (i = r ∧ j = c) then Some v else cell g i j.
Proof.
  intros [Hlen Hrows] Hr Hc. unfold setCell, cell.
  destruct (lookup_lt_is_Some_2 g r) as [row Hrow]; [lia|].
  rewrite Hrow.
  assert (Hrowlen : length row = n).
  { rewrite Forall_lookup in Hrows. by apply (Hrows r). }
  destruct (decide (i = r)) as [->|Hne].
  - rewrite list_lookup_insert_eq by lia. rewrite Hrow.
    destruct (decide (j = c)) as [->|Hne'].
    + rewrite list_lookup_insert_eq by lia. by rewrite decide_True.
    + rewrite list_lookup_insert_ne by done. rewrite decide_False; [done|].
      by intros [_ ?].
  - rewrite list_lookup_insert_ne by done. rewrite decide_False; [done|].
    by intros [? _].
Qed.

Lemma zeroGrid_wf (n : nat) : wf_grid n (zeroGrid n).
Proof.
  unfold zeroGrid. split; [by rewrite length_replicate|].
  apply Forall_replicate. by rewrite length_replicate.
Qed.

Lemma cell_zeroGrid (n i j : nat) :
  i < n → j < n → cell (zeroGrid n) i j = Some 0%Z.
Proof.
  intros Hi Hj. unfold cell, zeroGrid.
  rewrite lookup_replicate_2 by done. by rewrite lookup_replicate_2.
Qed.

(** ** rotateGrid, cell by cell *)

(** The inner loop, after columns [0 .. m-1] of row [r]. *)
Lemma rotate_inner_loop (n : nat) (g rotated : Grid) (r m : nat) :
  wf_grid n rotated → r < n → m ≤ n →
  let rotated' :=
    foldl (fun rotated c => setCell rotated c (n - 1 - r) (getCell g r c))
          rotated (seq 0 m) in
  wf_grid n rotated'
  ∧ ∀ i j, i < n → j < n →
      cell rotated' i j
      = if decide (j = n - 1 - r ∧ i < m) then Some (getCell g r i)
        else cell rotated i j.
Proof.
  intros Hwf Hr. cbv zeta. induction m as [|m IH]; intros Hm.
  - cbn [seq foldl]. split; [done|]. intros i j _ _.
    rewrite decide_False; [done|lia].
  - destruct IH as [IHwf IHcell]; [lia|].
    rewrite seq_S, foldl_app. simpl. split; [by apply setCell_wf|].
    intros i j Hi Hj.
    rewrite (cell_setCell n) by (done || lia).
    rewrite IHcell by done.
    repeat case_decide; try done; try lia.
    destruct_and!; by subst.
Qed.

(** The outer loop, after rows [0 .. k-1]. *)
Lemma rotate_outer_loop (g : Grid) (k : nat) :
  let n := length g in
  k ≤ n →
  let rotated :=
    foldl (fun rotated r =>
             foldl (fun rotated c => setCell rotated c (n - 1 - r) (getCell g r c))
                   rotated (seq 0 n))
          (zeroGrid n) (seq 0 k) in
  wf_grid n rotated
  ∧ ∀ i j, i < n → j < n →
      cell rotated i j
      = if decide (n - 1 - j < k) then Some (getCell g (n - 1 - j) i)
        else Some 0%Z.
Proof.
  cbv zeta. induction k as [|k IH]; intros Hk.
  - cbn [seq foldl]. split; [apply zeroGrid_wf|]. intros i j Hi Hj.
    rewrite decide_False by lia. by apply cell_zeroGrid.
  - destruct IH as [IHwf IHcell]; [lia|].
    rewrite seq_S, foldl_app. simpl.
    destruct (rotate_inner_loop (length g) g _ k (length g) IHwf) as [Hwf Hcell];
      [lia..|].
    split; [done|]. intros i j Hi Hj.
    rewrite Hcell, IHcell by done.
    repeat case_decide; try done; try lia.
    destruct_and!. by replace (length g - 1 - j) with k by lia.
Qed.

Lemma rotateGrid_wf (n : nat) (g : Grid) : length g = n → wf_grid n (rotateGrid g).
Proof.
  intros <-. by apply (rotate_outer_loop g (length g)).
Qed.

Lemma cell_rotateGrid (g : Grid) (i j : nat) :
  i < length g → j < length g →
  cell (rotateGrid g) i j = Some (getCell g (length g - 1 - j) i).
Proof.
  intros Hi Hj.
  destruct (rotate_outer_loop g (length g)) as [_ Hcell]; [done|].
  unfold rotateGrid. rewrite Hcell by done. rewrite decide_True; [done|lia].
Qed.

(** ** Sums over a grid *)

Lemma sumTo_ext (n : nat) (f f' : nat → Z) :
  (∀ i, i < n → f i = f' i) → sumTo n f = sumTo n f'.
Proof.
  induction n as [|n IH]; intros H; simpl; [done|].
  rewrite IH by (intros; apply H; lia). rewrite H by lia. done.
Qed.

Lemma sumTo_add (n : nat) (f f' : nat → Z) :
  sumTo n (fun i => (f i + f' i)%Z) = (sumTo n f + sumTo n f')%Z.
Proof. induction n as [|n IH]; simpl; [done|]. rewrite IH. lia. Qed.

Lemma sumTo_shift (n : nat) (f : nat → Z) :
  sumTo (S n) f = (f 0%nat + sumTo n (fun i => f (S i)))%Z.
Proof.
  induction n as [|n IH]; [simpl; lia|].
  change (sumTo (S (S n)) f) with (sumTo (S n) f + f (S n))%Z.
  rewrite IH. simpl. lia.
Qed.

Lemma sumTo_rev (n : nat) (f : nat → Z) :
  sumTo n (fun i => f (n - 1 - i)) = sumTo n f.
Proof.
  revert f. induction n as [|n IH]; intros f; [done|].
  rewrite (sumTo_shift n f). simpl.
  rewrite <- (IH (fun i => f (S i))).
  replace (n - 0 - n) with 0 by lia.
  rewrite (sumTo_ext n (fun i => f (n - 0 - i)) (fun i => f (S (n - 1 - i)))).
  - lia.
  - intros i Hi. f_equal. lia.
Qed.

Lemma sumTo_swap (n m : nat) (f : nat → nat → Z) :
  sumTo n (fun i => sumTo m (fun j => f i j))
  = sumTo m (fun j => sumTo n (fun i => f i j)).
Proof.
  induction n as [|n IH]; simpl.
  - induction m as [|m IHm]; simpl; [done|]. rewrite <- IHm. done.
  - rewrite IH. by rewrite sumTo_add.
Qed.

Lemma sumZ_lookup (l : list Z) :
  sumZ l = sumTo (length l) (fun j => default 0%Z (l !! j)).
Proof.
  induction l as [|x l IH] using rev_ind; [done|].
  rewrite sumZ_app, length_app, Nat.add_1_r. simpl.
  rewrite list_lookup_middle by done. simpl.
  rewrite IH.
  rewrite (sumTo_ext (length l) (fun j => default 0%Z ((l ++ [x]) !! j))
                     (fun j => default 0%Z (l !! j))); [lia|].
  intros j Hj. by rewrite lookup_app_l.
Qed.

Lemma lookup_map {A B} (f : A → B) (l : list A) (i : nat) :
  map f l !! i = f <$> (l !! i).
Proof.
  revert i. induction l as [|x l IH]; intros [|i]; simpl; done.
Qed.

Lemma gridSum_cells (n : nat) (g : Grid) :
  wf_grid n g →
  gridSum g = sumTo n (fun i => sumTo n (fun j => getCell g i j)).
Proof.
  intros [Hlen Hrows]. unfold gridSum.
  rewrite sumZ_lookup, length_map, Hlen.
  apply sumTo_ext. intros i Hi.
  rewrite lookup_map.
  destruct (lookup_lt_is_Some_2 g i) as [row Hrow]; [lia|].
  rewrite Hrow. simpl.
  rewrite Forall_lookup in Hrows. specialize (Hrows i row Hrow).
  rewrite sumZ_lookup, Hrows.
  apply sumTo_ext. intros j Hj. unfold getCell, cell. by rewrite Hrow.
Qed.

Lemma gridSum_rotateGrid (n : nat) (g : Grid) :
  wf_grid n g → gridSum (rotateGrid g) = gridSum g.
Proof.
  intros Hwf. pose proof Hwf as [Hlen _].
  rewrite (gridSum_cells n (rotateGrid g)) by by apply rotateGrid_wf.
  rewrite (gridSum_cells n g) by done.
  rewrite (sumTo_swap n n (fun i j => getCell g i j)).
  apply sumTo_ext. intros i Hi.
  rewrite <- (sumTo_rev n (fun j => getCell g j i)).
  apply sumTo_ext. intros j Hj.
  unfold getCell at 1. rewrite cell_rotateGrid by lia. simpl. by rewrite Hlen.
Qed.

Lemma iter_rotateGrid (n : nat) (g : Grid) (k : nat) :
  wf_grid n g →
  wf_grid n (Nat.iter k rotateGrid g)
  ∧ gridSum (Nat.iter k rotateGrid g) = gridSum g.
Proof.
  intros Hwf. induction k as [|k [IHwf IHsum]]; [done|].
  simpl. split.
  - apply rotateGrid_wf. by destruct IHwf.
  - by rewrite (gridSum_rotateGrid n).
Qed.

(** ** The loop over the rows *)

Lemma gridSum_insert (g : Grid) (r : nat) (row' : list Z) :
  sumZ row' = sumZ (default [] (g !! r)) →
  gridSum (<[r := row']> g) = gridSum g.
Proof.
  unfold gridSum. revert r.
  induction g as [|row g IH]; intros [|r] H; simpl in *; try done.
  - by rewrite H.
  - by rewrite IH.
Qed.

Lemma slideStep_grid (n : nat) (acc : SlideAcc) (r : nat) :
  gridSum (a_workGrid (slideStep n acc r)) = gridSum (a_workGrid acc)
  ∧ ∀ m, wf_grid m (a_workGrid acc) → wf_grid m (a_workGrid (slideStep n acc r)).
Proof.
  unfold slideStep. cbn [a_workGrid]. split.
  - apply gridSum_insert, slideRow_sum.
  - intros m [Hlen Hrows]. split; [by rewrite length_insert|].
    destruct (a_workGrid acc !! r) as [row|] eqn:Hrow.
    + apply Forall_insert; [done|].
      change (default [] (Some row)) with row. rewrite slideRow_length.
      rewrite Forall_lookup in Hrows. by apply (Hrows r).
    + rewrite list_insert_ge; [done|]. by apply lookup_ge_None.
Qed.

Lemma slideStep_gain (n : nat) (acc : SlideAcc) (r : nat) :
  a_totalScoreGain acc = sumZ (a_allMerged acc) →
  a_totalScoreGain (slideStep n acc r) = sumZ (a_allMerged (slideStep n acc r)).
Proof.
  intros H. unfold slideStep. cbn [a_totalScoreGain a_allMerged].
  rewrite sumZ_app, H, slideRow_gain. done.
Qed.

Lemma foldl_slideStep_inv (n : nat) (rs : list nat) (acc : SlideAcc) :
  gridSum (a_workGrid (foldl (slideStep n) acc rs)) = gridSum (a_workGrid acc)
  ∧ (a_totalScoreGain acc = sumZ (a_allMerged acc) →
     a_totalScoreGain (foldl (slideStep n) acc rs)
     = sumZ (a_allMerged (foldl (slideStep n) acc rs)))
  ∧ ∀ m, wf_grid m (a_workGrid acc) →
         wf_grid m (a_workGrid (foldl (slideStep n) acc rs)).
Proof.
  revert acc. induction rs as [|r rs IH]; intros acc; [done|].
  cbn [foldl]. destruct (IH (slideStep n acc r)) as (Hsum & Hgain & Hwf).
  destruct (slideStep_grid n acc r) as [Hsum1 Hwf1].
  split; [by rewrite Hsum|]. split.
  - intros H. by apply Hgain, slideStep_gain.
  - intros m Hm. by apply Hwf, Hwf1.
Qed.

Lemma slideRows_inv (n : nat) (workGrid : Grid) :
  gridSum (a_workGrid (slideRows n workGrid)) = gridSum workGrid
  ∧ a_totalScoreGain (slideRows n workGrid) = sumZ (a_allMerged (slideRows n workGrid))
  ∧ ∀ m, wf_grid m workGrid → wf_grid m (a_workGrid (slideRows n workGrid)).
Proof.
  unfold slideRows.
  destruct (foldl_slideStep_inv n (seq 0 n) (mkSlideAcc workGrid false 0%Z [] []))
    as (Hsum & Hgain & Hwf).
  split; [exact Hsum|]. split; [by apply Hgain|]. exact Hwf.
Qed.


(** ** Merge conservation *)

















(** ** The history bound *)

Lemma history_checkWin (allMerged : list Z) (s : Game) :
  history (checkWin allMerged s) = history s.
Proof. unfold checkWin. by destruct (_ && _). Qed.

Lemma history_checkLose (s : Game) : history (checkLose s) = history s.
Proof. unfold checkLose. by destruct (negb _). Qed.

Lemma history_committedState (s : Game) (direction : string) (rnd : Draws) :
  history (committedState s direction rnd) = history (pushHistory s).
Proof.
  unfold committedState. by rewrite history_checkLose, history_checkWin.
Qed.

Lemma history_pushHistory (s : Game) :
  length (history s) ≤ maxHistory →
  history (pushHistory s) = lastN maxHistory (history s ++ [snapshot s]).
Proof.
  intros Hle. unfold lastN. rewrite length_app. cbn [length].
  destruct (decide (length (history s) = maxHistory)) as [Heq|Hne].
  - rewrite history_pushHistory_full by lia.
    replace (length (history s) + 1 - maxHistory) with 1 by lia.
    destruct (history s); [by unfold maxHistory in Heq|done].
  - rewrite history_pushHistory_below by lia.
    by replace (length (history s) + 1 - maxHistory) with 0 by lia.
Qed.

Lemma length_lastN {A} (n : nat) (l : list A) : length (lastN n l) = min n (length l).
Proof. unfold lastN. rewrite length_drop. lia. Qed.

Lemma lastN_lastN_app {A} (n : nat) (l k : list A) :
  lastN n (lastN n l ++ k) = lastN n (l ++ k).
Proof.
  unfold lastN. rewrite !length_app, length_drop.
  rewrite <- (drop_app_le l k (length l - n)) by lia.
  rewrite drop_drop. f_equal. lia.
Qed.

Lemma lastN_app_long {A} (n : nat) (l k : list A) :
  n ≤ length k → lastN n (l ++ k) = lastN n k.
Proof.
  intros Hn. unfold lastN. rewrite length_app.
  replace (length l + length k - n) with (length l + (length k - n)) by lia.
  by rewrite drop_app_add.
Qed.

Lemma lastN_map {A B} (f : A → B) (n : nat) (l : list A) :
  lastN n (map f l) = map f (lastN n l).
Proof.
  unfold lastN. rewrite length_map. generalize (length l - n) as k.
  induction l as [|x l IH]; intros [|k]; simpl; try done.
Qed.

Lemma length_history_pushHistory (s : Game) :
  length (history s) ≤ maxHistory → length (history (pushHistory s)) ≤ maxHistory.
Proof.
  intros Hle. rewrite history_pushHistory by done. rewrite length_lastN. lia.
Qed.

Lemma length_history_move (s : Game) (direction : string) (rnd : Draws) :
  length (history s) ≤ maxHistory →
  length (history (snd (move s direction rnd))) ≤ maxHistory.
Proof.
  intros Hle.
  destruct (rejected_dec s) as [Hrej|Hacc].
  { by rewrite move_rejected. }
  rewrite (move_accepted s direction rnd Hacc). cbv zeta.
  destruct (a_moved _); cbn [snd].
  - rewrite history_committedState. by apply length_history_pushHistory.
  - cbn [history set_history].
    pose proof (length_history_pushHistory s Hle) as Hpush.
    destruct (history (pushHistory s)) as [|x h] using rev_ind; [simpl; lia|].
    rewrite pop_snoc. rewrite length_app in Hpush. simpl in *. lia.
Qed.

Lemma length_history_undo (s : Game) :
  length (history (snd (undo s))) ≤ length (history s).
Proof.
  destruct (snoc_cases (history s)) as [Hh|(h & prev & Hh)].
  - by rewrite undo_empty.
  - rewrite (undo_snoc s h prev Hh). simpl. rewrite Hh, length_app. lia.
Qed.

Lemma history_continueGame (s : Game) : history (continueGame s) = history s.
Proof. unfold continueGame. by case_bool_decide. Qed.

(** The history after a run of committed moves: the last [maxHistory]
    entries of the old history followed by the snapshots of the states
    the moves started from. *)
Lemma playMoves_history (ms : list (string * Draws)) :
  ∀ (s s' : Game) (pres : list Game),
    playMoves s ms = Some (pres, s') →
    length (history s) ≤ maxHistory →
    length pres = length ms
    ∧ history s' = lastN maxHistory (history s ++ map snapshot pres).
Proof.
  induction ms as [|[direction rnd] ms IH]; intros s s' pres Hplay Hle.
  - injection Hplay as <- <-. split; [done|].
    rewrite app_nil_r. unfold lastN.
    by replace (length (history s) - maxHistory) with 0 by lia.
  - simpl in Hplay.
    destruct (move s direction rnd) as [[res|] s1] eqn:Hmove; [|done].
    destruct (playMoves s1 ms) as [[pres1 s2]|] eqn:Hrest; [|done].
    injection Hplay as <- <-.
    destruct (move_committed_inv s s1 direction rnd res Hmove)
      as (_ & _ & Hs1 & _).
    assert (Hh1 : history s1 = lastN maxHistory (history s ++ [snapshot s])).
    { rewrite Hs1, history_committedState. by apply history_pushHistory. }
    destruct (IH s1 s2 pres1 Hrest) as [Hlen Hh2].
    { rewrite Hh1, length_lastN. lia. }
    split; [simpl; lia|].
    rewrite Hh2, Hh1, lastN_lastN_app. simpl.
    by rewrite <- app_assoc.
Qed.

(** C8, as claimed, fails: [deserialize] installs the history it is
    given, here 21 entries, and the moves that follow keep 21 entries. *)
Lemma deserialize_installs_long_history :
  fst (deserialize (newGame 4) (Some oversizedSave)) = true
  ∧ length (history (snd (deserialize (newGame 4) (Some oversizedSave)))) = 21
  ∧ length (history (snd (move (snd (deserialize (newGame 4) (Some oversizedSave)))
                               "left" firstCell2))) = 21
  ∧ ¬ (21 ≤ 20).
Proof. split; [done|]. split; [done|]. split; [by vm_compute|lia]. Qed.

(** C8, amended.  From a state whose history has at most 20 entries,
    the history has at most 20 entries after [move], [undo],
    [continueGame] and [init], and after [deserialize] when the supplied
    history has at most 20 entries ([deserialize] installs the supplied
    history as it is).  A push at capacity drops the oldest entry and
    appends the new snapshot.  After 25 committed moves in a row the
    history is exactly the snapshots of the states before the last 20 of
    those moves, oldest first. *)
Theorem history_bound_and_eviction (s : Game) :
  length (history s) ≤ 20 →
  (∀ o, length (history (step s o)) ≤ 20)
  ∧ (∀ rnd1 rnd2, length (history (init s rnd1 rnd2)) ≤ 20)
  ∧ (∀ data, length (default [] (data ≫= d_history)) ≤ 20 →
             length (history (snd (deserialize s data))) ≤ 20)
  ∧ (length (history s) = 20 →
     history (pushHistory s) = tail (history s) ++ [snapshot s])
  ∧ (∀ ms pres s', length ms = 25 → playMoves s ms = Some (pres, s') →
       length (history s') = 20
       ∧ history s' = map snapshot (lastN 20 pres)).
Proof.
  intros Hle.
  assert (Hle' : length (history s) ≤ maxHistory) by exact Hle.
  split; [|split; [|split; [|split]]].
  - intros [direction rnd| |]; simpl.
    + exact (length_history_move s direction rnd Hle').
    + pose proof (length_history_undo s). lia.
    + by rewrite history_continueGame.
  - intros rnd1 rnd2. simpl. lia.
  - intros [d|]; simpl; [|done].
    destruct (d_grid d); simpl; done.
  - intros Heq. apply history_pushHistory_full. unfold maxHistory. lia.
  - intros ms pres s' Hms Hplay.
    destruct (playMoves_history ms s s' pres Hplay Hle') as [Hlen Hh].
    rewrite Hh. unfold maxHistory.
    rewrite lastN_app_long by (rewrite length_map; lia).
    rewrite lastN_map. split; [|done].
    rewrite length_map, length_lastN. lia.
Qed.

Lemma history_bound_and_eviction_witness :
  ∃ pres s', playMoves startGame longPlay = Some (pres, s')
             ∧ length (history s') = 20
             ∧ history s' = map snapshot (lastN 20 pres).
Proof.
  eexists _, _. split; [vm_compute; reflexivity|].
  refine (proj2 (proj2 (proj2 (proj2
            (history_bound_and_eviction startGame _)))) longPlay _ _ _ _).
  - vm_compute. lia.
  - reflexivity.
  - vm_compute. reflexivity.
Defined.

(** * Further properties *)

(** ** Rotations *)

Lemma wf_grid_getCell (n : nat) (g : Grid) (i j : nat) :
  wf_grid n g → i < n → j < n → cell g i j = Some (getCell g i j).
Proof.
  intros [Hlen Hrows] Hi Hj. unfold getCell, cell.
  destruct (lookup_lt_is_Some_2 g i) as [row Hrow]; [lia|].
  rewrite Hrow.
  rewrite Forall_lookup in Hrows. specialize (Hrows i row Hrow).
  destruct (lookup_lt_is_Some_2 row j) as [v Hv]; [lia|].
  by rewrite Hv.
Qed.

(** Two grids of the same size with the same cells are equal. *)
Lemma grid_ext (n : nat) (g g' : Grid) :
  wf_grid n g → wf_grid n g' →
  (∀ i j, i < n → j < n → cell g i j = cell g' i j) → g = g'.
Proof.
  intros [Hlen Hrows] [Hlen' Hrows'] Hcells.
  rewrite Forall_lookup in Hrows. rewrite Forall_lookup in Hrows'.
  apply list_eq. intros i.
  destruct (decide (i < n)) as [Hi|Hi].
  - destruct (lookup_lt_is_Some_2 g i) as [row Hrow]; [lia|].
    destruct (lookup_lt_is_Some_2 g' i) as [row' Hrow']; [lia|].
    rewrite Hrow, Hrow'. f_equal. apply list_eq. intros j.
    destruct (decide (j < n)) as [Hj|Hj].
    + specialize (Hcells i j Hi Hj). unfold cell in Hcells.
      by rewrite Hrow, Hrow' in Hcells.
    + rewrite !lookup_ge_None_2; [done|..].
      * rewrite (Hrows' i row' Hrow'). lia.
      * rewrite (Hrows i row Hrow). lia.
  - by rewrite !lookup_ge_None_2 by lia.
Qed.

Lemma getCell_rotateGrid (n : nat) (g : Grid) (i j : nat) :
  wf_grid n g → i < n → j < n →
  getCell (rotateGrid g) i j = getCell g (n - 1 - j) i.
Proof.
  intros [Hlen _] Hi Hj. unfold getCell at 1.
  rewrite cell_rotateGrid by lia. simpl. by rewrite Hlen.
Qed.

(** The inner loop of [rotateGridCCW], after columns [0 .. m-1]. *)
Lemma rotateCCW_inner_loop (n : nat) (g rotated : Grid) (r m : nat) :
  wf_grid n rotated → r < n → m ≤ n →
  let rotated' :=
    foldl (fun rotated c => setCell rotated (n - 1 - c) r (getCell g r c))
          rotated (seq 0 m) in
  wf_grid n rotated'
  ∧ ∀ i j, i < n → j < n →
      cell rotated' i j
      = if decide (j = r ∧ n - 1 - i < m) then Some (getCell g r (n - 1 - i))
        else cell rotated i j.
Proof.
  intros Hwf Hr. cbv zeta. induction m as [|m IH]; intros Hm.
  - cbn [seq foldl]. split; [done|]. intros i j _ _.
    rewrite decide_False; [done|lia].
  - destruct IH as [IHwf IHcell]; [lia|].
    rewrite seq_S, foldl_app. simpl. split; [by apply setCell_wf|].
    intros i j Hi Hj.
    rewrite (cell_setCell n) by (done || lia).
    rewrite IHcell by done.
    repeat case_decide; try done; try lia.
    destruct_and!. subst. do 2 f_equal. lia.
Qed.

Lemma rotateCCW_outer_loop (g : Grid) (k : nat) :
  let n := length g in
  k ≤ n →
  let rotated :=
    foldl (fun rotated r =>
             foldl (fun rotated c => setCell rotated (n - 1 - c) r (getCell g r c))
                   rotated (seq 0 n))
          (zeroGrid n) (seq 0 k) in
  wf_grid n rotated
  ∧ ∀ i j, i < n → j < n →
      cell rotated i j
      = if decide (j < k) then Some (getCell g j (n - 1 - i)) else Some 0%Z.
Proof.
  cbv zeta. induction k as [|k IH]; intros Hk.
  - cbn [seq foldl]. split; [apply zeroGrid_wf|]. intros i j Hi Hj.
    rewrite decide_False by lia. by apply cell_zeroGrid.
  - destruct IH as [IHwf IHcell]; [lia|].
    rewrite seq_S, foldl_app. simpl.
    destruct (rotateCCW_inner_loop (length g) g _ k (length g) IHwf) as [Hwf Hcell];
      [lia..|].
    split; [done|]. intros i j Hi Hj.
    rewrite Hcell, IHcell by done.
    repeat case_decide; try done; try lia.
    destruct_and!. by subst.
Qed.

Lemma rotateGridCCW_wf (n : nat) (g : Grid) : length g = n → wf_grid n (rotateGridCCW g).
Proof. intros <-. by apply (rotateCCW_outer_loop g (length g)). Qed.

Lemma getCell_rotateGridCCW (n : nat) (g : Grid) (i j : nat) :
  wf_grid n g → i < n → j < n →
  getCell (rotateGridCCW g) i j = getCell g j (n - 1 - i).
Proof.
  intros [Hlen _] Hi Hj.
  destruct (rotateCCW_outer_loop g (length g)) as [_ Hcell]; [done|].
  unfold getCell at 1, rotateGridCCW. rewrite Hcell by lia.
  rewrite decide_True by lia. simpl. by rewrite Hlen.
Qed.

Lemma grid_ext_getCell (n : nat) (g g' : Grid) :
  wf_grid n g → wf_grid n g' →
  (∀ i j, i < n → j < n → getCell g i j = getCell g' i j) → g = g'.
Proof.
  intros Hwf Hwf' H. apply (grid_ext n); [done..|].
  intros i j Hi Hj.
  by rewrite (wf_grid_getCell n g), (wf_grid_getCell n g'), H.
Qed.

Lemma iter4_rotateGrid (n : nat) (g : Grid) :
  wf_grid n g → Nat.iter 4 rotateGrid g = g.
Proof.
  intros Hwf. pose proof Hwf as [Hlen _].
  pose proof (rotateGrid_wf n g Hlen) as Hwf1. pose proof Hwf1 as [Hlen1 _].
  pose proof (rotateGrid_wf n _ Hlen1) as Hwf2. pose proof Hwf2 as [Hlen2 _].
  pose proof (rotateGrid_wf n _ Hlen2) as Hwf3. pose proof Hwf3 as [Hlen3 _].
  pose proof (rotateGrid_wf n _ Hlen3) as Hwf4.
  change (Nat.iter 4 rotateGrid g)
    with (rotateGrid (rotateGrid (rotateGrid (rotateGrid g)))).
  apply (grid_ext_getCell n); [done..|]. intros i j Hi Hj.
  rewrite !(getCell_rotateGrid n) by (done || lia).
  f_equal; lia.
Qed.

Lemma rotateGridCCW_rotateGrid (n : nat) (g : Grid) :
  wf_grid n g → rotateGridCCW (rotateGrid g) = g.
Proof.
  intros Hwf. pose proof Hwf as [Hlen _].
  pose proof (rotateGrid_wf n g Hlen) as Hcw. pose proof Hcw as [Hlencw _].
  apply (grid_ext_getCell n); [by apply rotateGridCCW_wf|done|].
  intros i j Hi Hj.
  rewrite (getCell_rotateGridCCW n), (getCell_rotateGrid n) by (done || lia).
  f_equal. lia.
Qed.

Lemma iter_rotateGrid_inj (n : nat) (g g' : Grid) (k : nat) :
  wf_grid n g → wf_grid n g' →
  Nat.iter k rotateGrid g = Nat.iter k rotateGrid g' → g = g'.
Proof.
  intros Hwf Hwf'. induction k as [|k IH]; [done|].
  cbn [Nat.iter nat_rect]. intros Heq. apply IH.
  destruct (iter_rotateGrid n g k Hwf) as [Hk _].
  destruct (iter_rotateGrid n g' k Hwf') as [Hk' _].
  rewrite <- (rotateGridCCW_rotateGrid n _ Hk).
  rewrite <- (rotateGridCCW_rotateGrid n _ Hk'). by f_equal.
Qed.

(** X1.  On a board of [n] rows of [n] cells, [rotateGridCCW] undoes
    [rotateGrid] and [rotateGrid] undoes [rotateGridCCW]. *)
Theorem rotateGridCCW_inverts_rotateGrid (n : nat) (g : Grid) :
  wf_grid n g →
  rotateGridCCW (rotateGrid g) = g ∧ rotateGrid (rotateGridCCW g) = g.
Proof.
  intros Hwf. pose proof Hwf as [Hlen _].
  pose proof (rotateGrid_wf n g Hlen) as Hcw. pose proof Hcw as [Hlencw _].
  pose proof (rotateGridCCW_wf n g Hlen) as Hccw. pose proof Hccw as [Hlenccw _].
  split; apply (grid_ext_getCell n); try done.
  - by apply rotateGridCCW_wf.
  - intros i j Hi Hj.
    rewrite (getCell_rotateGridCCW n), (getCell_rotateGrid n) by (done || lia).
    f_equal. lia.
  - by apply rotateGrid_wf.
  - intros i j Hi Hj.
    rewrite (getCell_rotateGrid n), (getCell_rotateGridCCW n) by (done || lia).
    f_equal. lia.
Qed.

Lemma rotateGridCCW_inverts_rotateGrid_witness :
  rotateGridCCW (rotateGrid (grid winAndBlocked)) = grid winAndBlocked.
Proof.
  refine (proj1 (rotateGridCCW_inverts_rotateGrid 4 (grid winAndBlocked) _)).
  split; [reflexivity|]. repeat constructor.
Defined.

Lemma rotation_counts (direction : string) :
  loopCount (unrotations (rotations direction)) + loopCount (rotations direction) = 0
  ∨ loopCount (unrotations (rotations direction)) + loopCount (rotations direction) = 4.
Proof. unfold rotations. repeat case_bool_decide; simpl; lia. Qed.

Lemma normalized_unrotated (n : nat) (g : Grid) (direction : string) :
  wf_grid n g →
  Nat.iter (loopCount (unrotations (rotations direction))) rotateGrid
           (normalized g direction) = g.
Proof.
  intros Hwf. unfold normalized. rewrite cloneGrid_id, <- Nat.iter_add.
  destruct (rotation_counts direction) as [-> | ->]; [done|].
  exact (iter4_rotateGrid n g Hwf).
Qed.

(** X2.  Four clockwise rotations of a board of [n] rows of [n] cells
    give the board back; and for every direction, the forward rotations
    of [move] followed by its inverse rotations, with no slide between
    them, give the board back. *)
Theorem rotation_round_trip (n : nat) (g : Grid) (direction : string) :
  wf_grid n g →
  rotateGrid (rotateGrid (rotateGrid (rotateGrid g))) = g
  ∧ Nat.iter (loopCount (unrotations (rotations direction))) rotateGrid
             (normalized g direction) = g.
Proof.
  intros Hwf. split; [exact (iter4_rotateGrid n g Hwf)|].
  by apply (normalized_unrotated n).
Qed.

Lemma rotation_round_trip_witness :
  Nat.iter (loopCount (unrotations (rotations "up"))) rotateGrid
           (normalized (grid winAndBlocked) "up") = grid winAndBlocked.
Proof.
  refine (proj2 (rotation_round_trip 4 (grid winAndBlocked) "up" _)).
  split; [reflexivity|]. repeat constructor.
Defined.

Lemma unrotateCoord_S (n r c k : nat) :
  unrotateCoord n r c (S k)
  = (snd (unrotateCoord n r c k), n - 1 - fst (unrotateCoord n r c k)).
Proof.
  unfold unrotateCoord. rewrite Nat.iter_succ.
  by destruct (Nat.iter k _ _).
Qed.

Lemma unrotateCoord_cell (n : nat) (g : Grid) (r c k : nat) :
  wf_grid n g → r < n → c < n →
  fst (unrotateCoord n r c k) < n ∧ snd (unrotateCoord n r c k) < n
  ∧ cell (Nat.iter k rotateGrid g)
         (fst (unrotateCoord n r c k)) (snd (unrotateCoord n r c k))
    = cell g r c.
Proof.
  intros Hwf Hr Hc.
  induction k as [|k (IH1 & IH2 & IH3)]; [done|].
  rewrite unrotateCoord_S. cbn [fst snd].
  destruct (iter_rotateGrid n g k Hwf) as [Hwfk _].
  pose proof Hwfk as [Hlenk _].
  split; [done|]. split; [lia|].
  change (Nat.iter (S k) rotateGrid g) with (rotateGrid (Nat.iter k rotateGrid g)).
  rewrite cell_rotateGrid by lia. rewrite <- IH3.
  rewrite (wf_grid_getCell n _ _ _ Hwfk IH1 IH2). do 2 f_equal. lia.
Qed.

Lemma unrotateCoord_4 (n r c : nat) :
  r < n → c < n → unrotateCoord n r c 4 = (r, c).
Proof. intros Hr Hc. unfold unrotateCoord. simpl. do 2 f_equal; lia. Qed.

(** X3.  [unrotateCoord] follows [rotateGrid]: on a board of [n] rows of
    [n] cells, the coordinates it returns for a cell [(r, c)] after
    [times] quarter turns are on the board and name, in the grid rotated
    [times] times, the cell that [(r, c)] names in the grid itself.  After
    four turns the coordinates are [(r, c)] again. *)
Theorem unrotateCoord_follows_rotateGrid (n : nat) (g : Grid) (r c times : nat) :
  wf_grid n g → r < n → c < n →
  fst (unrotateCoord n r c times) < n
  ∧ snd (unrotateCoord n r c times) < n
  ∧ cell (Nat.iter times rotateGrid g)
         (fst (unrotateCoord n r c times)) (snd (unrotateCoord n r c times))
    = cell g r c
  ∧ unrotateCoord n r c 4 = (r, c).
Proof.
  intros Hwf Hr Hc.
  destruct (unrotateCoord_cell n g r c times Hwf Hr Hc) as (H1 & H2 & H3).
  repeat split; [done..|]. by apply unrotateCoord_4.
Qed.

Lemma unrotateCoord_follows_rotateGrid_witness :
  cell (Nat.iter 3 rotateGrid (grid winAndBlocked))
       (fst (unrotateCoord 4 0 1 3)) (snd (unrotateCoord 4 0 1 3))
  = cell (grid winAndBlocked) 0 1.
Proof.
  refine (proj1 (proj2 (proj2
    (unrotateCoord_follows_rotateGrid 4 (grid winAndBlocked) 0 1 3 _ _ _)))).
  - split; [reflexivity|]. repeat constructor.
  - lia.
  - lia.
Defined.

(** ** The shape of a slid row *)

Lemma Forall_nonzero_filter (row : list Z) :
  Forall (fun v : Z => v ≠ 0%Z) (filter (fun v : Z => v ≠ 0%Z) row).
Proof.
  apply Forall_forall. intros v Hv. by apply list_elem_of_filter in Hv as [? _].
Qed.

Lemma filter_nonzero_tiles_zeros (tiles : list Z) (k : nat) :
  Forall (fun v : Z => v ≠ 0%Z) tiles →
  filter (fun v : Z => v ≠ 0%Z) (tiles ++ replicate k 0%Z) = tiles.
Proof.
  intros Hnz. rewrite filter_app.
  assert (filter (fun v : Z => v ≠ 0%Z) (replicate k 0%Z) = []) as ->.
  { induction k as [|k IH]; [done|]. cbn [replicate].
    rewrite filter_cons_False; [done|]. intros H. by apply H. }
  rewrite app_nil_r.
  induction Hnz as [|v tiles Hv _ IH]; [done|].
  by rewrite filter_cons_True, IH.
Qed.

Lemma groupsOf_nonzero (l : list Z) :
  Forall (fun v : Z => v ≠ 0%Z) l →
  Forall (fun v : Z => v ≠ 0%Z) (map sumZ (groupsOf l)).
Proof.
  induction l as [|a|a b l IH1 IH2] using scan_ind; intros Hnz.
  - constructor.
  - simpl. inversion_clear Hnz. repeat constructor. lia.
  - rewrite groupsOf_step. inversion_clear Hnz as [|? ? Ha Hnz'].
    destruct (Z.eqb_spec a b) as [->|Hne]; cbn [map]; constructor.
    + simpl. lia.
    + apply IH1. by inversion_clear Hnz'.
    + simpl. lia.
    + by apply IH2.
Qed.

Lemma groupsOf_noAdjacentEqual (l : list Z) :
  noAdjacentEqual l → map sumZ (groupsOf l) = l ∧ filter (fun grp => isPair grp = true) (groupsOf l) = [].
Proof.
  induction l as [|a|a b l IH1 IH2] using scan_ind; intros Hl.
  - done.
  - simpl. split; [f_equal; lia|done].
  - rewrite groupsOf_step. destruct Hl as [Hne Hl].
    destruct (Z.eqb_spec a b) as [->|_]; [done|].
    destruct (IH2 Hl) as [IHa IHb]. cbn [map]. rewrite IHa.
    rewrite filter_cons_False by done. split; [|done].
    f_equal. simpl. lia.
Qed.

Lemma groupsOf_full_length (l : list Z) :
  length (groupsOf l) = length l → noAdjacentEqual l.
Proof.
  induction l as [|a|a b l IH1 IH2] using scan_ind; [done..|].
  rewrite groupsOf_step.
  destruct (Z.eqb_spec a b) as [->|Hne]; cbn [length]; intros Hlen.
  - pose proof (groupsOf_length l). lia.
  - split; [done|]. apply IH2. cbn [length]. lia.
Qed.

Lemma groupsOf_count (l : list Z) :
  length (groupsOf l) + length (filter (fun grp => isPair grp = true) (groupsOf l))
  = length l.
Proof.
  induction l as [|a|a b l IH1 IH2] using scan_ind; [done..|].
  rewrite groupsOf_step.
  destruct (Z.eqb_spec a b) as [->|Hne].
  - rewrite filter_cons_True by done. cbn [length]. lia.
  - rewrite filter_cons_False by done. cbn [length] in *. lia.
Qed.

Lemma slideRow_merged (row : list Z) :
  sr_merged (slideRow row)
  = map sumZ (filter (fun grp => isPair grp = true)
                     (groupsOf (filter (fun v : Z => v ≠ 0%Z) row))).
Proof.
  unfold slideRow. cbn [sr_merged].
  by destruct (slideLoop_groups (filter (fun v : Z => v ≠ 0%Z) row) [] [] 0%Z [])
    as (_ & -> & _).
Qed.

(** X4.  The row returned by [slideRow] has the length of its input and
    is compacted: its non-zero tiles come first and zeros fill the rest.
    Every merge removes exactly one tile: the non-zero tiles of the
    output together with the entries of [merged] are as many as the
    non-zero tiles of the input. *)
Theorem slideRow_compacts (row : list Z) :
  length (sr_row (slideRow row)) = length row
  ∧ compacted (sr_row (slideRow row))
  ∧ length (filter (fun v : Z => v ≠ 0%Z) (sr_row (slideRow row)))
    + length (sr_merged (slideRow row))
    = length (filter (fun v : Z => v ≠ 0%Z) row).
Proof.
  split; [apply slideRow_length|].
  pose proof (groupsOf_nonzero _ (Forall_nonzero_filter row)) as Hnz.
  rewrite slideRow_merged, slideRow_row. cbv zeta. split.
  - by eexists _, _.
  - rewrite filter_nonzero_tiles_zeros by done.
    rewrite !length_map. apply groupsOf_count.
Qed.

Lemma slideRow_unchanged_inv (row : list Z) :
  sr_row (slideRow row) = row →
  noAdjacentEqual (filter (fun v : Z => v ≠ 0%Z) row)
  ∧ row = filter (fun v : Z => v ≠ 0%Z) row
          ++ replicate (length row - length (filter (fun v : Z => v ≠ 0%Z) row)) 0%Z.
Proof.
  intros Heq. rewrite slideRow_row in Heq. cbv zeta in Heq.
  set (F := filter (fun v : Z => v ≠ 0%Z) row) in *.
  pose proof (groupsOf_nonzero F (Forall_nonzero_filter row)) as Hnz.
  assert (HF : F = map sumZ (groupsOf F)).
  { unfold F at 1. rewrite <- Heq. by apply filter_nonzero_tiles_zeros. }
  assert (Hadj : noAdjacentEqual F).
  { apply groupsOf_full_length. rewrite HF at 2. by rewrite length_map. }
  split; [done|].
  rewrite <- Heq at 1. rewrite <- HF.
  do 2 f_equal. rewrite HF at 2. by rewrite length_map.
Qed.

Lemma slideRow_unchanged (tiles : list Z) (k : nat) :
  Forall (fun v : Z => v ≠ 0%Z) tiles → noAdjacentEqual tiles →
  sr_row (slideRow (tiles ++ replicate k 0%Z)) = tiles ++ replicate k 0%Z.
Proof.
  intros Hnz Hadj. rewrite slideRow_row. cbv zeta.
  rewrite filter_nonzero_tiles_zeros by done.
  destruct (groupsOf_noAdjacentEqual tiles Hadj) as [-> _].
  f_equal. rewrite length_app, length_replicate.
  rewrite <- (length_map sumZ (groupsOf tiles)).
  destruct (groupsOf_noAdjacentEqual tiles Hadj) as [-> _].
  f_equal. lia.
Qed.

(** X5.  [slideRow] leaves a row as it is exactly when the row is
    compacted and no two of its tiles next to each other are equal; it
    then reports no merge and no score.  (Sliding twice is not sliding
    once: [2,2,4,0] gives [4,4,0,0], which slides again to [8,0,0,0].) *)
Theorem slideRow_fixed_rows (row : list Z) :
  (sr_row (slideRow row) = row
   ↔ ∃ tiles k, row = tiles ++ replicate k 0%Z
                ∧ Forall (fun v : Z => v ≠ 0%Z) tiles
                ∧ noAdjacentEqual tiles)
  ∧ (sr_row (slideRow row) = row →
     sr_merged (slideRow row) = [] ∧ sr_scoreGain (slideRow row) = 0%Z)
  ∧ sr_row (slideRow (sr_row (slideRow [2; 2; 4; 0]%Z)))
    ≠ sr_row (slideRow [2; 2; 4; 0]%Z).
Proof.
  split; [split|split].
  - intros Heq. destruct (slideRow_unchanged_inv row Heq) as [Hadj Hrow].
    eexists _, _. split; [exact Hrow|]. split; [apply Forall_nonzero_filter|done].
  - intros (tiles & k & -> & Hnz & Hadj). by apply slideRow_unchanged.
  - intros Heq. destruct (slideRow_unchanged_inv row Heq) as [Hadj _].
    rewrite slideRow_gain, slideRow_merged.
    by destruct (groupsOf_noAdjacentEqual _ Hadj) as [_ ->].
  - by vm_compute.
Qed.

(** ** getMaxTile *)



(** ** A blocked board *)

Lemma noAdjacentEqual_lookup (l : list Z) :
  (∀ c a b, l !! c = Some a → l !! S c = Some b → a ≠ b) → noAdjacentEqual l.
Proof.
  induction l as [|a l IH]; intros H; [done|].
  destruct l as [|b l]; [done|]. split.
  - by apply (H 0).
  - apply IH. intros c x y Hx Hy. by apply (H (S c)).
Qed.

(** A rotation of a full board without equal neighbours is one too. *)
Lemma rotateGrid_blocked (n : nat) (g : Grid) :
  wf_grid n g → noEmptyCell n g → noEqualNeighbours n g →
  noEmptyCell n (rotateGrid g) ∧ noEqualNeighbours n (rotateGrid g).
Proof.
  intros Hwf Hfull Hblocked. pose proof Hwf as [Hlen _].
  assert (Hcell : ∀ i j, i < n → j < n →
                         cell (rotateGrid g) i j = cell g (n - 1 - j) i).
  { intros i j Hi Hj. rewrite cell_rotateGrid by lia. rewrite Hlen.
    by rewrite (wf_grid_getCell n g) by (done || lia). }
  split.
  - intros i j Hi Hj. rewrite Hcell by done. apply Hfull; lia.
  - intros i j Hi Hj. split; intros Hlt.
    + rewrite !Hcell by lia.
      destruct (Hblocked (n - 1 - (j + 1)) i) as [_ Hv]; [lia..|].
      replace (n - 1 - (j + 1) + 1) with (n - 1 - j) in Hv by lia.
      intros Heq. apply Hv; [lia|done].
    + rewrite !Hcell by lia.
      destruct (Hblocked (n - 1 - j) i) as [Hh _]; [lia..|].
      by apply Hh.
Qed.

Lemma iter_rotateGrid_blocked (n : nat) (g : Grid) (k : nat) :
  wf_grid n g → noEmptyCell n g → noEqualNeighbours n g →
  noEmptyCell n (Nat.iter k rotateGrid g)
  ∧ noEqualNeighbours n (Nat.iter k rotateGrid g).
Proof.
  intros Hwf Hfull Hblocked. induction k as [|k [IH1 IH2]]; [done|].
  destruct (iter_rotateGrid n g k Hwf) as [Hwfk _].
  by apply rotateGrid_blocked.
Qed.

(** On a full board without equal neighbours no row changes when slid. *)
Lemma blocked_rows_unchanged (n : nat) (g : Grid) (r : nat) (row : list Z) :
  wf_grid n g → noEmptyCell n g → noEqualNeighbours n g →
  r < n → g !! r = Some row → sr_row (slideRow row) = row.
Proof.
  intros [Hlen Hrows] Hfull Hblocked Hr Hrow.
  rewrite Forall_lookup in Hrows. pose proof (Hrows r row Hrow) as Hrowlen.
  assert (Hcell : ∀ c, cell g r c = row !! c).
  { intros c. unfold cell. by rewrite Hrow. }
  rewrite <- (app_nil_r row) at 1 2.
  change (@nil Z) with (replicate 0 0%Z).
  rewrite slideRow_unchanged; [by rewrite app_nil_r| |].
  - apply Forall_lookup. intros c v Hv ->.
    apply (Hfull r c); [done| |by rewrite Hcell].
    apply lookup_lt_Some in Hv. lia.
  - apply noAdjacentEqual_lookup. intros c a b Ha Hb ->.
    pose proof (lookup_lt_Some _ _ _ Hb) as Hlt.
    destruct (Hblocked r c) as [Hh _]; [lia..|].
    apply Hh; [lia|]. rewrite !Hcell. replace (c + 1) with (S c) by lia.
    by rewrite Ha, Hb.
Qed.

(** X7.  The lose check is sound.  On a board of [size] rows of [size]
    cells on which [canMove] fails, no direction changes anything: for
    every direction the slide changes no row and [move] returns no
    result.  So whenever some [move] returns a result, [canMove] held
    before the call. *)
Theorem blocked_board_has_no_move (s : Game) (direction : string) (rnd : Draws) :
  wf_grid (size s) (grid s) →
  canMove (size s) (grid s) = false →
  slideChangesNoRow s direction ∧ fst (move s direction rnd) = None.
Proof.
  intros Hwf Hcan. apply canMove_false_iff in Hcan as [Hfull Hblocked].
  assert (Hnoop : slideChangesNoRow s direction).
  { intros r row Hr Hrow. unfold normalized in Hrow. rewrite cloneGrid_id in Hrow.
    set (k := loopCount (rotations direction)) in *.
    destruct (iter_rotateGrid (size s) (grid s) k Hwf) as [Hwfk _].
    destruct (iter_rotateGrid_blocked (size s) (grid s) k Hwf Hfull Hblocked)
      as [Hfullk Hblockedk].
    by apply (blocked_rows_unchanged (size s) _ r row Hwfk Hfullk Hblockedk). }
  split; [done|].
  destruct (rejected_dec s) as [Hrej|Hacc]; [by rewrite move_rejected|].
  rewrite (move_accepted s direction rnd Hacc). cbv zeta.
  by rewrite (proj2 (slidePhase_not_moved s direction) Hnoop).
Qed.

Lemma blocked_board_has_no_move_witness :
  fst (move blockedBoard "up" firstCell2) = None.
Proof.
  refine (proj2 (blocked_board_has_no_move blockedBoard "up" firstCell2 _ _)).
  - split; [reflexivity|]. repeat constructor.
  - vm_compute. reflexivity.
Defined.

(** ** New tiles *)

Lemma random_index_in_range (u : Q) (len : nat) :
  validDraw u → 0 < len →
  Z.to_nat (Qfloor (u * inject_Z (Z.of_nat len))) < len.
Proof.
  intros [H0 H1] Hlen.
  assert (HL : (0 < inject_Z (Z.of_nat len))%Q).
  { rewrite <- (Zlt_Qlt 0). lia. }
  assert (Hlo : (0 ≤ Qfloor (u * inject_Z (Z.of_nat len)))%Z).
  { rewrite <- (Qfloor_Z 0). apply Qfloor_resp_le.
    apply Qmult_le_0_compat; [exact H0|]. apply Qlt_le_weak. exact HL. }
  assert (Hhi : (Qfloor (u * inject_Z (Z.of_nat len)) < Z.of_nat len)%Z).
  { rewrite Zlt_Qlt. eapply Qle_lt_trans; [apply Qfloor_le|].
    rewrite <- (Qmult_1_l (inject_Z (Z.of_nat len))) at 2.
    apply Qmult_lt_compat_r; assumption. }
  lia.
Qed.

Lemma elem_of_emptyCells (n : nat) (g : Grid) (r c : nat) :
  (r, c) ∈ emptyCells n g ↔ r < n ∧ c < n ∧ cell g r c = Some 0%Z.
Proof.
  unfold emptyCells. rewrite list_elem_of_In, in_flat_map. split.
  - intros (r' & Hr' & Hin). apply in_flat_map in Hin as (c' & Hc' & Hin).
    apply in_seq in Hr', Hc'.
    case_bool_decide as Hcell; [|by destruct Hin].
    destruct Hin as [[= <- <-]|[]]. split; [lia|]. split; [lia|done].
  - intros (Hr & Hc & Hcell). exists r. split; [apply in_seq; lia|].
    apply in_flat_map. exists c. split; [apply in_seq; lia|].
    rewrite bool_decide_eq_true_2 by done. by left.
Qed.

Lemma emptyCells_nil (n : nat) (g : Grid) :
  emptyCells n g = [] ↔ noEmptyCell n g.
Proof.
  split.
  - intros Hnil r c Hr Hc Hcell.
    assert (Hin : (r, c) ∈ emptyCells n g) by by apply elem_of_emptyCells.
    rewrite Hnil in Hin. by apply not_elem_of_nil in Hin.
  - intros Hfull. destruct (emptyCells n g) as [|[r c] l] eqn:E; [done|].
    assert (Hin : (r, c) ∈ emptyCells n g) by (rewrite E; apply list_elem_of_here).
    apply elem_of_emptyCells in Hin as (Hr & Hc & Hcell).
    by destruct (Hfull r c Hr Hc).
Qed.

Lemma sumTo_update (n : nat) (f f' : nat → Z) (k : nat) (d : Z) :
  k < n → (∀ i, i < n → i ≠ k → f' i = f i) → f' k = (f k + d)%Z →
  sumTo n f' = (sumTo n f + d)%Z.
Proof.
  induction n as [|n IH]; intros Hk Hother Hat; [lia|]. simpl.
  destruct (decide (k = n)) as [->|Hne].
  - rewrite Hat. rewrite (sumTo_ext n f' f); [lia|].
    intros i Hi. apply Hother; lia.
  - rewrite IH by (done || lia || (intros; apply Hother; lia)).
    rewrite (Hother n) by lia. lia.
Qed.

Lemma gridSum_setCell (n : nat) (g : Grid) (r c : nat) (v : Z) :
  wf_grid n g → r < n → c < n →
  gridSum (setCell g r c v) = (gridSum g + (v - getCell g r c))%Z.
Proof.
  intros Hwf Hr Hc.
  rewrite (gridSum_cells n (setCell g r c v)) by by apply setCell_wf.
  rewrite (gridSum_cells n g) by done.
  apply (sumTo_update n _ _ r); [done| |].
  - intros i Hi Hne. apply sumTo_ext. intros j Hj.
    unfold getCell. rewrite (cell_setCell n) by done.
    rewrite decide_False; [done|]. by intros [? _].
  - apply (sumTo_update n _ _ c); [done| |].
    + intros j Hj Hne. unfold getCell. rewrite (cell_setCell n) by done.
      rewrite decide_False; [done|]. by intros [_ ?].
    + unfold getCell at 1. rewrite (cell_setCell n) by done.
      rewrite decide_True by done. simpl. lia.
Qed.

(** What [addRandomTile] does, for draws in [0,1) on a board of [n] rows
    of [n] cells. *)
Lemma addRandomTile_cases (n : nat) (g : Grid) (rnd : Draws) :
  wf_grid n g → validDraws rnd →
  (noEmptyCell n g ∧ addRandomTile n g rnd = (g, None))
  ∨ (∃ r c v,
       r < n ∧ c < n ∧ cell g r c = Some 0%Z
       ∧ v = (if Qlt_le_dec (valueDraw rnd) (9 # 10) then 2%Z else 4%Z)
       ∧ addRandomTile n g rnd = (setCell g r c v, Some (mkNewTile r c v))).
Proof.
  intros Hwf [Hcell _]. unfold addRandomTile.
  destruct (emptyCells n g) as [|p l] eqn:E.
  - left. split; [by apply emptyCells_nil|done].
  - right. rewrite bool_decide_eq_false_2 by done.
    pose proof (random_index_in_range (cellDraw rnd) (length (p :: l)) Hcell
                  ltac:(simpl; lia)) as Hidx.
    destruct (lookup_lt_is_Some_2 (p :: l) _ Hidx) as [[r c] Hrc].
    rewrite Hrc.
    assert (Hin : (r, c) ∈ emptyCells n g).
    { rewrite E. apply list_elem_of_lookup. eauto. }
    apply elem_of_emptyCells in Hin as (Hr & Hc & Hzero).
    by eexists r, c, _.
Qed.

(** X8.  With draws in [0,1) on a board of [n] rows of [n] cells,
    [addRandomTile] either finds no empty cell, changes nothing and
    returns no tile; or it writes one tile into a cell that was empty,
    leaves every other cell as it was, and returns that tile.  The tile
    is 2 when the value draw is below 0.9 and 4 otherwise, and the total
    of the board grows by it. *)
Theorem addRandomTile_fills_an_empty_cell (n : nat) (g : Grid) (rnd : Draws) :
  wf_grid n g → validDraws rnd →
  (noEmptyCell n g ∧ addRandomTile n g rnd = (g, None))
  ∨ (∃ r c v,
       r < n ∧ c < n ∧ cell g r c = Some 0%Z
       ∧ ((valueDraw rnd < 9 # 10)%Q ∧ v = 2%Z
          ∨ (9 # 10 <= valueDraw rnd)%Q ∧ v = 4%Z)
       ∧ snd (addRandomTile n g rnd) = Some (mkNewTile r c v)
       ∧ wf_grid n (fst (addRandomTile n g rnd))
       ∧ cell (fst (addRandomTile n g rnd)) r c = Some v
       ∧ (∀ i j, ¬ (i = r ∧ j = c) →
                 cell (fst (addRandomTile n g rnd)) i j = cell g i j)
       ∧ gridSum (fst (addRandomTile n g rnd)) = (gridSum g + v)%Z).
Proof.
  intros Hwf Hrnd.
  destruct (addRandomTile_cases n g rnd Hwf Hrnd)
    as [?|(r & c & v & Hr & Hc & Hzero & Hv & ->)]; [by left|right].
  exists r, c, v. cbn [fst snd].
  split; [done|]. split; [done|]. split; [done|]. split.
  { rewrite Hv. destruct (Qlt_le_dec _ _); [by left|by right]. }
  split; [done|]. split; [by apply setCell_wf|]. split.
  { rewrite (cell_setCell n) by done. by rewrite decide_True. }
  split.
  { intros i j Hne. rewrite (cell_setCell n) by done. by rewrite decide_False. }
  rewrite (gridSum_setCell n) by done.
  unfold getCell. rewrite Hzero. simpl. lia.
Qed.

Lemma addRandomTile_fills_an_empty_cell_witness :
  (noEmptyCell 4 (grid nearWin)
   ∧ addRandomTile 4 (grid nearWin) middleCell4 = (grid nearWin, None))
  ∨ (∃ r c v,
       r < 4 ∧ c < 4 ∧ cell (grid nearWin) r c = Some 0%Z
       ∧ ((valueDraw middleCell4 < 9 # 10)%Q ∧ v = 2%Z
          ∨ (9 # 10 <= valueDraw middleCell4)%Q ∧ v = 4%Z)
       ∧ snd (addRandomTile 4 (grid nearWin) middleCell4) = Some (mkNewTile r c v)
       ∧ wf_grid 4 (fst (addRandomTile 4 (grid nearWin) middleCell4))
       ∧ cell (fst (addRandomTile 4 (grid nearWin) middleCell4)) r c = Some v
       ∧ (∀ i j, ¬ (i = r ∧ j = c) →
                 cell (fst (addRandomTile 4 (grid nearWin) middleCell4)) i j
                 = cell (grid nearWin) i j)
       ∧ gridSum (fst (addRandomTile 4 (grid nearWin) middleCell4))
         = (gridSum (grid nearWin) + v)%Z).
Proof.
  apply (addRandomTile_fills_an_empty_cell 4 (grid nearWin) middleCell4).
  - split; [reflexivity|]. repeat constructor.
  - by vm_compute.
Defined.

(** ** init *)

Lemma length_flat_map_seq {A} (f : nat → list A) (n : nat) :
  Z.of_nat (length (flat_map f (seq 0 n)))
  = sumTo n (fun i => Z.of_nat (length (f i))).
Proof.
  induction n as [|n IH]; [done|].
  rewrite seq_S, flat_map_app, length_app. cbn [flat_map sumTo Nat.add].
  rewrite app_nil_r. lia.
Qed.

(** The number of empty cells, as a sum over the cells. *)
Lemma length_emptyCells (n : nat) (g : Grid) :
  Z.of_nat (length (emptyCells n g))
  = sumTo n (fun r => sumTo n (fun c =>
      if bool_decide (cell g r c = Some 0%Z) then 1%Z else 0%Z)).
Proof.
  unfold emptyCells. rewrite length_flat_map_seq.
  apply sumTo_ext. intros r Hr. rewrite length_flat_map_seq.
  apply sumTo_ext. intros c Hc. by case_bool_decide.
Qed.

Lemma sumTo_const (n : nat) (k : Z) : sumTo n (fun _ => k) = (Z.of_nat n * k)%Z.
Proof. induction n as [|n IH]; [done|]. cbn [sumTo]. rewrite IH. lia. Qed.

Lemma length_emptyCells_zeroGrid (n : nat) :
  length (emptyCells n (zeroGrid n)) = n * n.
Proof.
  apply Nat2Z.inj. rewrite length_emptyCells.
  rewrite (sumTo_ext n _ (fun _ => Z.of_nat n)).
  - rewrite sumTo_const. lia.
  - intros r Hr. rewrite (sumTo_ext n _ (fun _ => 1%Z)).
    + rewrite sumTo_const. lia.
    + intros c Hc. by rewrite cell_zeroGrid, bool_decide_eq_true_2.
Qed.

Lemma length_emptyCells_setCell (n : nat) (g : Grid) (r c : nat) (v : Z) :
  wf_grid n g → r < n → c < n → cell g r c = Some 0%Z → v ≠ 0%Z →
  length (emptyCells n (setCell g r c v)) + 1 = length (emptyCells n g).
Proof.
  intros Hwf Hr Hc Hzero Hv. apply Nat2Z.inj.
  rewrite Nat2Z.inj_add, !length_emptyCells.
  rewrite (sumTo_update n
             (fun i => sumTo n (fun j =>
                if bool_decide (cell g i j = Some 0%Z) then 1%Z else 0%Z))
             _ r (-1)%Z); [simpl; lia|done| |].
  - intros i Hi Hne. apply sumTo_ext. intros j Hj.
    rewrite (cell_setCell n) by done.
    rewrite decide_False; [done|]. by intros [? _].
  - apply (sumTo_update n _ _ c); [done| |].
    + intros j Hj Hne. rewrite (cell_setCell n) by done.
      rewrite decide_False; [done|]. by intros [_ ?].
    + rewrite (cell_setCell n) by done. rewrite decide_True by done.
      rewrite bool_decide_eq_false_2 by congruence.
      by rewrite bool_decide_eq_true_2.
Qed.

Lemma gridSum_zeroGrid (n : nat) : gridSum (zeroGrid n) = 0%Z.
Proof.
  rewrite (gridSum_cells n) by apply zeroGrid_wf.
  rewrite (sumTo_ext n _ (fun _ => 0%Z)); [rewrite sumTo_const; lia|].
  intros r Hr. rewrite (sumTo_ext n _ (fun _ => 0%Z)); [rewrite sumTo_const; lia|].
  intros c Hc. unfold getCell. by rewrite cell_zeroGrid.
Qed.

(** One [addRandomTile] on a board with an empty cell. *)
Lemma addRandomTile_on_empty (n : nat) (g : Grid) (rnd : Draws) :
  wf_grid n g → validDraws rnd → 0 < length (emptyCells n g) →
  ∃ v, (v = 2%Z ∨ v = 4%Z)
       ∧ wf_grid n (fst (addRandomTile n g rnd))
       ∧ length (emptyCells n (fst (addRandomTile n g rnd))) + 1
         = length (emptyCells n g)
       ∧ gridSum (fst (addRandomTile n g rnd)) = (gridSum g + v)%Z.
Proof.
  intros Hwf Hrnd Hlen.
  destruct (addRandomTile_cases n g rnd Hwf Hrnd)
    as [[Hfull _]|(r & c & v & Hr & Hc & Hzero & Hv & ->)].
  { apply emptyCells_nil in Hfull. rewrite Hfull in Hlen. simpl in Hlen. lia. }
  assert (Hv24 : v = 2%Z ∨ v = 4%Z).
  { rewrite Hv. destruct (Qlt_le_dec _ _); [by left|by right]. }
  exists v. cbn [fst]. split; [done|]. split; [by apply setCell_wf|]. split.
  - apply (length_emptyCells_setCell n); [done..|]. by destruct Hv24 as [->| ->].
  - rewrite (gridSum_setCell n) by done. unfold getCell. rewrite Hzero. simpl. lia.
Qed.

(** X9.  [init] on an engine of size at least 2, with draws in [0,1):
    score 0, empty history, Playing, wonBefore false and moveId 0, with
    size and bestScore kept; the grid has [size] rows of [size] cells,
    all empty but two distinct cells; each of the two holds the tile of
    its call of [addRandomTile], 2 when the value draw is below 0.9 and
    4 otherwise; and a move is possible. *)
Theorem init_places_two_tiles (s : Game) (rnd1 rnd2 : Draws) :
  2 ≤ size s → validDraws rnd1 → validDraws rnd2 →
  size (init s rnd1 rnd2) = size s
  ∧ bestScore (init s rnd1 rnd2) = bestScore s
  ∧ score (init s rnd1 rnd2) = 0%Z
  ∧ history (init s rnd1 rnd2) = []
  ∧ gameState (init s rnd1 rnd2) = Playing
  ∧ wonBefore (init s rnd1 rnd2) = false
  ∧ moveId (init s rnd1 rnd2) = 0%Z
  ∧ wf_grid (size s) (grid (init s rnd1 rnd2))
  ∧ length (emptyCells (size s) (grid (init s rnd1 rnd2))) + 2 = size s * size s
  ∧ (∃ r1 c1 v1 r2 c2 v2,
       r1 < size s ∧ c1 < size s ∧ r2 < size s ∧ c2 < size s
       ∧ (r1, c1) ≠ (r2, c2)
       ∧ ((valueDraw rnd1 < 9 # 10)%Q ∧ v1 = 2%Z
          ∨ (9 # 10 <= valueDraw rnd1)%Q ∧ v1 = 4%Z)
       ∧ ((valueDraw rnd2 < 9 # 10)%Q ∧ v2 = 2%Z
          ∨ (9 # 10 <= valueDraw rnd2)%Q ∧ v2 = 4%Z)
       ∧ cell (grid (init s rnd1 rnd2)) r1 c1 = Some v1
       ∧ cell (grid (init s rnd1 rnd2)) r2 c2 = Some v2
       ∧ (∀ i j, i < size s → j < size s →
                 (i, j) ≠ (r1, c1) → (i, j) ≠ (r2, c2) →
                 cell (grid (init s rnd1 rnd2)) i j = Some 0%Z)
       ∧ gridSum (grid (init s rnd1 rnd2)) = (v1 + v2)%Z)
  ∧ canMove (size s) (grid (init s rnd1 rnd2)) = true.
Proof.
  intros Hsize Hrnd1 Hrnd2. unfold init.
  cbn [size bestScore score history gameState wonBefore moveId grid].
  do 7 (split; [done|]).
  set (n := size s) in *.
  pose proof (length_emptyCells_zeroGrid n) as Hlen0.
  destruct (addRandomTile_on_empty n (zeroGrid n) rnd1
              (zeroGrid_wf _) Hrnd1) as (w1 & _ & Hwf1 & Hlen1 & Hsum1); [nia|].
  destruct (addRandomTile_cases n (zeroGrid n) rnd1 (zeroGrid_wf _) Hrnd1)
    as [[Hfull _]|(r1 & c1 & v1 & Hr1 & Hc1 & Hz1 & Hv1 & Heq1)].
  { apply emptyCells_nil in Hfull. rewrite Hfull in Hlen0. simpl in Hlen0. nia. }
  rewrite Heq1 in *. cbn [fst] in *.
  set (g1 := setCell (zeroGrid n) r1 c1 v1) in *.
  destruct (addRandomTile_on_empty n g1 rnd2 Hwf1 Hrnd2)
    as (w2 & _ & Hwf2 & Hlen2 & Hsum2); [nia|].
  destruct (addRandomTile_cases n g1 rnd2 Hwf1 Hrnd2)
    as [[Hfull _]|(r2 & c2 & v2 & Hr2 & Hc2 & Hz2 & Hv2 & Heq2)].
  { apply emptyCells_nil in Hfull. rewrite Hfull in Hlen1. simpl in Hlen1. nia. }
  rewrite Heq2 in *. cbn [fst] in *.
  set (g2 := setCell g1 r2 c2 v2) in *.
  assert (Hv1' : (valueDraw rnd1 < 9 # 10)%Q ∧ v1 = 2%Z
                 ∨ (9 # 10 <= valueDraw rnd1)%Q ∧ v1 = 4%Z).
  { rewrite Hv1. destruct (Qlt_le_dec (valueDraw rnd1) (9 # 10)); [left|right]; by split. }
  assert (Hv2' : (valueDraw rnd2 < 9 # 10)%Q ∧ v2 = 2%Z
                 ∨ (9 # 10 <= valueDraw rnd2)%Q ∧ v2 = 4%Z).
  { rewrite Hv2. destruct (Qlt_le_dec (valueDraw rnd2) (9 # 10)); [left|right]; by split. }
  assert (Hv1nz : v1 ≠ 0%Z) by (destruct Hv1' as [[_ ->]|[_ ->]]; done).
  assert (Hne : (r1, c1) ≠ (r2, c2)).
  { intros [= E1 E2]. rewrite <- E1, <- E2 in Hz2. unfold g1 in Hz2.
    rewrite (cell_setCell n (zeroGrid n) r1 c1 v1 r1 c1 (zeroGrid_wf n) Hr1 Hc1) in Hz2.
    rewrite decide_True in Hz2 by done. by injection Hz2. }
  assert (Hcells : ∀ i j, i < n → j < n →
            cell g2 i j = if decide (i = r2 ∧ j = c2) then Some v2
                          else if decide (i = r1 ∧ j = c1) then Some v1
                          else Some 0%Z).
  { intros i j Hi Hj. unfold g2, g1.
    rewrite (cell_setCell n) by done.
    rewrite (cell_setCell n) by (done || apply zeroGrid_wf).
    by rewrite cell_zeroGrid. }
  split; [done|]. split; [lia|]. split.
  - exists r1, c1, v1, r2, c2, v2.
    do 4 (split; [done|]). split; [done|]. split; [done|]. split; [done|].
    split; [|split; [|split]].
    + rewrite Hcells by done. rewrite decide_False.
      * by rewrite decide_True.
      * intros [-> ->]. by apply Hne.
    + rewrite Hcells by done. by rewrite decide_True.
    + intros i j Hi Hj Hn1 Hn2. rewrite Hcells by done.
      rewrite decide_False by (intros [-> ->]; by apply Hn2).
      by rewrite decide_False by (intros [-> ->]; by apply Hn1).
    + unfold g2. rewrite (gridSum_setCell n g1 r2 c2 v2 Hwf1 Hr2 Hc2).
      unfold getCell at 1. rewrite Hz2. unfold g1.
      rewrite (gridSum_setCell n (zeroGrid n) r1 c1 v1 (zeroGrid_wf n) Hr1 Hc1).
      unfold getCell. rewrite Hz1, gridSum_zeroGrid. simpl. lia.
  - destruct (canMove n g2) eqn:Hcan; [done|].
    apply canMove_false_iff in Hcan as [Hfull _].
    apply emptyCells_nil in Hfull. rewrite Hfull in Hlen2. simpl in Hlen2. nia.
Qed.

Lemma init_places_two_tiles_witness :
  length (emptyCells 4 (grid startGame)) + 2 = 4 * 4.
Proof.
  refine (proj1 (proj2 (proj2 (proj2 (proj2 (proj2 (proj2 (proj2 (proj2
            (init_places_two_tiles (newGame 4) firstCell2 middleCell4 _ _ _)))))))))).
  - simpl. lia.
  - by vm_compute.
  - by vm_compute.
Defined.

(** ** Moves, undo and the scores *)

Lemma committedState_fields (s : Game) (direction : string) (rnd : Draws) :
  let s' := committedState s direction rnd in
  let gain := a_totalScoreGain (slidePhase (size s) (grid s) direction) in
  size s' = size s
  ∧ score s' = (score s + gain)%Z
  ∧ bestScore s' = Z.max (bestScore s) (score s + gain)
  ∧ moveId s' = (moveId s + 1)%Z
  ∧ history s' = history (pushHistory s).
Proof.
  cbv zeta. unfold committedState, checkLose, checkWin.
  case_conditions; repeat split; try done;
    repeat match goal with
           | H : bool_decide _ = true |- _ => apply bool_decide_eq_true in H
           | H : bool_decide _ = false |- _ => apply bool_decide_eq_false in H
           end; lia.
Qed.

Lemma history_pushHistory_snoc (s : Game) :
  ∃ h, history (pushHistory s) = h ++ [snapshot s]
       ∧ (length (history s) < maxHistory → h = history s)
       ∧ (maxHistory ≤ length (history s) → h = tail (history s))
       ∧ ∀ x, x ∈ h → x ∈ history s.
Proof.
  destruct (decide (length (history s) < maxHistory)) as [Hlt|Hge].
  - exists (history s). rewrite history_pushHistory_below by done.
    split; [done|]. split; [done|]. split; [lia|done].
  - exists (tail (history s)). rewrite history_pushHistory_full by lia.
    split; [done|]. split; [lia|]. split; [done|].
    intros x Hx. destruct (history s); [done|]. by apply list_elem_of_further.
Qed.



Lemma scoresBelowBest_move (s : Game) (direction : string) (rnd : Draws) :
  scoresBelowBest s →
  scoresBelowBest (snd (move s direction rnd))
  ∧ (bestScore s ≤ bestScore (snd (move s direction rnd)))%Z.
Proof.
  intros [Hscore Hhist].
  destruct (rejected_dec s) as [Hrej|Hacc].
  { rewrite move_rejected by done. split; [done|]. simpl. lia. }
  rewrite (move_accepted s direction rnd Hacc). cbv zeta.
  destruct (history_pushHistory_snoc s) as (h & Hh & _ & _ & Hsub).
  rewrite Forall_forall in Hhist.
  destruct (a_moved _); cbn [snd].
  - destruct (committedState_fields s direction rnd)
      as (_ & Hsc & Hbest & _ & Hhi).
    split; [|lia]. split; [lia|].
    rewrite Hhi, Hh, Hbest. apply Forall_app. split.
    + apply Forall_forall. intros x Hx. specialize (Hhist x (Hsub x Hx)). lia.
    + repeat constructor. simpl. lia.
  - split; [|simpl; lia]. split; [done|]. cbn [history set_history bestScore].
    rewrite Hh, pop_snoc. cbn [fst].
    apply Forall_forall. intros x Hx. by apply Hhist, Hsub.
Qed.

Lemma scoresBelowBest_undo (s : Game) :
  scoresBelowBest s →
  scoresBelowBest (snd (undo s)) ∧ bestScore (snd (undo s)) = bestScore s.
Proof.
  intros [Hscore Hhist].
  destruct (snoc_cases (history s)) as [Hh|(h & prev & Hh)].
  - by rewrite undo_empty.
  - rewrite (undo_snoc s h prev Hh). cbn [snd]. split; [|done].
    rewrite Hh in Hhist. apply Forall_app in Hhist as [Hh1 Hh2].
    split; [|done]. cbn. by inversion_clear Hh2.
Qed.

(** X11.  The best score never falls behind.  In a state whose grid and
    history grids have [size] rows of [size] cells: if the score and
    every score kept in the history are at most bestScore, this stays so
    after any sequence of [move], [undo] and [continueGame] calls, and
    bestScore never decreases along the way. *)
Theorem scores_stay_below_best (s : Game) (ops : list Op) :
  wfGame s → scoresBelowBest s →
  scoresBelowBest (run s ops) ∧ (bestScore s ≤ bestScore (run s ops))%Z.
Proof.
  intros _. revert s. unfold run.
  induction ops as [|o ops IH]; intros s Hinv; [split; [done|cbn [foldl]; lia]|].
  cbn [foldl].
  assert (Hstep : scoresBelowBest (step s o) ∧ (bestScore s ≤ bestScore (step s o))%Z).
  { destruct o as [direction rnd| |]; cbn [step].
    - by apply scoresBelowBest_move.
    - destruct (scoresBelowBest_undo s Hinv) as [? ->]. split; [done|lia].
    - unfold continueGame. case_bool_decide; (split; [done|cbn; lia]). }
  destruct Hstep as [Hinv' Hbest]. destruct (IH _ Hinv') as [? ?].
  split; [done|lia].
Qed.

Lemma scores_stay_below_best_witness :
  (bestScore nearWin
   ≤ bestScore (run nearWin [OpMove "left" firstCell2; OpContinue; OpUndo]))%Z.
Proof.
  refine (proj2 (scores_stay_below_best nearWin
                   [OpMove "left" firstCell2; OpContinue; OpUndo] _ _)).
  - split; [|constructor]. split; [reflexivity|]. repeat constructor.
  - split; [by vm_compute|constructor].
Defined.

(** ** The game state *)

(** X12.  The win is announced once.  From a state with wonBefore true
    that is not Won, no sequence of [move] and [continueGame] calls (no
    [undo], no [init]) ever makes gameState Won again, whatever tiles
    the moves produce. *)
Theorem no_second_win (s : Game) (ops : list Op) :
  Forall (fun o => isUndo o = false) ops →
  wonBefore s = true → gameState s ≠ Won →
  gameState (run s ops) ≠ Won ∧ wonBefore (run s ops) = true.
Proof.
  intros Hops. revert s. unfold run.
  induction Hops as [|o ops Ho _ IH]; intros s Hwb Hgs; [done|].
  cbn [foldl]. apply IH.
  - destruct o as [direction rnd| |]; cbn [step]; [|done|].
    + by rewrite wonBefore_move.
    + by apply wonBefore_continueGame.
  - destruct o as [direction rnd| |]; cbn [step]; [|done|].
    + destruct (rejected_dec s) as [Hrej|Hacc]; [by rewrite move_rejected|].
      rewrite (move_accepted s direction rnd Hacc). cbv zeta.
      destruct (a_moved _); cbn [snd]; [|done].
      rewrite (committedState_gameState s direction rnd). cbv zeta.
      rewrite Hwb, andb_false_r. by destruct (negb _).
    + unfold continueGame. by case_bool_decide.
Qed.

Lemma no_second_win_witness :
  gameState (run (continueGame (snd (move nearWin "left" firstCell2)))
                 [OpMove "down" firstCell2; OpMove "right" firstCell2; OpContinue])
  ≠ Won.
Proof.
  refine (proj1 (no_second_win
                   (continueGame (snd (move nearWin "left" firstCell2)))
                   [OpMove "down" firstCell2; OpMove "right" firstCell2; OpContinue]
                   _ _ _)).
  - repeat constructor.
  - vm_compute. reflexivity.
  - vm_compute. discriminate.
Defined.

(** X13.  Lost is final for play: in a Lost state every [move] returns
    no result, and no sequence of [move] and [continueGame] calls changes
    anything in the engine.  Only [undo] (or [init], [deserialize])
    leaves the state. *)
Theorem lost_is_final (s : Game) (ops : list Op) :
  gameState s = Lost →
  Forall (fun o => isUndo o = false) ops →
  run s ops = s
  ∧ ∀ direction rnd, fst (move s direction rnd) = None.
Proof.
  intros Hlost Hops. split.
  - unfold run. induction Hops as [|o ops Ho _ IH]; [done|].
    cbn [foldl]. destruct o as [direction rnd| |]; cbn [step]; [|done|].
    + rewrite move_rejected by by left. exact IH.
    + unfold continueGame. rewrite bool_decide_eq_false_2 by congruence.
      exact IH.
  - intros direction rnd. rewrite move_rejected; [done|by left].
Qed.

Lemma lost_is_final_witness :
  run (snd (move winAndBlocked "left" firstCell2))
      [OpMove "up" firstCell2; OpContinue; OpMove "left" middleCell4]
  = snd (move winAndBlocked "left" firstCell2).
Proof.
  refine (proj1 (lost_is_final (snd (move winAndBlocked "left" firstCell2))
                   [OpMove "up" firstCell2; OpContinue; OpMove "left" middleCell4]
                   _ _)).
  - vm_compute. reflexivity.
  - repeat constructor.
Defined.

(** ** serialize *)

(** X14.  [deserialize] accepts what [serialize] returns and restores
    every field it wrote: into an engine of the same size it gives back
    the serialized engine itself, history included, and serializing
    again gives the same object. *)
Theorem serialize_round_trip (s0 s : Game) :
  fst (deserialize s0 (Some (serialize s))) = true
  ∧ (size s0 = size s → snd (deserialize s0 (Some (serialize s))) = s)
  ∧ serialize (snd (deserialize s0 (Some (serialize s)))) = serialize s.
Proof.
  rewrite deserialize_serialize. cbn [fst snd].
  split; [done|]. split; [|done].
  intros ->. by destruct s.
Qed.
(** ** The movement records of a row *)

Lemma slideLoop_mergePositions (rest : list Z) :
  ∀ result merged scoreGain mergePositions,
    sr_mergePositions (slideLoop rest result merged scoreGain mergePositions)
    = mergePositions ++ pairPositions (length result) (groupsOf rest).
Proof.
  induction rest as [|a|a b l IH1 IH2] using scan_ind;
    intros result merged scoreGain mergePositions.
  - simpl. by rewrite app_nil_r.
  - simpl. by rewrite app_nil_r.
  - rewrite groupsOf_step, slideLoop_step.
    destruct (Z.eqb_spec a b) as [->|Hne].
    + rewrite IH1. cbn [pairPositions isPair].
      rewrite length_app, <- app_assoc. cbn [length app].
      do 3 f_equal; lia.
    + rewrite IH2. cbn [pairPositions isPair app].
      rewrite length_app. cbn [length]. do 2 f_equal. lia.
Qed.

Lemma elem_of_pairPositions (groups : list (list Z)) (base p : nat) :
  p ∈ pairPositions base groups
  ↔ ∃ k grp, p = base + k ∧ groups !! k = Some grp ∧ isPair grp = true.
Proof.
  revert base. induction groups as [|g groups IH]; intros base.
  - split; [by intros ?%not_elem_of_nil|by intros (k & grp & _ & ? & _)].
  - cbn [pairPositions]. rewrite elem_of_app, IH. split.
    + intros [Hhere|(k & grp & -> & Hk & Hp)].
      * destruct (isPair g) eqn:Hg; [|by apply not_elem_of_nil in Hhere].
        apply list_elem_of_singleton in Hhere as ->.
        exists 0, g. split; [lia|done].
      * exists (S k), grp. split; [lia|done].
    + intros ([|k] & grp & -> & Hk & Hp).
      * left. injection Hk as ->. rewrite Hp, Nat.add_0_r.
        apply list_elem_of_here.
      * right. exists k, grp. split; [lia|done].
Qed.

Lemma srcPositionsOf_S (m : nat) (row : list Z) :
  srcPositionsOf (S m) row
  = srcPositionsOf m row
    ++ match row !! m with
       | Some v => if bool_decide (v ≠ 0%Z) then [(m, v)] else []
       | None => []
       end.
Proof.
  unfold srcPositionsOf. rewrite seq_S, flat_map_app. cbn [flat_map Nat.add].
  by rewrite app_nil_r.
Qed.

(** [srcPositions] lists the non-zero tiles of the row with their
    columns, in order. *)
Lemma srcPositionsOf_spec (n : nat) (row : list Z) :
  length row = n →
  map snd (srcPositionsOf n row) = filter (fun v : Z => v ≠ 0%Z) row
  ∧ Forall (fun p => row !! fst p = Some (snd p)) (srcPositionsOf n row)
  ∧ ∀ c v, row !! c = Some v → v ≠ 0%Z → (c, v) ∈ srcPositionsOf n row.
Proof.
  intros Hlen.
  assert (Hm : ∀ m, m ≤ n →
    map snd (srcPositionsOf m row) = filter (fun v : Z => v ≠ 0%Z) (take m row)
    ∧ Forall (fun p => row !! fst p = Some (snd p)) (srcPositionsOf m row)
    ∧ ∀ c v, c < m → row !! c = Some v → v ≠ 0%Z → (c, v) ∈ srcPositionsOf m row).
  { induction m as [|m IH]; intros Hle.
    - split; [done|]. split; [constructor|intros; lia].
    - destruct IH as (IH1 & IH2 & IH3); [lia|].
      rewrite srcPositionsOf_S.
      destruct (lookup_lt_is_Some_2 row m) as [v Hv]; [lia|].
      rewrite Hv, (take_S_r row m v Hv), filter_app, map_app, IH1.
      assert (Hlast : (if bool_decide (v ≠ 0%Z) then [(m, v)] else [])
                      = map (fun w => (m, w)) (filter (fun v : Z => v ≠ 0%Z) [v])).
      { rewrite filter_cons, filter_nil.
        destruct (decide (v = 0%Z)) as [->|Hne].
        - rewrite bool_decide_eq_false_2, decide_False; [done|..];
            intros H; by apply H.
        - by rewrite bool_decide_eq_true_2, decide_True. }
      rewrite Hlast.
      split; [|split].
      + f_equal. rewrite map_map. apply map_id.
      + apply Forall_app. split; [done|].
        apply Forall_forall. intros p Hp.
        apply list_elem_of_In, in_map_iff in Hp as (w & <- & Hw).
        apply list_elem_of_In, list_elem_of_filter in Hw as [_ Hw].
        by apply list_elem_of_singleton in Hw as ->.
      + intros c w Hc Hw Hnz. apply elem_of_app.
        destruct (decide (c = m)) as [->|Hne].
        * right. rewrite Hv in Hw. injection Hw as <-.
          rewrite filter_cons_True by done. apply list_elem_of_here.
        * left. apply IH3; [lia|done..]. }
  destruct (Hm n) as (H1 & H2 & H3); [lia|].
  rewrite take_ge in H1 by lia.
  split; [done|]. split; [done|].
  intros c v Hv Hnz. apply H3; [|done..].
  apply lookup_lt_Some in Hv. lia.
Qed.

(** The [while] loop, group by group: from output position [d] on, with
    the source tiles of the groups still to come. *)
Lemma trackLoop_groups (n r : nat) (out : list Z) (mergePositions : list nat) :
  ∀ (groups : list (list Z)) (src : list (nat * Z)) (d fuel : nat),
    Forall mergeGroup groups →
    Forall (fun v : Z => v ≠ 0%Z) (concat groups) →
    map snd src = concat groups →
    (∀ k grp, groups !! k = Some grp → out !! (d + k) = Some (sumZ grp)) →
    (∀ k grp, groups !! k = Some grp →
              (d + k ∈ mergePositions ↔ isPair grp = true)) →
    d + length groups ≤ n → length groups ≤ fuel →
    map (fun m => (fromC m, tm_value m))
        (trackLoop fuel n r out mergePositions src d) = src
    ∧ Forall (fun m =>
                fromR m = r ∧ toR m = r ∧ toC m < n
                ∧ out !! toC m
                  = Some (if tm_merged m then (2 * tm_value m)%Z else tm_value m)
                ∧ tm_mergedValue m
                  = (if tm_merged m then Some (2 * tm_value m)%Z else None))
             (trackLoop fuel n r out mergePositions src d).
Proof.
  induction groups as [|grp groups IH];
    intros src d fuel Hgroups Hnz Hsrc Hout Hmp Hd Hfuel.
  - destruct src; [|done]. by destruct fuel.
  - destruct fuel as [|fuel]; [simpl in Hfuel; lia|].
    inversion_clear Hgroups as [|? ? Hgrp Hgroups'].
    cbn [concat] in Hnz, Hsrc. apply Forall_app in Hnz as [Hnzg Hnz'].
    pose proof (Hout 0 grp eq_refl) as Hout0. rewrite Nat.add_0_r in Hout0.
    pose proof (Hmp 0 grp eq_refl) as Hmp0. rewrite Nat.add_0_r in Hmp0.
    cbn [length] in Hd, Hfuel.
    assert (Hout' : ∀ k g, groups !! k = Some g → out !! (d + 1 + k) = Some (sumZ g)).
    { intros k g Hk. replace (d + 1 + k) with (d + S k) by lia. by apply Hout. }
    assert (Hmp' : ∀ k g, groups !! k = Some g →
                          (d + 1 + k ∈ mergePositions ↔ isPair g = true)).
    { intros k g Hk. replace (d + 1 + k) with (d + S k) by lia. by apply Hmp. }
    destruct Hgrp as [[a ->]|[a ->]].
    + (* a single tile *)
      destruct src as [|[c1 v1] src1]; [done|]. injection Hsrc as -> Hsrc.
      inversion_clear Hnzg as [|? ? Ha _].
      destruct (IH src1 (d + 1) fuel Hgroups' Hnz' Hsrc Hout' Hmp')
        as [IHsrc IHall]; [lia..|].
      replace (sumZ [a]) with a in Hout0 by (simpl; lia).
      cbn [trackLoop].
      rewrite (bool_decide_eq_true_2 (d < n)) by lia. cbn [negb].
      rewrite Hout0.
      rewrite (bool_decide_eq_false_2 (Some a = Some 0%Z)) by congruence.
      rewrite (bool_decide_eq_false_2 (d ∈ mergePositions))
        by (rewrite Hmp0; done).
      cbn [map fromC tm_value]. rewrite IHsrc. split; [done|].
      constructor; [|done]. cbn. repeat split; try done; lia.
    + (* two equal tiles *)
      destruct src as [|[c1 v1] [|[c2 v2] src2]]; [done..|].
      injection Hsrc as -> -> Hsrc.
      inversion_clear Hnzg as [|? ? Ha _].
      destruct (IH src2 (d + 1) fuel Hgroups' Hnz' Hsrc Hout' Hmp')
        as [IHsrc IHall]; [lia..|].
      replace (sumZ [a; a]) with (2 * a)%Z in Hout0 by (simpl; lia).
      cbn [trackLoop].
      rewrite (bool_decide_eq_true_2 (d < n)) by lia. cbn [negb].
      rewrite Hout0.
      rewrite (bool_decide_eq_false_2 (Some (2 * a)%Z = Some 0%Z))
        by (intros [=]; lia).
      rewrite (bool_decide_eq_true_2 (d ∈ mergePositions))
        by (by apply Hmp0).
      cbn [map fromC tm_value]. rewrite IHsrc. split; [done|].
      constructor; [|constructor; [|done]];
        cbn; repeat split; try done; lia.
Qed.

Lemma rowMovements_spec (n r : nat) (row : list Z) :
  length row = n →
  Forall (movementOfRow n r row (sr_row (slideRow row))) (rowMovements n r row)
  ∧ map (fun m => (fromC m, tm_value m)) (rowMovements n r row)
    = srcPositionsOf n row.
Proof.
  intros Hlen. unfold rowMovements.
  set (F := filter (fun v : Z => v ≠ 0%Z) row).
  destruct (srcPositionsOf_spec n row Hlen) as (Hsrc & Hcols & _).
  pose proof (Forall_nonzero_filter row) as HnzF. fold F in HnzF, Hsrc.
  assert (Hout : sr_row (slideRow row)
                 = map sumZ (groupsOf F) ++ replicate (length row - length (groupsOf F)) 0%Z)
    by apply slideRow_row.
  assert (Hmp : sr_mergePositions (slideRow row) = pairPositions 0 (groupsOf F)).
  { unfold slideRow. cbn [sr_mergePositions]. by rewrite slideLoop_mergePositions. }
  pose proof (groupsOf_length F) as HlenG.
  pose proof (length_filter (fun v : Z => v ≠ 0%Z) row) as HlenF. fold F in HlenF.
  destruct (trackLoop_groups n r (sr_row (slideRow row)) (sr_mergePositions (slideRow row))
              (groupsOf F) (srcPositionsOf n row) 0 n) as [Hmap Hall].
  - apply groupsOf_mergeGroup.
  - by rewrite groupsOf_concat.
  - by rewrite groupsOf_concat.
  - intros k grp Hk. rewrite Hout. cbn [Nat.add].
    rewrite lookup_app_l by (rewrite length_map; by eapply lookup_lt_Some).
    by rewrite lookup_map, Hk.
  - intros k grp Hk. rewrite Hmp, elem_of_pairPositions. cbn [Nat.add]. split.
    + intros (k' & grp' & -> & Hk' & Hp). cbn [Nat.add] in Hk. congruence.
    + intros Hp. by exists k, grp.
  - lia.
  - lia.
  - split; [|done].
    rewrite Forall_forall in Hall. rewrite Forall_forall in Hcols.
    rewrite Forall_forall in HnzF.
    apply Forall_forall. intros m Hm.
    destruct (Hall m Hm) as (H1 & H2 & H3 & H4 & H5).
    assert (Hin : (fromC m, tm_value m) ∈ srcPositionsOf n row).
    { rewrite <- Hmap. apply list_elem_of_In, in_map_iff. exists m.
      split; [done|]. by apply list_elem_of_In. }
    pose proof (Hcols _ Hin) as Hcol. cbn [fst snd] in Hcol.
    assert (Hval : tm_value m ∈ F).
    { rewrite <- Hsrc. apply list_elem_of_In, in_map_iff.
      exists (fromC m, tm_value m). split; [done|]. by apply list_elem_of_In. }
    repeat split; try done.
    + apply lookup_lt_Some in Hcol. lia.
    + by apply HnzF.
Qed.

(** The loop over the rows in closed form: every row is replaced by its
    slide, and the movement records are those of the rows, in order. *)
Lemma slideRows_closed (n : nat) (workGrid : Grid) :
  length workGrid = n →
  a_workGrid (slideRows n workGrid)
  = map (fun row => sr_row (slideRow row)) workGrid
  ∧ a_tileMovements (slideRows n workGrid)
    = flat_map (fun r => rowMovements n r (default [] (workGrid !! r))) (seq 0 n).
Proof.
  intros Hlen. unfold slideRows.
  assert (Hm : ∀ m, m ≤ n →
    let acc := foldl (slideStep n) (mkSlideAcc workGrid false 0%Z [] []) (seq 0 m) in
    length (a_workGrid acc) = n
    ∧ (∀ i, a_workGrid acc !! i
            = if decide (i < m)
              then (fun row => sr_row (slideRow row)) <$> (workGrid !! i)
              else workGrid !! i)
    ∧ a_tileMovements acc
      = flat_map (fun r => rowMovements n r (default [] (workGrid !! r))) (seq 0 m)).
  { cbv zeta. induction m as [|m IH]; intros Hle.
    - split; [done|]. split; [|done]. intros i. by rewrite decide_False by lia.
    - destruct IH as (IHlen & IHrows & IHmoves); [lia|].
      rewrite seq_S, foldl_app, flat_map_app. cbn [foldl flat_map Nat.add].
      set (acc := foldl (slideStep n) _ (seq 0 m)) in *.
      unfold slideStep. cbn [a_workGrid a_tileMovements].
      assert (Hrow : a_workGrid acc !! m = workGrid !! m).
      { rewrite IHrows. by rewrite decide_False by lia. }
      rewrite Hrow, IHmoves, app_nil_r.
      split; [by rewrite length_insert|]. split; [|done].
      intros i. destruct (decide (i = m)) as [->|Hne].
      + rewrite list_lookup_insert_eq by lia. rewrite decide_True by lia.
        destruct (lookup_lt_is_Some_2 workGrid m) as [row ->]; [lia|]. done.
      + rewrite list_lookup_insert_ne by done. rewrite IHrows.
        repeat case_decide; done || lia. }
  destruct (Hm n) as (Hlen' & Hrows & Hmoves); [lia|].
  split; [|done]. apply list_eq. intros i. rewrite Hrows, lookup_map.
  case_decide; [done|]. by rewrite lookup_ge_None_2 by lia.
Qed.

Lemma move_committed_movements (s : Game) (direction : string) (rnd : Draws)
    (res : MoveResult) :
  fst (move s direction rnd) = Some res →
  movements res
  = map (unrotateMove (size s) (loopCount (unrotations (rotations direction))))
        (a_tileMovements (slidePhase (size s) (grid s) direction))
  ∧ newTile res
    = snd (addRandomTile (size s) (slidGrid (size s) (grid s) direction) rnd)
  ∧ moved res = true.
Proof.
  intros Hres.
  destruct (rejected_dec s) as [Hrej|Hacc].
  { by rewrite move_rejected in Hres. }
  rewrite (move_accepted s direction rnd Hacc) in Hres. cbv zeta in Hres.
  destruct (a_moved _); [|done]. by injection Hres as <-.
Qed.

(** X15.  The movement records of a committed move on a board of [size]
    rows of [size] cells describe the slide.  Every record starts at a
    cell of the board that held its value (not zero) before the move and
    ends at a cell of the board that, after the slide and before the new
    tile, holds that value, or twice that value when the record is
    flagged merged, in which case mergedValue is that double; an
    unmerged record has no mergedValue.  And every non-empty cell of the
    grid before the move is the start of a record. *)
Theorem movements_describe_the_slide (s : Game) (direction : string) (rnd : Draws)
    (res : MoveResult) :
  wf_grid (size s) (grid s) →
  fst (move s direction rnd) = Some res →
  Forall (movementOfMove (size s) (grid s) (slidGrid (size s) (grid s) direction))
         (movements res)
  ∧ ∀ r c v, r < size s → c < size s → cell (grid s) r c = Some v → v ≠ 0%Z →
             ∃ m, m ∈ movements res ∧ mv_from m = (r, c) ∧ mv_value m = v.
Proof.
  intros Hwf Hres.
  destruct (move_committed_movements s direction rnd res Hres) as (-> & _ & _).
  unfold slidGrid, slidePhase.
  set (n := size s) in *.
  set (k := loopCount (rotations direction)).
  set (u := loopCount (unrotations (rotations direction))).
  set (wg := normalized (grid s) direction).
  assert (Hwg : wf_grid n wg).
  { unfold wg, normalized. rewrite cloneGrid_id. by apply iter_rotateGrid. }
  assert (Hback : Nat.iter u rotateGrid wg = grid s)
    by by apply (normalized_unrotated n).
  pose proof Hwg as [Hlenwg Hrowswg]. rewrite Forall_lookup in Hrowswg.
  destruct (slideRows_closed n wg Hlenwg) as [Hslid Hmoves].
  destruct (slideRows_inv n wg) as (_ & _ & Hwfslid). specialize (Hwfslid n Hwg).
  rewrite Hmoves. rewrite Hslid in *.
  assert (Hrowmoves : ∀ r tm,
    r < n → tm ∈ rowMovements n r (default [] (wg !! r)) →
    ∃ row, wg !! r = Some row ∧ movementOfRow n r row (sr_row (slideRow row)) tm).
  { intros r tm Hr Htm.
    destruct (lookup_lt_is_Some_2 wg r) as [row Hrow]; [lia|].
    rewrite Hrow in Htm. cbn in Htm. exists row. split; [done|].
    destruct (rowMovements_spec n r row (Hrowswg r row Hrow)) as [Hall _].
    rewrite Forall_forall in Hall. by apply Hall. }
  split.
  - apply Forall_forall. intros m Hm.
    apply list_elem_of_In, in_map_iff in Hm as (tm & <- & Htm).
    apply in_flat_map in Htm as (r & Hr & Htm). apply in_seq in Hr.
    apply list_elem_of_In in Htm.
    destruct (Hrowmoves r tm) as (row & Hrow & HfR & HtR & HfC & HtC & Hfrom & Hnz & Hto & Hmv);
      [lia|done|].
    unfold movementOfMove, unrotateMove. cbn [mv_from mv_to mv_value mv_merged mv_mergedValue].
    rewrite HfR, HtR.
    destruct (unrotateCoord_cell n wg r (fromC tm) u Hwg) as (Hf1 & Hf2 & Hf3); [lia..|].
    destruct (unrotateCoord_cell n _ r (toC tm) u Hwfslid) as (Ht1 & Ht2 & Ht3); [lia..|].
    rewrite Hback in Hf3.
    repeat split; try done.
    + rewrite Hf3. unfold cell. by rewrite Hrow.
    + rewrite Ht3. unfold cell. by rewrite lookup_map, Hrow.
  - intros r0 c0 v Hr0 Hc0 Hv Hnz.
    destruct (unrotateCoord_cell n (grid s) r0 c0 k Hwf Hr0 Hc0) as (Hr & Hc & Hcell).
    set (r := fst (unrotateCoord n r0 c0 k)) in *.
    set (c := snd (unrotateCoord n r0 c0 k)) in *.
    assert (Hwgcell : cell wg r c = Some v).
    { unfold wg, normalized. rewrite cloneGrid_id, <- Hv. exact Hcell. }
    unfold cell in Hwgcell.
    destruct (wg !! r) as [row|] eqn:Hrow; [|done].
    destruct (srcPositionsOf_spec n row (Hrowswg r row Hrow)) as (_ & _ & Hsrc).
    destruct (rowMovements_spec n r row (Hrowswg r row Hrow)) as [Hall Hmap].
    assert (Hin : (c, v) ∈ map (fun m => (fromC m, tm_value m)) (rowMovements n r row)).
    { rewrite Hmap. by apply Hsrc. }
    apply list_elem_of_In, in_map_iff in Hin as (tm & [= HfC Hval] & Htm).
    rewrite Forall_forall in Hall.
    destruct (Hall tm) as (HfR & _); [by apply list_elem_of_In|].
    exists (unrotateMove n u tm). split; [|split; [|done]].
    + apply list_elem_of_In, in_map. apply in_flat_map. exists r.
      split; [apply in_seq; lia|]. by rewrite Hrow.
    + unfold unrotateMove. cbn [mv_from]. rewrite HfR, HfC.
      unfold unrotateCoord, r, c.
      rewrite <- surjective_pairing.
      change (Nat.iter u ?f (unrotateCoord n r0 c0 k))
        with (Nat.iter u f (Nat.iter k f (r0, c0))).
      rewrite <- Nat.iter_add.
      destruct (rotation_counts direction) as [Hsum|Hsum]; fold u k in Hsum;
        rewrite Hsum; [done|].
      by apply unrotateCoord_4.
Qed.

Lemma movements_describe_the_slide_witness :
  ∃ res, fst (move nearWin "right" firstCell2) = Some res
         ∧ Forall (movementOfMove 4 (grid nearWin) (slidGrid 4 (grid nearWin) "right"))
                  (movements res).
Proof.
  eexists. split; [vm_compute; reflexivity|].
  refine (proj1 (movements_describe_the_slide nearWin "right" firstCell2 _ _ _)).
  - split; [reflexivity|]. repeat constructor.
  - vm_compute. reflexivity.
Defined.

(** ** A move and the board *)

(** X16.  [move] returns a result exactly when sliding changes the
    board.  On a board of [size] rows of [size] cells, in a state that
    is not rejected, the call returns no result if and only if the grid
    after the slide, back in the frame of the board, is the grid before
    the call; so a committed move never installs the grid it started
    from (before the new tile is added). *)
Theorem move_commits_iff_board_changes (s : Game) (direction : string) (rnd : Draws) :
  wf_grid (size s) (grid s) → ¬ rejected s →
  (fst (move s direction rnd) = None
   ↔ slidGrid (size s) (grid s) direction = grid s).
Proof.
  intros Hwf Hacc.
  set (n := size s).
  set (wg := normalized (grid s) direction).
  assert (Hwg : wf_grid n wg).
  { unfold wg, normalized. rewrite cloneGrid_id. by apply iter_rotateGrid. }
  pose proof Hwg as [Hlenwg _].
  destruct (slideRows_closed n wg Hlenwg) as [Hslid _].
  destruct (slideRows_inv n wg) as (_ & _ & Hwfslid). specialize (Hwfslid n Hwg).
  assert (Hnone : fst (move s direction rnd) = None
                  ↔ a_moved (slidePhase (size s) (grid s) direction) = false).
  { rewrite (move_accepted s direction rnd Hacc). cbv zeta.
    by destruct (a_moved _). }
  rewrite Hnone, slidePhase_not_moved.
  unfold slidGrid, slidePhase. fold n wg.
  pose proof (normalized_unrotated n (grid s) direction Hwf) as Hback. fold wg in Hback.
  split.
  - intros Hnoop. rewrite <- Hback. f_equal. rewrite Hslid.
    apply list_eq. intros r. rewrite lookup_map.
    destruct (wg !! r) as [row|] eqn:Hrow; [|done]. cbn. f_equal.
    apply (Hnoop r row); [|done]. apply lookup_lt_Some in Hrow. fold n. lia.
  - intros Heq r row Hr Hrow. rewrite <- Hback in Heq.
    apply (iter_rotateGrid_inj n _ _ _ Hwfslid Hwg) in Heq.
    rewrite Hslid in Heq.
    apply (f_equal (fun l => l !! r)) in Heq.
    fold wg in Hrow. rewrite lookup_map, Hrow in Heq. by injection Heq.
Qed.

Lemma move_commits_iff_board_changes_witness :
  fst (move blockedBoard "left" firstCell2) = None
  ↔ slidGrid 4 (grid blockedBoard) "left" = grid blockedBoard.
Proof.
  apply (move_commits_iff_board_changes blockedBoard "left" firstCell2).
  - split; [reflexivity|]. repeat constructor.
  - intros [H|[H _]]; discriminate H.
Defined.

(** ** Tiles are powers of two *)












Lemma grid_committedState (s : Game) (direction : string) (rnd : Draws) :
  grid (committedState s direction rnd)
  = fst (addRandomTile (size s) (slidGrid (size s) (grid s) direction) rnd).
Proof. unfold committedState, checkLose, checkWin. by case_conditions. Qed.











(** ** Directions *)

Lemma getCell_iter_rotateGrid (n : nat) (g : Grid) (i j : nat) :
  wf_grid n g → i < n → j < n →
  getCell (Nat.iter 1 rotateGrid g) i j = getCell g (n - 1 - j) i
  ∧ getCell (Nat.iter 2 rotateGrid g) i j = getCell g (n - 1 - i) (n - 1 - j)
  ∧ getCell (Nat.iter 3 rotateGrid g) i j = getCell g j (n - 1 - i).
Proof.
  intros Hwf Hi Hj.
  destruct (iter_rotateGrid n g 1 Hwf) as [Hwf1 _].
  destruct (iter_rotateGrid n g 2 Hwf) as [Hwf2 _].
  cbn [Nat.iter nat_rect] in *.
  rewrite !(getCell_rotateGrid n) by (done || lia).
  repeat split; f_equal; lia.
Qed.

(** A slid row has no zero before a tile. *)
Lemma slideRow_packed (row : list Z) (c c' : nat) :
  c < c' → c' < length row →
  sr_row (slideRow row) !! c = Some 0%Z → sr_row (slideRow row) !! c' = Some 0%Z.
Proof.
  intros Hlt Hc'. pose proof (slideRow_length row) as Hlen. revert Hlen.
  rewrite slideRow_row. cbv zeta.
  pose proof (groupsOf_nonzero _ (Forall_nonzero_filter row)) as Hnz.
  set (tiles := map sumZ _) in *. set (k := _ - _). clearbody k tiles.
  intros Hlen Hc. rewrite Forall_lookup in Hnz.
  destruct (decide (c < length tiles)) as [Hin|Hout].
  { rewrite lookup_app_l in Hc by done. by destruct (Hnz c 0%Z Hc). }
  rewrite lookup_app_r by lia. apply lookup_replicate_2.
  rewrite length_app, length_replicate in Hlen. lia.
Qed.

(** A row with a zero before a tile changes when slid. *)
Lemma slideRow_moves_into_gap (row : list Z) (i j : nat) (v : Z) :
  i < j → row !! i = Some 0%Z → row !! j = Some v → v ≠ 0%Z →
  sr_row (slideRow row) ≠ row.
Proof.
  intros Hlt Hi Hj Hv Heq.
  pose proof (lookup_lt_Some _ _ _ Hj) as Hjlt.
  rewrite <- Heq in Hi. rewrite <- Heq in Hj.
  rewrite (slideRow_packed row i j Hlt Hjlt Hi) in Hj. by injection Hj as <-.
Qed.

Lemma noAdjacentEqual_lookup_inv (l : list Z) (c : nat) (a : Z) :
  noAdjacentEqual l → l !! c = Some a → l !! S c = Some a → False.
Proof.
  revert c. induction l as [|x l IH]; intros c Hadj Ha Hb; [done|].
  destruct l as [|y l]; [by destruct c|]. destruct Hadj as [Hne Hadj].
  destruct c as [|c].
  - cbn in Ha, Hb. congruence.
  - by apply (IH c).
Qed.

(** A row with two equal tiles next to each other changes when slid. *)
Lemma slideRow_merges_neighbours (row : list Z) (c : nat) (v : Z) :
  row !! c = Some v → row !! S c = Some v → v ≠ 0%Z →
  sr_row (slideRow row) ≠ row.
Proof.
  intros Ha Hb Hv Heq.
  destruct (slideRow_unchanged_inv row Heq) as [Hadj Hrow].
  set (F := filter (fun v : Z => v ≠ 0%Z) row) in *.
  set (k := length row - length F) in *. clearbody k F.
  subst row.
  destruct (decide (S c < length F)) as [Hin|Hout].
  - rewrite lookup_app_l in Ha by lia. rewrite lookup_app_l in Hb by lia.
    by apply (noAdjacentEqual_lookup_inv F c v).
  - rewrite lookup_app_r in Hb by lia.
    apply lookup_replicate_1 in Hb as [-> _]. done.
Qed.

(** The slide of [move] changes a row as soon as one row of the
    normalized grid changes when slid. *)
Lemma move_when_row_changes (s : Game) (direction : string) (rnd : Draws)
    (r : nat) (row : list Z) :
  ¬ rejected s → r < size s →
  normalized (grid s) direction !! r = Some row →
  sr_row (slideRow row) ≠ row →
  is_Some (fst (move s direction rnd)).
Proof.
  intros Hacc Hr Hrow Hne.
  rewrite (move_accepted s direction rnd Hacc). cbv zeta.
  destruct (a_moved _) eqn:Hm; [by eexists|].
  apply slidePhase_not_moved in Hm. destruct Hne. by apply (Hm r).
Qed.

Lemma row_of_cells (n : nat) (g : Grid) (r : nat) :
  wf_grid n g → r < n →
  ∃ row, g !! r = Some row ∧ length row = n
         ∧ ∀ c, c < n → row !! c = Some (getCell g r c).
Proof.
  intros Hwf Hr. pose proof Hwf as [Hlen Hrows].
  destruct (lookup_lt_is_Some_2 g r) as [row Hrow]; [lia|].
  rewrite Forall_lookup in Hrows.
  exists row. split; [done|]. split; [by apply (Hrows r)|].
  intros c Hc. rewrite <- (wf_grid_getCell n g r c Hwf Hr Hc).
  unfold cell. by rewrite Hrow.
Qed.

Lemma normalized_wf (n : nat) (g : Grid) (direction : string) :
  wf_grid n g → wf_grid n (normalized g direction).
Proof.
  intros Hwf. unfold normalized. rewrite cloneGrid_id. by apply iter_rotateGrid.
Qed.

(** [move] returns a result when, in the normalized grid, a row has an
    empty cell before a tile. *)
Lemma move_into_gap (s : Game) (direction : string) (rnd : Draws) (r i j : nat) :
  wf_grid (size s) (grid s) → ¬ rejected s →
  r < size s → i < j → j < size s →
  getCell (normalized (grid s) direction) r i = 0%Z →
  getCell (normalized (grid s) direction) r j ≠ 0%Z →
  is_Some (fst (move s direction rnd)).
Proof.
  intros Hwf Hacc Hr Hij Hj Hzero Htile.
  destruct (row_of_cells (size s) _ r (normalized_wf _ _ direction Hwf) Hr)
    as (row & Hrow & _ & Hcells).
  apply (move_when_row_changes s direction rnd r row Hacc Hr Hrow).
  apply (slideRow_moves_into_gap row i j (getCell (normalized (grid s) direction) r j) Hij);
    [| |exact Htile].
  - rewrite Hcells by lia. by rewrite Hzero.
  - by rewrite Hcells by lia.
Qed.

(** [move] returns a result when, in the normalized grid, a row has two
    equal tiles next to each other. *)
Lemma move_merging_pair (s : Game) (direction : string) (rnd : Draws) (r c : nat) :
  wf_grid (size s) (grid s) → ¬ rejected s →
  r < size s → S c < size s →
  getCell (normalized (grid s) direction) r (S c)
  = getCell (normalized (grid s) direction) r c →
  getCell (normalized (grid s) direction) r c ≠ 0%Z →
  is_Some (fst (move s direction rnd)).
Proof.
  intros Hwf Hacc Hr Hc Heq Htile.
  destruct (row_of_cells (size s) _ r (normalized_wf _ _ direction Hwf) Hr)
    as (row & Hrow & _ & Hcells).
  apply (move_when_row_changes s direction rnd r row Hacc Hr Hrow).
  apply (slideRow_merges_neighbours row c (getCell (normalized (grid s) direction) r c));
    [| |exact Htile].
  - by rewrite Hcells by lia.
  - rewrite Hcells by lia. by rewrite Heq.
Qed.

Lemma normalized_cells (n : nat) (g : Grid) (i j : nat) :
  wf_grid n g → i < n → j < n →
  getCell (normalized g "left") i j = getCell g i j
  ∧ getCell (normalized g "down") i j = getCell g (n - 1 - j) i
  ∧ getCell (normalized g "right") i j = getCell g (n - 1 - i) (n - 1 - j)
  ∧ getCell (normalized g "up") i j = getCell g j (n - 1 - i).
Proof.
  intros Hwf Hi Hj. unfold normalized. rewrite cloneGrid_id.
  destruct (getCell_iter_rotateGrid n g i j Hwf Hi Hj) as (H1 & H2 & H3).
  by split.
Qed.

(** A tile with an empty cell in its row or column can move there. *)
Lemma move_toward_gap (s : Game) (rnd : Draws) (r c r' c' : nat) (direction : string) :
  wf_grid (size s) (grid s) → ¬ rejected s →
  r < size s → c < size s → r' < size s → c' < size s →
  getCell (grid s) r c = 0%Z → getCell (grid s) r' c' ≠ 0%Z →
  behind direction r c r' c' →
  is_Some (fst (move s direction rnd)).
Proof.
  intros Hwf Hacc Hr Hc Hr' Hc' Hzero Htile Hbehind.
  set (n := size s) in *.
  unfold behind in Hbehind.
  repeat case_bool_decide; try done; subst direction; destruct Hbehind as [-> Hlt].
  - apply (move_into_gap s "left" rnd r c c'); try done.
    + by rewrite (proj1 (normalized_cells n _ r c Hwf Hr Hc)).
    + by rewrite (proj1 (normalized_cells n _ r c' Hwf Hr Hc')).
  - apply (move_into_gap s "right" rnd (n - 1 - r) (n - 1 - c) (n - 1 - c'));
      try done; try (fold n; lia).
    + destruct (normalized_cells n (grid s) (n - 1 - r) (n - 1 - c) Hwf) as (_ & _ & -> & _);
        [lia..|].
      by replace (n - 1 - (n - 1 - r)) with r by lia;
         replace (n - 1 - (n - 1 - c)) with c by lia.
    + destruct (normalized_cells n (grid s) (n - 1 - r) (n - 1 - c') Hwf) as (_ & _ & -> & _);
        [lia..|].
      by replace (n - 1 - (n - 1 - r)) with r by lia;
         replace (n - 1 - (n - 1 - c')) with c' by lia.
  - apply (move_into_gap s "up" rnd (n - 1 - c) r r'); try done; try (fold n; lia).
    + destruct (normalized_cells n (grid s) (n - 1 - c) r Hwf) as (_ & _ & _ & ->);
        [lia..|].
      by replace (n - 1 - (n - 1 - c)) with c by lia.
    + destruct (normalized_cells n (grid s) (n - 1 - c) r' Hwf) as (_ & _ & _ & ->);
        [lia..|].
      by replace (n - 1 - (n - 1 - c)) with c by lia.
  - apply (move_into_gap s "down" rnd c (n - 1 - r) (n - 1 - r')); try done; try (fold n; lia).
    + destruct (normalized_cells n (grid s) c (n - 1 - r) Hwf) as (_ & -> & _);
        [lia..|].
      by replace (n - 1 - (n - 1 - r)) with r by lia.
    + destruct (normalized_cells n (grid s) c (n - 1 - r') Hwf) as (_ & -> & _);
        [lia..|].
      by replace (n - 1 - (n - 1 - r')) with r' by lia.
Qed.

Lemma canMove_true_inv (n : nat) (g : Grid) :
  wf_grid n g → canMove n g = true →
  (∃ r c, r < n ∧ c < n ∧ getCell g r c = 0%Z)
  ∨ (∃ r c, r < n ∧ S c < n ∧ getCell g r (S c) = getCell g r c)
  ∨ (∃ r c, S r < n ∧ c < n ∧ getCell g (S r) c = getCell g r c).
Proof.
  intros Hwf Hcan. unfold canMove in Hcan.
  apply orb_true_iff in Hcan as [Hcan|Hcan];
    apply existsb_exists in Hcan as (r & Hr & Hcan);
    apply existsb_exists in Hcan as (c & Hc & Hcan);
    apply in_seq in Hr; apply in_seq in Hc.
  - left. exists r, c. apply bool_decide_eq_true in Hcan.
    unfold getCell. rewrite Hcan. repeat split; lia || done.
  - right. cbv zeta in Hcan.
    apply orb_true_iff in Hcan as [Hcan|Hcan];
      apply andb_true_iff in Hcan as [Hlt Heq];
      apply bool_decide_eq_true in Hlt; apply bool_decide_eq_true in Heq.
    + left. exists r, c. unfold getCell. replace (S c) with (c + 1) by lia.
      rewrite Heq. repeat split; lia || done.
    + right. exists r, c. unfold getCell. replace (S r) with (r + 1) by lia.
      rewrite Heq. repeat split; lia || done.
Qed.

(** X19.  The lose check is complete.  On a board of [size] rows of
    [size] cells that holds a tile, in a state that is not rejected, if
    [canMove] holds then [move] returns a result for at least one of the
    four directions: the game is never left playing on a board on which
    [canMove] holds and no move is possible. *)
Theorem lose_check_is_complete (s : Game) (rnd : Draws) :
  wf_grid (size s) (grid s) → ¬ rejected s →
  hasTile (size s) (grid s) →
  canMove (size s) (grid s) = true →
  ∃ direction, direction ∈ directions ∧ is_Some (fst (move s direction rnd)).
Proof.
  intros Hwf Hacc (r0 & c0 & Hr0 & Hc0 & Htile) Hcan.
  set (n := size s) in *. set (g := grid s) in *.
  assert (Hgap : ∀ r c, r < n → c < n → getCell g r c = 0%Z →
            ∃ direction, direction ∈ directions ∧ is_Some (fst (move s direction rnd))).
  { intros r c Hr Hc Hzero.
    destruct (decide (getCell g r c0 = 0%Z)) as [Hz|Hnz].
    - assert (r ≠ r0) by (intros ->; done).
      destruct (decide (r < r0)).
      + exists "up". split; [by repeat constructor|].
        apply (move_toward_gap s rnd r c0 r0 c0 "up"); try done;
          unfold behind; repeat case_bool_decide; try done; lia.
      + exists "down". split; [by repeat constructor|].
        apply (move_toward_gap s rnd r c0 r0 c0 "down"); try done;
          unfold behind; repeat case_bool_decide; try done; lia.
    - assert (c ≠ c0) by (intros ->; done).
      destruct (decide (c < c0)).
      + exists "left". split; [by repeat constructor|].
        apply (move_toward_gap s rnd r c r c0 "left"); try done;
          unfold behind; repeat case_bool_decide; try done; lia.
      + exists "right". split; [by repeat constructor|].
        apply (move_toward_gap s rnd r c r c0 "right"); try done;
          unfold behind; repeat case_bool_decide; try done; lia. }
  destruct (canMove_true_inv n g Hwf Hcan)
    as [(r & c & Hr & Hc & Hz)|[(r & c & Hr & Hc & Heq)|(r & c & Hr & Hc & Heq)]].
  - by apply (Hgap r c).
  - destruct (decide (getCell g r c = 0%Z)) as [Hz|Hnz]; [apply (Hgap r c); lia || done|].
    exists "left". split; [by repeat constructor|].
    apply (move_merging_pair s "left" rnd r c); try done.
    + fold g. by rewrite (proj1 (normalized_cells n g r (S c) Hwf Hr Hc)),
        (proj1 (normalized_cells n g r c Hwf Hr ltac:(lia))).
    + fold g. by rewrite (proj1 (normalized_cells n g r c Hwf Hr ltac:(lia))).
  - destruct (decide (getCell g r c = 0%Z)) as [Hz|Hnz]; [apply (Hgap r c); lia || done|].
    exists "up". split; [by repeat constructor|].
    assert (Hcell : ∀ j, j < n → getCell (normalized g "up") (n - 1 - c) j = getCell g j c).
    { intros j Hj.
      destruct (normalized_cells n g (n - 1 - c) j Hwf) as (_ & _ & _ & ->); [lia..|].
      f_equal. lia. }
    apply (move_merging_pair s "up" rnd (n - 1 - c) r); try done; fold n g; try lia.
    + by rewrite !Hcell by lia.
    + by rewrite Hcell by lia.
Qed.

(** A row in which zeros are followed by zeros only is compacted. *)
Lemma packed_row_shape (row : list Z) :
  (∀ i j, i < j → j < length row → row !! i = Some 0%Z → row !! j = Some 0%Z) →
  ∃ tiles k, row = tiles ++ replicate k 0%Z ∧ Forall (fun v : Z => v ≠ 0%Z) tiles.
Proof.
  induction row as [|a row IH]; intros H.
  - by exists [], 0.
  - destruct (decide (a = 0%Z)) as [->|Ha].
    + exists [], (S (length row)). split; [|constructor].
      cbn [app replicate]. f_equal. apply list_eq. intros j.
      destruct (decide (j < length row)).
      * rewrite lookup_replicate_2 by lia. apply (H 0 (S j)); cbn; [lia..|done].
      * rewrite !lookup_ge_None_2; [done|rewrite length_replicate; lia|lia].
    + destruct IH as (tiles & k & -> & Hnz).
      { intros i j Hij Hj Hi. apply (H (S i) (S j)); cbn; [lia..|done]. }
      exists (a :: tiles), k. split; [done|by constructor].
Qed.

Lemma slideRow_unchanged_lookup (row : list Z) :
  (∀ i j, i < j → j < length row → row !! i = Some 0%Z → row !! j = Some 0%Z) →
  (∀ c v, row !! c = Some v → row !! S c = Some v → v = 0%Z) →
  sr_row (slideRow row) = row.
Proof.
  intros Hpacked Hnomerge.
  destruct (packed_row_shape row Hpacked) as (tiles & k & -> & Hnz).
  apply slideRow_unchanged; [done|].
  apply noAdjacentEqual_lookup. intros c a b Ha Hb ->.
  rewrite Forall_lookup in Hnz. apply (Hnz c b Ha).
  apply (Hnomerge c b); rewrite lookup_app_l; try done.
  - by apply lookup_lt_Some in Ha.
  - by apply lookup_lt_Some in Hb.
Qed.

(** A grid packed to the left without equal neighbours in its rows
    keeps all its rows when slid. *)
Lemma rows_unchanged_when_packed (n : nat) (wg : Grid) (r : nat) (row : list Z) :
  wf_grid n wg → packedToward n wg "left" → noMergeAlong n wg "left" →
  r < n → wg !! r = Some row → sr_row (slideRow row) = row.
Proof.
  intros Hwf Hpacked Hnomerge Hr Hrow.
  destruct (row_of_cells n wg r Hwf Hr) as (row' & Hrow' & Hlen & Hcells).
  assert (row' = row) as -> by congruence.
  apply slideRow_unchanged_lookup.
  - intros i j Hij Hj Hi. rewrite Hlen in Hj.
    rewrite Hcells in Hi by lia. rewrite Hcells by lia. f_equal.
    apply (Hpacked r i r j); try done; try lia.
    by injection Hi.
  - intros c v Ha Hb.
    pose proof (lookup_lt_Some _ _ _ Hb) as Hlt. rewrite Hlen in Hlt.
    rewrite Hcells in Ha by lia. rewrite Hcells in Hb by lia.
    injection Ha as Ha. injection Hb as Hb.
    destruct (decide (v = 0%Z)) as [|Hv]; [done|].
    destruct (Hnomerge r c r (S c)); try done; lia.
Qed.

(** The rows of the grid after the slide loop are packed to the left. *)
Lemma slideRows_packed (n : nat) (wg : Grid) :
  wf_grid n wg → packedToward n (a_workGrid (slideRows n wg)) "left".
Proof.
  intros Hwf. pose proof Hwf as [Hlen Hrows].
  destruct (slideRows_closed n wg Hlen) as [Hslid _].
  destruct (slideRows_inv n wg) as (_ & _ & Hwfslid). specialize (Hwfslid n Hwf).
  intros r c r' c' Hr Hc Hr' Hc' [-> Hlt] Hzero.
  destruct (row_of_cells n wg r Hwf Hr) as (row & Hrow & Hrowlen & _).
  destruct (row_of_cells n _ r Hwfslid Hr) as (out & Hout & _ & Hcells).
  rewrite Hslid, lookup_map, Hrow in Hout. injection Hout as <-.
  pose proof (Hcells c Hc) as Hc0. rewrite Hzero in Hc0.
  pose proof (slideRow_packed row c c' Hlt ltac:(lia) Hc0) as Hc1.
  rewrite Hcells in Hc1 by done. by injection Hc1.
Qed.

Lemma normalized_left (g : Grid) (i j : nat) :
  getCell (normalized g "left") i j = getCell g i j.
Proof. unfold normalized. by rewrite cloneGrid_id. Qed.

Lemma normalized_down (n : nat) (g : Grid) (i j : nat) :
  wf_grid n g → i < n → j < n →
  getCell (normalized g "down") i j = getCell g (n - 1 - j) i.
Proof. intros Hwf Hi Hj. by destruct (normalized_cells n g i j Hwf Hi Hj) as (_ & -> & _). Qed.

Lemma normalized_right (n : nat) (g : Grid) (i j : nat) :
  wf_grid n g → i < n → j < n →
  getCell (normalized g "right") i j = getCell g (n - 1 - i) (n - 1 - j).
Proof. intros Hwf Hi Hj. by destruct (normalized_cells n g i j Hwf Hi Hj) as (_ & _ & -> & _). Qed.

Lemma normalized_up (n : nat) (g : Grid) (i j : nat) :
  wf_grid n g → i < n → j < n →
  getCell (normalized g "up") i j = getCell g j (n - 1 - i).
Proof. intros Hwf Hi Hj. by destruct (normalized_cells n g i j Hwf Hi Hj) as (_ & _ & _ & ->). Qed.

Lemma directions_inv (direction : string) :
  direction ∈ directions →
  direction = "up" ∨ direction = "down" ∨ direction = "left" ∨ direction = "right".
Proof.
  unfold directions. rewrite !elem_of_cons, elem_of_nil. tauto.
Qed.

(** A board packed toward a direction, without equal tiles next to each
    other along it, is packed to the left and without equal neighbours
    in its rows once normalized. *)
Lemma normalized_frame (n : nat) (g : Grid) (direction : string) :
  wf_grid n g → direction ∈ directions →
  packedToward n g direction → noMergeAlong n g direction →
  packedToward n (normalized g direction) "left"
  ∧ noMergeAlong n (normalized g direction) "left".
Proof.
  intros Hwf Hd Hpacked Hnomerge.
  assert (Hsym : ∀ r c r' c', r < n → c < n → r' < n → c' < n →
            neighbourAlong direction r c r' c' →
            getCell g r' c' = getCell g r c → getCell g r c = 0%Z).
  { intros r c r' c' Hr Hc Hr' Hc' Hnb Heq.
    destruct (decide (getCell g r c = 0%Z)) as [|Hnz]; [done|].
    by destruct (Hnomerge r c r' c'). }
  clear Hnomerge.
  apply directions_inv in Hd as [->|[->|[->| ->]]]; split.
  - intros r c r' c' Hr Hc Hr' Hc' [-> Hlt]. rewrite !(normalized_up n) by done.
    apply (Hpacked c (n - 1 - r) c' (n - 1 - r)); try lia. split; lia.
  - intros r c r' c' Hr Hc Hr' Hc' [-> ->]. rewrite !(normalized_up n) by done.
    intros Hnz Heq. apply Hnz.
    apply (Hsym c (n - 1 - r) (S c) (n - 1 - r)); try lia; try done.
  - intros r c r' c' Hr Hc Hr' Hc' [-> Hlt]. rewrite !(normalized_down n) by done.
    apply (Hpacked (n - 1 - c) r (n - 1 - c') r); try lia. split; lia.
  - intros r c r' c' Hr Hc Hr' Hc' [-> ->]. rewrite !(normalized_down n) by done.
    intros Hnz Heq.
    assert (Hz : getCell g (n - 1 - S c) r = 0%Z).
    { apply (Hsym (n - 1 - S c) r (n - 1 - c) r); try lia; try done.
      split; lia. }
    apply Hnz. by rewrite <- Heq.
  - intros r c r' c' Hr Hc Hr' Hc' [-> Hlt]. rewrite !normalized_left.
    apply (Hpacked r c r c'); try lia. split; lia.
  - intros r c r' c' Hr Hc Hr' Hc' [-> ->]. rewrite !normalized_left.
    intros Hnz Heq. apply Hnz.
    apply (Hsym r c r (S c)); try lia; try done.
  - intros r c r' c' Hr Hc Hr' Hc' [-> Hlt]. rewrite !(normalized_right n) by done.
    apply (Hpacked (n - 1 - r) (n - 1 - c) (n - 1 - r) (n - 1 - c')); try lia.
    split; lia.
  - intros r c r' c' Hr Hc Hr' Hc' [-> ->]. rewrite !(normalized_right n) by done.
    intros Hnz Heq.
    assert (Hz : getCell g (n - 1 - r) (n - 1 - S c) = 0%Z).
    { apply (Hsym (n - 1 - r) (n - 1 - S c) (n - 1 - r) (n - 1 - c)); try lia; try done.
      split; lia. }
    apply Hnz. by rewrite <- Heq.
Qed.

Lemma slidGrid_cells (n : nat) (g : Grid) (i j : nat) :
  wf_grid n g → i < n → j < n →
  getCell (slidGrid n g "left") i j
  = getCell (a_workGrid (slidePhase n g "left")) i j
  ∧ getCell (slidGrid n g "up") i j
    = getCell (a_workGrid (slidePhase n g "up")) (n - 1 - j) i
  ∧ getCell (slidGrid n g "right") i j
    = getCell (a_workGrid (slidePhase n g "right")) (n - 1 - i) (n - 1 - j)
  ∧ getCell (slidGrid n g "down") i j
    = getCell (a_workGrid (slidePhase n g "down")) j (n - 1 - i).
Proof.
  intros Hwf Hi Hj.
  assert (Hslid : ∀ direction, wf_grid n (a_workGrid (slidePhase n g direction))).
  { intros direction. destruct (slideRows_inv n (normalized g direction)) as (_ & _ & H).
    apply H. by apply normalized_wf. }
  unfold slidGrid.
  destruct (getCell_iter_rotateGrid n _ i j (Hslid "up") Hi Hj) as (Hup & _ & _).
  destruct (getCell_iter_rotateGrid n _ i j (Hslid "right") Hi Hj) as (_ & Hright & _).
  destruct (getCell_iter_rotateGrid n _ i j (Hslid "down") Hi Hj) as (_ & _ & Hdown).
  by split.
Qed.

(** X20.  Tiles go where the direction says.  On a board of [n] rows of
    [n] cells, the grid after the slide of a move, back in the frame of
    the board and before the new tile, has no tile with an empty cell
    ahead of it: for left every empty cell has only empty cells to its
    right in its row, for right to its left, for up below it in its
    column, for down above it.  (For a string that is not one of the four
    directions the statement says nothing.) *)
Theorem slide_packs_toward_direction (n : nat) (g : Grid) (direction : string) :
  wf_grid n g → packedToward n (slidGrid n g direction) direction.
Proof.
  intros Hwf r c r' c' Hr Hc Hr' Hc' Hbehind.
  assert (Hpacked : ∀ d, packedToward n (a_workGrid (slidePhase n g d)) "left").
  { intros d. apply slideRows_packed. by apply normalized_wf. }
  unfold behind in Hbehind.
  repeat case_bool_decide; try done; subst direction; destruct Hbehind as [-> Hlt].
  - destruct (slidGrid_cells n g r c Hwf Hr Hc) as (-> & _).
    destruct (slidGrid_cells n g r c' Hwf Hr Hc') as (-> & _).
    apply (Hpacked "left"); try done.
  - destruct (slidGrid_cells n g r c Hwf Hr Hc) as (_ & _ & -> & _).
    destruct (slidGrid_cells n g r c' Hwf Hr Hc') as (_ & _ & -> & _).
    apply (Hpacked "right"); try lia. split; lia.
  - destruct (slidGrid_cells n g r c Hwf Hr Hc) as (_ & -> & _).
    destruct (slidGrid_cells n g r' c Hwf Hr' Hc) as (_ & -> & _).
    apply (Hpacked "up"); try lia. split; lia.
  - destruct (slidGrid_cells n g r c Hwf Hr Hc) as (_ & _ & _ & ->).
    destruct (slidGrid_cells n g r' c Hwf Hr' Hc) as (_ & _ & _ & ->).
    apply (Hpacked "down"); try lia. split; lia.
Qed.

(** X21.  When a direction does nothing.  On a board of [size] rows of
    [size] cells, in a state that is not rejected, [move] in one of the
    four directions returns no result if and only if the board is already
    packed toward that direction (no tile has an empty cell ahead of it)
    and no two equal tiles are next to each other along its axis. *)
Theorem move_is_noop_iff_packed (s : Game) (direction : string) (rnd : Draws) :
  direction ∈ directions →
  wf_grid (size s) (grid s) → ¬ rejected s →
  (fst (move s direction rnd) = None
   ↔ packedToward (size s) (grid s) direction
     ∧ noMergeAlong (size s) (grid s) direction).
Proof.
  intros Hd Hwf Hacc. set (n := size s). set (g := grid s). split.
  - intros Hnone.
    assert (Hno : ¬ is_Some (fst (move s direction rnd))).
    { rewrite Hnone. by intros [? ?]. }
    split.
    + intros r c r' c' Hr Hc Hr' Hc' Hbehind Hzero.
      destruct (decide (getCell g r' c' = 0%Z)) as [|Hnz]; [done|].
      destruct Hno. by apply (move_toward_gap s rnd r c r' c').
    + intros r c r' c' Hr Hc Hr' Hc' Hnb Hnz Heq. destruct Hno.
      apply directions_inv in Hd as [->|[->|[->| ->]]]; destruct Hnb as [-> ->].
      * apply (move_merging_pair s "up" rnd (n - 1 - c) r); try done; fold n g; try lia.
        -- rewrite !(normalized_up n) by (done || lia).
           by replace (n - 1 - (n - 1 - c)) with c by lia.
        -- rewrite !(normalized_up n) by (done || lia).
           by replace (n - 1 - (n - 1 - c)) with c by lia.
      * apply (move_merging_pair s "down" rnd c (n - 1 - S r)); try done; fold n g; try lia.
        -- rewrite !(normalized_down n) by (done || lia).
           replace (n - 1 - S (n - 1 - S r)) with r by lia.
           replace (n - 1 - (n - 1 - S r)) with (S r) by lia. done.
        -- rewrite !(normalized_down n) by (done || lia).
           replace (n - 1 - (n - 1 - S r)) with (S r) by lia. by rewrite Heq.
      * apply (move_merging_pair s "left" rnd r c); try done; fold n g.
        -- by rewrite !normalized_left.
        -- by rewrite !normalized_left.
      * apply (move_merging_pair s "right" rnd (n - 1 - r) (n - 1 - S c));
          try done; fold n g; try lia.
        -- rewrite !(normalized_right n) by (done || lia).
           replace (n - 1 - (n - 1 - r)) with r by lia.
           replace (n - 1 - S (n - 1 - S c)) with c by lia.
           replace (n - 1 - (n - 1 - S c)) with (S c) by lia. done.
        -- rewrite !(normalized_right n) by (done || lia).
           replace (n - 1 - (n - 1 - r)) with r by lia.
           replace (n - 1 - (n - 1 - S c)) with (S c) by lia. by rewrite Heq.
  - intros [Hpacked Hnomerge].
    destruct (normalized_frame n g direction Hwf Hd Hpacked Hnomerge) as [Hp Hm].
    rewrite (move_accepted s direction rnd Hacc). cbv zeta.
    assert (Hnoop : a_moved (slidePhase (size s) (grid s) direction) = false).
    { apply slidePhase_not_moved. intros r row Hr Hrow.
      apply (rows_unchanged_when_packed n _ r row (normalized_wf n g direction Hwf) Hp Hm Hr Hrow). }
    by rewrite Hnoop.
Qed.

Lemma slide_packs_toward_direction_witness :
  packedToward 4 (slidGrid 4 (grid nearWin) "right") "right".
Proof.
  apply (slide_packs_toward_direction 4 (grid nearWin) "right").
  split; [reflexivity|]. repeat constructor.
Defined.

Lemma move_is_noop_iff_packed_witness :
  fst (move blockedBoard "up" firstCell2) = None
  ↔ packedToward 4 (grid blockedBoard) "up" ∧ noMergeAlong 4 (grid blockedBoard) "up".
Proof.
  apply (move_is_noop_iff_packed blockedBoard "up" firstCell2).
  - by repeat constructor.
  - split; [reflexivity|]. repeat constructor.
  - intros [H|[H _]]; discriminate H.
Defined.

Lemma lose_check_is_complete_witness :
  ∃ direction, direction ∈ directions
               ∧ is_Some (fst (move nearWin direction firstCell2)).
Proof.
  apply (lose_check_is_complete nearWin firstCell2).
  - split; [reflexivity|]. repeat constructor.
  - intros [H|[H _]]; discriminate H.
  - exists 0, 0. split; [cbn; lia|]. split; [cbn; lia|]. vm_compute. discriminate.
  - vm_compute. reflexivity.
Defined.

(** ** A committed move adds a tile *)

Lemma filter_full_length (row : list Z) :
  length (filter (fun v : Z => v ≠ 0%Z) row) = length row →
  filter (fun v : Z => v ≠ 0%Z) row = row.
Proof.
  induction row as [|a row IH]; [done|].
  destruct (decide (a ≠ 0%Z)) as [Ha|Ha].
  - rewrite filter_cons_True by done. cbn [length]. intros H. f_equal. apply IH. lia.
  - rewrite filter_cons_False by done. cbn [length]. intros H.
    pose proof (length_filter (fun v : Z => v ≠ 0%Z) row). lia.
Qed.

(** A row that changes when slid ends with an empty cell afterwards. *)
Lemma slideRow_changed_leaves_gap (row : list Z) :
  sr_row (slideRow row) ≠ row →
  0 < length row ∧ sr_row (slideRow row) !! (length row - 1) = Some 0%Z.
Proof.
  intros Hne.
  pose proof (groupsOf_length (filter (fun v : Z => v ≠ 0%Z) row)) as HG.
  pose proof (length_filter (fun v : Z => v ≠ 0%Z) row) as HF.
  destruct (decide (length (groupsOf (filter (fun v : Z => v ≠ 0%Z) row)) = length row))
    as [Hfull|Hless].
  - destruct Hne.
    assert (Hrow : filter (fun v : Z => v ≠ 0%Z) row = row).
    { apply filter_full_length. lia. }
    rewrite Hrow in Hfull.
    pose proof (groupsOf_full_length row Hfull) as Hadj.
    rewrite <- (app_nil_r row) at 1 2. change (@nil Z) with (replicate 0 0%Z).
    rewrite slideRow_unchanged; [by rewrite app_nil_r| |done].
    rewrite <- Hrow. apply Forall_nonzero_filter.
  - split; [lia|]. rewrite slideRow_row. cbv zeta.
    rewrite lookup_app_r by (rewrite length_map; lia).
    apply lookup_replicate_2. rewrite length_map. lia.
Qed.

(** An empty cell stays on the board through rotations. *)
Lemma iter_rotateGrid_gap (n : nat) (g : Grid) (k : nat) :
  wf_grid n g →
  (∃ i j, i < n ∧ j < n ∧ getCell g i j = 0%Z) →
  ∃ i j, i < n ∧ j < n ∧ getCell (Nat.iter k rotateGrid g) i j = 0%Z.
Proof.
  intros Hwf Hgap. induction k as [|k (i & j & Hi & Hj & Hz)]; [done|].
  destruct (iter_rotateGrid n g k Hwf) as [Hwfk _].
  exists j, (n - 1 - i). split; [done|]. split; [lia|].
  cbn [Nat.iter nat_rect]. rewrite (getCell_rotateGrid n) by (done || lia).
  by replace (n - 1 - (n - 1 - i)) with i by lia.
Qed.

(** When the slide changes a row, the grid it leaves has an empty cell. *)
Lemma moved_leaves_gap (n : nat) (g : Grid) (direction : string) :
  wf_grid n g → a_moved (slidePhase n g direction) = true →
  ∃ i j, i < n ∧ j < n ∧ cell (slidGrid n g direction) i j = Some 0%Z.
Proof.
  intros Hwf Hmoved.
  pose proof (normalized_wf n g direction Hwf) as Hwg.
  set (wg := normalized g direction) in *. pose proof Hwg as [Hlen Hrows].
  destruct (slideRows_inv n wg) as (_ & _ & Hwfslid). specialize (Hwfslid n Hwg).
  destruct (slideRows_closed n wg Hlen) as [Hslid _].
  assert (Hex : Exists (not ∘ (fun row => sr_row (slideRow row) = row)) wg).
  { apply not_Forall_Exists; [intros row; apply _|].
    intros Hall. rewrite Forall_lookup in Hall.
    destruct (slideRows_prefix n wg n) as [_ Hiff]. cbv zeta in Hiff.
    unfold slidePhase, slideRows in Hmoved. fold wg in Hmoved.
    rewrite (proj2 Hiff) in Hmoved; [done|].
    intros r row _ Hrow. by apply (Hall r). }
  apply Exists_exists in Hex as (row & Hin & Hne). cbn in Hne.
  apply list_elem_of_lookup in Hin as [r Hrow].
  pose proof (lookup_lt_Some _ _ _ Hrow) as Hr. rewrite Hlen in Hr.
  rewrite Forall_lookup in Hrows. pose proof (Hrows r row Hrow) as Hrowlen.
  destruct (slideRow_changed_leaves_gap row Hne) as [Hpos Hlast].
  rewrite Hrowlen in Hpos, Hlast.
  assert (Hgap : ∃ i j, i < n ∧ j < n
                        ∧ getCell (a_workGrid (slideRows n wg)) i j = 0%Z).
  { exists r, (n - 1). split; [done|]. split; [lia|].
    unfold getCell, cell. rewrite Hslid, lookup_map, Hrow.
    cbn [fmap option_fmap option_map]. by rewrite Hlast. }
  destruct (iter_rotateGrid_gap n _ (loopCount (unrotations (rotations direction)))
              Hwfslid Hgap) as (i & j & Hi & Hj & Hz).
  exists i, j. split; [done|]. split; [done|].
  unfold slidGrid, slidePhase. fold wg.
  destruct (iter_rotateGrid n _ (loopCount (unrotations (rotations direction))) Hwfslid)
    as [Hwfback _].
  by rewrite (wf_grid_getCell n _ i j Hwfback Hi Hj), Hz.
Qed.

(** X22.  A committed move always adds a tile.  On a board of [size]
    rows of [size] cells, with draws in [0,1), a [move] that returns a
    result returns a newTile: its cell is on the board and was empty
    after the slide, its value is 2 or 4, and the grid that the move
    installs is the grid after the slide with this one tile written. *)
Theorem committed_move_adds_a_tile (s : Game) (direction : string) (rnd : Draws)
    (res : MoveResult) :
  wf_grid (size s) (grid s) → validDraws rnd →
  fst (move s direction rnd) = Some res →
  ∃ r c v,
    newTile res = Some (mkNewTile r c v)
    ∧ r < size s ∧ c < size s
    ∧ cell (slidGrid (size s) (grid s) direction) r c = Some 0%Z
    ∧ (v = 2%Z ∨ v = 4%Z)
    ∧ grid (snd (move s direction rnd))
      = setCell (slidGrid (size s) (grid s) direction) r c v.
Proof.
  intros Hwf Hrnd Hres.
  destruct (move_committed_fst s direction rnd res Hres) as (_ & Hmoved & Hs' & _).
  destruct (move_committed_movements s direction rnd res Hres) as (_ & Hnew & _).
  destruct (moved_leaves_gap (size s) (grid s) direction Hwf Hmoved)
    as (i & j & Hi & Hj & Hz).
  assert (Hwfslid : wf_grid (size s) (slidGrid (size s) (grid s) direction)).
  { unfold slidGrid. apply iter_rotateGrid.
    destruct (slideRows_inv (size s) (normalized (grid s) direction)) as (_ & _ & H).
    apply H. by apply normalized_wf. }
  rewrite Hs', grid_committedState, Hnew.
  destruct (addRandomTile_cases (size s) _ rnd Hwfslid Hrnd)
    as [[Hfull _]|(r & c & v & Hr & Hc & Hzero & Hv & ->)].
  - by destruct (Hfull i j Hi Hj).
  - exists r, c, v. cbn [fst snd]. repeat split; try done.
    rewrite Hv. destruct (Qlt_le_dec _ _); [by left|by right].
Qed.

Lemma committed_move_adds_a_tile_witness :
  ∃ r c v,
    newTile (mkMoveResult true
               [mkMovement (0, 0) (0, 0) 1024 true (Some 2048%Z);
                mkMovement (0, 1) (0, 0) 1024 true (Some 2048%Z)]
               [2048%Z] (Some (mkNewTile 0 1 2)) 2048 Won)
    = Some (mkNewTile r c v)
    ∧ r < size nearWin ∧ c < size nearWin
    ∧ cell (slidGrid (size nearWin) (grid nearWin) "left") r c = Some 0%Z
    ∧ (v = 2%Z ∨ v = 4%Z)
    ∧ grid (snd (move nearWin "left" firstCell2))
      = setCell (slidGrid (size nearWin) (grid nearWin) "left") r c v.
Proof.
  apply (committed_move_adds_a_tile nearWin "left" firstCell2).
  - split; [reflexivity|]. repeat constructor.
  - by vm_compute.
  - vm_compute. reflexivity.
Defined.

(** ** Keyboard and touch input *)

Lemma keyDirection_known (key direction : string) :
  keyDirection key = Some direction → direction ∈ directions.
Proof.
  unfold keyDirection, directions. intros H.
  repeat match type of H with
         | (if ?b then _ else _) = _ => destruct b
         end; simplify_eq; by repeat constructor.
Qed.

Lemma touchend_known (h : InputHandler) (ts : list Touch) (now : Z) (direction : string) :
  touchend h ts now = Some direction → direction ∈ directions.
Proof.
  unfold touchend, directions. intros H.
  destruct (locked h); [done|].
  destruct ts as [|t [|? ?]]; try done. cbv zeta in H.
  repeat match type of H with
         | (if ?b then _ else _) = _ => destruct b
         | Some (if ?b then _ else _) = _ => destruct b
         end; simplify_eq; by repeat constructor.
Qed.

(** X23.  The handlers pass known directions only.  Whenever the
    keydown or the touchend listener calls [onMove], the handler is not
    locked and the argument is one of up, down, left and right, for which
    the rotation table of [move] holds a count below 4. *)
Theorem input_emits_known_directions (h : InputHandler) (key : string)
    (ts : list Touch) (now : Z) (direction : string) :
  keydown h key = Some direction ∨ touchend h ts now = Some direction →
  locked h = false
  ∧ direction ∈ directions
  ∧ ∃ k, rotations direction = Some k ∧ k < 4.
Proof.
  intros H.
  assert (Hl : locked h = false).
  { destruct H as [H|H]; unfold keydown, touchend in H; by destruct (locked h). }
  assert (Hd : direction ∈ directions).
  { destruct H as [H|H].
    - unfold keydown in H. rewrite Hl in H. by apply keyDirection_known in H.
    - by apply touchend_known in H. }
  split; [done|]. split; [done|].
  unfold directions in Hd. rewrite !elem_of_cons, elem_of_nil in Hd.
  destruct Hd as [->|[->|[->|[->|[]]]]]; eexists; (split; [reflexivity|lia]).
Qed.

Lemma Qabs_sub_swap (a b : Q) : (Qabs (a - b) == Qabs (b - a))%Q.
Proof. rewrite <- (Qabs_opp (a - b)). apply Qabs_wd. ring. Qed.

Lemma Qmax_ge_cases (a b m : Q) : (m <= Qmax a b)%Q → (m <= a)%Q ∨ (m <= b)%Q.
Proof.
  intros H. destruct (Q.max_spec a b) as [[_ Hm]|[_ Hm]]; rewrite Hm in H; auto.
Qed.


(** X25.  With a positive [minSwipeDistance], if a swipe from a point
    [p] to a point [q] is reported as some direction, then the swipe
    from [q] to [p] with the same timing is reported as the opposite
    direction. *)
Theorem reverse_swipe_gives_opposite_direction (h : InputHandler) (p q : Touch)
    (t0 t1 : Z) (direction : string) :
  (0 < minSwipeDistance h)%Q →
  touchend (touchstart h [p] t0) [q] t1 = Some direction →
  touchend (touchstart h [q] t0) [p] t1 = Some (opposite direction).
Proof.
  intros Hmin. unfold touchstart.
  destruct (locked h) eqn:Hl; unfold touchend;
    cbn [locked _touchStartX _touchStartY _touchStartTime minSwipeDistance];
    rewrite ?Hl; [done|].
  cbv zeta.
  destruct (1000 <? t1 - t0)%Z; [done|].
  destruct p as [x0 y0], q as [x1 y1]. cbn [clientX clientY].
  set (m := minSwipeDistance h) in *.
  pose proof (Qabs_sub_swap x1 x0) as Hx. pose proof (Qabs_sub_swap y1 y0) as Hy.
  pose proof (Qabs_nonneg (x1 - x0)) as Hx0. pose proof (Qabs_nonneg (y1 - y0)) as Hy0.
  assert (Hmax : (Qmax (Qabs (x0 - x1)) (Qabs (y0 - y1))
                  == Qmax (Qabs (x1 - x0)) (Qabs (y1 - y0)))%Q).
  { by rewrite Hx, Hy. }
  destruct (Qlt_le_dec (Qmax (Qabs (x1 - x0)) (Qabs (y1 - y0))) m) as [Hs|Hs]; [done|].
  destruct (Qlt_le_dec (Qmax (Qabs (x0 - x1)) (Qabs (y0 - y1))) m) as [Hs'|Hs'].
  { rewrite Hmax in Hs'. exfalso. lra. }
  apply Qmax_ge_cases in Hs.
  destruct (Qlt_le_dec (Qabs (y1 - y0)) (Qabs (x1 - x0))) as [Hh|Hh];
  destruct (Qlt_le_dec (Qabs (y0 - y1)) (Qabs (x0 - x1))) as [Hh'|Hh'];
    try (rewrite <- Hx, <- Hy in Hh'; exfalso; lra).
  - assert (Hdx : (x1 - x0 < 0 ∨ 0 < x1 - x0)%Q).
    { destruct (Qlt_le_dec (x1 - x0) 0); [by left|].
      destruct (Qlt_le_dec 0 (x1 - x0)); [by right|]. exfalso.
      assert (H0 : (x1 - x0 == 0)%Q) by lra.
      rewrite H0 in Hh. change (Qabs 0) with 0%Q in Hh. lra. }
    destruct Hdx, (Qlt_le_dec 0 (x1 - x0)), (Qlt_le_dec 0 (x0 - x1));
      try (by intros [= <-]); exfalso; lra.
  - assert (Hge : (m <= Qabs (y1 - y0))%Q) by (destruct Hs; lra).
    assert (Hdy : (y1 - y0 < 0 ∨ 0 < y1 - y0)%Q).
    { destruct (Qlt_le_dec (y1 - y0) 0); [by left|].
      destruct (Qlt_le_dec 0 (y1 - y0)); [by right|]. exfalso.
      assert (H0 : (y1 - y0 == 0)%Q) by lra.
      rewrite H0 in Hge. change (Qabs 0) with 0%Q in Hge. lra. }
    destruct Hdy, (Qlt_le_dec 0 (y1 - y0)), (Qlt_le_dec 0 (y0 - y1));
      try (by intros [= <-]); exfalso; lra.
Qed.

Lemma input_emits_known_directions_witness :
  locked newInputHandler = false
  ∧ "up" ∈ directions
  ∧ ∃ k, rotations "up" = Some k ∧ k < 4.
Proof.
  apply (input_emits_known_directions newInputHandler "ArrowUp" [] 0 "up").
  left. reflexivity.
Defined.



Lemma reverse_swipe_gives_opposite_direction_witness :
  touchend (touchstart newInputHandler [mkTouch 160 110] 5000) [mkTouch 100 100] 5200
  = Some (opposite "right").
Proof.
  apply (reverse_swipe_gives_opposite_direction newInputHandler
           (mkTouch 100 100) (mkTouch 160 110) 5000 5200 "right").
  - reflexivity.
  - vm_compute. reflexivity.
Defined.
